(** * TuneFlow song model: timeline engine, capability gate, identifier pool

    A shallow embedding of [src/models/song.ts] (class [Song]) and of the
    parts of [src/base_plugin.ts] (class [TuneflowPlugin]) it relies on.

    Conventions of the embedding.
    - A JavaScript [number] holding a tick, a rank or a resolution is a [Z].
    - A JavaScript [number] holding a tempo, a time in seconds, a scale
      factor or a velocity is an exact rational [Q]: IEEE-754 rounding of
      [+], [-], [*], [/] is not part of the model, and neither are
      [Infinity] and [NaN] (the model agrees with the code on the exact
      value wherever no division by zero occurs).
    - A method of [Song] is a function from the state before the call to
      the outcome of the call (a value or a thrown exception) and the state
      after it; a thrown exception keeps the mutations done before it.
    - The plugin instance is a shared object: it lives in a store, the
      plugin context holds a reference to it. *)

From Stdlib Require Import ZArith QArith Qround Qabs Lia Lqa String Sorted.
From stdpp Require Import base option list gmap strings pretty.

Local Open Scope Z_scope.

(** ** Outcomes and the state-and-exception monad *)

(** What a JavaScript [throw] carries here: [new Error(msg)], or the
    [TypeError] the engine raises for a property read on [undefined]. *)
Inductive Exn : Type :=
| Error (msg : string)
| TypeError.

Inductive Outcome (A : Type) : Type :=
| Ret (a : A)
| Throw (e : Exn).
Arguments Ret {A} a.
Arguments Throw {A} e.

Definition M (S A : Type) : Type := S -> Outcome A * S.

Definition ret {S A} (a : A) : M S A := fun s => (Ret a, s).
Definition throw {S A} (e : Exn) : M S A := fun s => (Throw e, s).
Definition bind {S A B} (m : M S A) (k : A -> M S B) : M S B :=
  fun s => match m s with
           | (Ret a, s') => k a s'
           | (Throw e, s') => (Throw e, s')
           end.
Definition get {S} : M S S := fun s => (Ret s, s).
Definition modify {S} (f : S -> S) : M S unit := fun s => (Ret tt, f s).
Definition lift {S A} (o : Outcome A) : M S A := fun s => (o, s).

Declare Scope js_scope.
Delimit Scope js_scope with js.
Notation "'let*' x ':=' m 'in' k" := (bind m (fun x => k))
  (at level 10, x name, m at level 100, k at level 200) : js_scope.

(** ** JavaScript primitives *)

(** [Math.round]: the nearest integer, a tie going up. *)
Definition Math_round (x : Q) : Z := Qfloor (x + (1 # 2))%Q.

(** [Array.prototype.splice(start, deleteCount, ...items)] on the array
    itself; [start] is clamped as the language does. *)
Definition splice_start {A} (a : list A) (start : Z) : nat :=
  let len := Z.of_nat (length a) in
  Z.to_nat (if start <? 0 then Z.max (len + start) 0 else Z.min start len).

Definition splice {A} (a : list A) (start : Z) (deleteCount : nat) (items : list A) : list A :=
  let i := splice_start a start in
  take i a ++ items ++ drop (i + deleteCount) a.

(** [Array.prototype.sort(cmp)] with [cmp = (a, b) => key a - key b]: the
    sort is stable, here by insertion. *)
Section Sort.
Context {A : Type} (key : A -> Z).

Fixpoint sort_insert (x : A) (l : list A) : list A :=
  match l with
  | [] => [x]
  | y :: l' => if key y <=? key x then y :: sort_insert x l' else x :: y :: l'
  end.

Definition sort_by (l : list A) : list A :=
  fold_left (fun acc x => sort_insert x acc) l [].

Definition sorted_by (l : list A) : Prop :=
  StronglySorted (fun a b => key a <= key b) l.
End Sort.

(** underscore's [_.find] and [_.findIndex]: the first match, from the left. *)
Definition find_ {A} (p : A -> bool) (l : list A) : option A := List.find p l.

Fixpoint findIndex {A} (p : A -> bool) (l : list A) : Z :=
  match l with
  | [] => -1
  | x :: l' => if p x then 0 else
                 let i := findIndex p l' in if i <? 0 then -1 else i + 1
  end.

(** ** binary-search-bounds

    [lt] and [ge], as the package writes them: a binary search over
    [l .. h]. The comparator is always called as [c(x, y)] with the probe
    [y] fixed, so a search takes the predicate [below x := c(x, y) < 0].
    [(l + h) >>> 1] is halving, the indices being below [2^31]; the loop
    runs at most [length a] times, which is the fuel. *)
Section Bounds.
Context {A : Type} (below : A -> bool) (a : list A).

Fixpoint lt_loop (fuel : nat) (l h i : Z) : Z :=
  match fuel with
  | O => i
  | S fuel' =>
      if l <=? h then
        let m := Z.shiftr (l + h) 1 in
        match a !! Z.to_nat m with
        | Some x => if below x then lt_loop fuel' (m + 1) h m
                    else lt_loop fuel' l (m - 1) i
        | None => i
        end
      else i
  end.

Fixpoint ge_loop (fuel : nat) (l h i : Z) : Z :=
  match fuel with
  | O => i
  | S fuel' =>
      if l <=? h then
        let m := Z.shiftr (l + h) 1 in
        match a !! Z.to_nat m with
        | Some x => if negb (below x) then ge_loop fuel' l (m - 1) m
                    else ge_loop fuel' (m + 1) h i
        | None => i
        end
      else i
  end.

(** [lt(a, y, c)]: index of the last item below [y], [-1] if none. *)
Definition lowerThan : Z :=
  lt_loop (length a) 0 (Z.of_nat (length a) - 1) (0 - 1).

(** [ge(a, y, c)]: index of the first item not below [y], [a.length] if none. *)
Definition greaterEqual : Z :=
  let h := Z.of_nat (length a) - 1 in ge_loop (length a) 0 h (h + 1).
End Bounds.

(** ** Events of the timeline (models/tempo.ts, models/time_signature.ts) *)

(** Modelled from the spec: the TempoEvent class is not part of the sources
    at hand. An event has a tick, a tempo in beats per minute and a time in
    seconds, read by [getTicks], [getBpm], [getTime] and written by
    [setBpmInternal] and [setTimeInternal], as [Song] uses them. *)
Record TempoEvent : Type := mkTempoEvent {
  getTicks : Z;
  getBpm : Q;
  getTime : Q
}.

Definition setTimeInternal (e : TempoEvent) (t : Q) : TempoEvent :=
  mkTempoEvent (getTicks e) (getBpm e) t.
Definition setBpmInternal (e : TempoEvent) (b : Q) : TempoEvent :=
  mkTempoEvent (getTicks e) b (getTime e).

(** Modelled from the spec: the TimeSignatureEvent class is not part of the
    sources at hand; an event has a tick, a numerator and a denominator. *)
Record TimeSignatureEvent : Type := mkTimeSignatureEvent {
  tsTicks : Z;
  getNumerator : Z;
  getDenominator : Z
}.

(** ** Tick to seconds and back *)

Definition tempoBPMToTicksPerSecond (tempoBPM : Q) (PPQ : Z) : Q :=
  (tempoBPM * inject_Z PPQ) / 60.

Definition tickToSecondsImpl (tick : Z) (tempos : list TempoEvent) (resolution : Z)
  : Outcome Q :=
  if tick =? 0 then Ret 0%Q
  else
    let baseTempoIndex := lowerThan (fun a => getTicks a - tick <? 0) tempos in
    let baseTempoIndex := if baseTempoIndex =? -1 then 0 else baseTempoIndex in
    match tempos !! Z.to_nat baseTempoIndex with
    | None => Throw TypeError
    | Some baseTempoChange =>
        let ticksDelta := tick - getTicks baseTempoChange in
        let ticksPerSecondSinceLastTempoChange :=
          tempoBPMToTicksPerSecond (getBpm baseTempoChange) resolution in
        Ret (getTime baseTempoChange
             + inject_Z ticksDelta / ticksPerSecondSinceLastTempoChange)%Q
    end.


(** *** The base event of a tick, without the search

    On a sequence sorted by tick the search of [tickToSecondsImpl] ends on
    the last event strictly before the tick, and on the first event when
    there is none: [time_at] is [tickToSecondsImpl] read that way. *)
Abbreviation sorted := (sorted_by getTicks).

Fixpoint before (t : Z) (l : list TempoEvent) : list TempoEvent :=
  match l with
  | [] => []
  | e :: l' => if getTicks e <? t then e :: before t l' else []
  end.

Definition from (t : Z) (l : list TempoEvent) : list TempoEvent :=
  drop (length (before t l)) l.

Definition base (t : Z) (l : list TempoEvent) : option TempoEvent :=
  match last (before t l) with
  | Some b => Some b
  | None => head l
  end.

Definition segment_time (b : TempoEvent) (resolution t : Z) : Q :=
  (getTime b
   + inject_Z (t - getTicks b) / tempoBPMToTicksPerSecond (getBpm b) resolution)%Q.

Definition time_at (t : Z) (l : list TempoEvent) (resolution : Z) : Outcome Q :=
  if t =? 0 then Ret 0%Q
  else match base t l with
       | None => Throw TypeError
       | Some b => Ret (segment_time b resolution t)
       end.


(** ** Plugins (base_plugin.ts) *)

(** A plugin instance. [providerId] and [pluginId] are static methods of
    the plugin's class: [None] is the base implementation, which throws.
    [songAccess] is the object the method of that name returns, read
    through [songAccess()[accessName]]. *)
Record TuneflowPlugin : Type := mkTuneflowPlugin {
  providerId : option string;
  pluginId : option string;
  songAccess : gmap string bool;
  generatedTrackIdsInternal : list string
}.

(** [static id()], the template [`${this.providerId()}.${this.pluginId()}`]. *)
Definition plugin_id (p : TuneflowPlugin) : Outcome string :=
  match providerId p with
  | None => Throw (Error "providerId() should be overwritten.")
  | Some a =>
      match pluginId p with
      | None => Throw (Error "pluginId() should be overwritten.")
      | Some b => Ret (a +:+ "." +:+ b)
      end
  end.

Definition set_generatedTrackIdsInternal (ids : list string) (p : TuneflowPlugin)
  : TuneflowPlugin :=
  mkTuneflowPlugin (providerId p) (pluginId p) (songAccess p) ids.

(** ** Tracks (models/track.ts, models/automation.ts) *)

(** Modelled from the spec: the two enumerations are declared in files that
    are not part of the sources at hand; these are the members [Song] names. *)
Inductive TrackType : Type := MIDI_TRACK | AUDIO_TRACK.
Inductive AutomationTargetType : Type := VOLUME | PAN.

(** Modelled from the spec: the Track, Clip and automation classes are not
    part of the sources at hand. Of a track the song code reads the
    identifier, the type and the rank it was constructed with; what
    [importMIDI] asks of the track, of its clip and of its automation
    values is kept as the sequence of these calls, in the order made. *)
Inductive TrackCall : Type :=
| SetInstrument (program : Z) (isDrum : bool)
| CreateMIDIClip (clipStartTick : Z)
| CreateNote (pitch velocity startTick endTick : Z)
| AddAutomation (target : AutomationTargetType)
| AddPoint (target : AutomationTargetType) (tick : Z) (value : Q)
| AdjustClipLeft (clipStartTick : Z).

Record Track : Type := mkTrack {
  getId : string;
  getType : TrackType;
  getRank : Z;
  received : list TrackCall
}.

Definition receive (c : TrackCall) (t : Track) : Track :=
  mkTrack (getId t) (getType t) (getRank t) (received t ++ [c]).

(** ** The song *)

Definition PluginRef : Type := nat.

Record PluginContext : Type := mkPluginContext {
  plugin : PluginRef;
  numTracksCreatedByPlugin : nat
}.

Record Song : Type := mkSong {
  tracks : list Track;
  PPQ : Z;
  tempos : list TempoEvent;
  timeSignatures : list TimeSignatureEvent;
  pluginContext : option PluginContext;
  nextTrackRank : Z
}.

(** [new Song()] *)
Definition newSong : Song := mkSong [] 0 [] [] None 1.

Definition set_tracks (f : list Track -> list Track) (s : Song) : Song :=
  mkSong (f (tracks s)) (PPQ s) (tempos s) (timeSignatures s) (pluginContext s)
    (nextTrackRank s).
Definition set_PPQ (r : Z) (s : Song) : Song :=
  mkSong (tracks s) r (tempos s) (timeSignatures s) (pluginContext s) (nextTrackRank s).
Definition set_tempos (f : list TempoEvent -> list TempoEvent) (s : Song) : Song :=
  mkSong (tracks s) (PPQ s) (f (tempos s)) (timeSignatures s) (pluginContext s)
    (nextTrackRank s).
Definition set_timeSignatures (l : list TimeSignatureEvent) (s : Song) : Song :=
  mkSong (tracks s) (PPQ s) (tempos s) l (pluginContext s) (nextTrackRank s).
Definition set_pluginContext (c : option PluginContext) (s : Song) : Song :=
  mkSong (tracks s) (PPQ s) (tempos s) (timeSignatures s) c (nextTrackRank s).
Definition set_nextTrackRank (r : Z) (s : Song) : Song :=
  mkSong (tracks s) (PPQ s) (tempos s) (timeSignatures s) (pluginContext s) r.

Local Open Scope js_scope.

Fixpoint for_each {S A} (l : list A) (body : A -> M S unit) : M S unit :=
  match l with
  | [] => ret tt
  | x :: l' => let* _ := body x in for_each l' body
  end.

(** *** Timeline engine *)

Definition getResolution (s : Song) : Z := PPQ s.
Definition setResolution (resolution : Z) : M Song unit :=
  modify (set_PPQ resolution).
Definition getTempoChanges (s : Song) : list TempoEvent := tempos s.

Definition tickToSeconds (s : Song) (tick : Z) : Outcome Q :=
  tickToSecondsImpl tick (getTempoChanges s) (getResolution s).


(** The loop of [retimingTempoEvents]: [done] are the events already
    visited, [todo] the ones to visit; [this.tempos] is [done ++ todo], and
    each event's time is set from it. *)
Fixpoint retime_loop (resolution : Z) (done todo : list TempoEvent)
  : Outcome unit * list TempoEvent :=
  match todo with
  | [] => (Ret tt, done)
  | tempoEvent :: rest =>
      match tickToSecondsImpl (getTicks tempoEvent) (done ++ todo) resolution with
      | Ret t => retime_loop resolution (done ++ [setTimeInternal tempoEvent t]) rest
      | Throw e => (Throw e, done ++ todo)
      end
  end.

Definition retimingTempoEvents : M Song unit :=
  let* _ := modify (set_tempos (sort_by getTicks)) in
  fun s =>
    let (r, l) := retime_loop (getResolution s) [] (tempos s) in
    (r, set_tempos (fun _ => l) s).

(** The event returned is the one constructed; the caller holds the object
    stored in the sequence, whose time is the one found there. *)
Definition createTempoChange (ticks : Z) (bpm : Q) : M Song TempoEvent :=
  let* s := get in
  if PPQ s <=? 0 then
    throw (Error "Song resolution must be provided before creating tempo changes.")
  else if (length (tempos s) =? 0)%nat && negb (ticks =? 0) then
    throw (Error "The first tempo event must be at tick 0")
  else
    let* t := lift (tickToSeconds s ticks) in
    let tempoChange := mkTempoEvent ticks bpm t in
    let insertIndex :=
      greaterEqual (fun a => getTicks a - getTicks tempoChange <? 0) (tempos s) in
    let* _ :=
      if insertIndex <? 0 then modify (set_tempos (fun l => l ++ [tempoChange]))
      else modify (set_tempos (fun l => splice l insertIndex 0 [tempoChange])) in
    let* _ := retimingTempoEvents in
    ret tempoChange.

(** The loop of [overwriteTempoChanges] over [sortedTempoEvents[1..]]. *)
Definition insert_each (rest : list TempoEvent) : M Song unit :=
  for_each rest (fun tempoEvent =>
    let* _ := createTempoChange (getTicks tempoEvent) (getBpm tempoEvent) in
    ret tt).

(** [cloneDeep] gives fresh events with the same fields: the list itself. *)
Definition overwriteTempoChanges (tempoEvents : list TempoEvent) : M Song unit :=
  if (length tempoEvents =? 0)%nat then
    throw (Error "Cannot clear all the tempo events.")
  else
    let sortedTempoEvents := sort_by getTicks tempoEvents in
    match sortedTempoEvents with
    | [] => throw TypeError
    | firstTempoEvent :: rest =>
        if getTicks firstTempoEvent >? 0 then
          throw (Error "The first tempo event needs to start from tick 0")
        else
          let* _ := modify (set_tempos (fun _ =>
                      [mkTempoEvent 0 (getBpm firstTempoEvent) 0])) in
          insert_each rest
    end.

Definition overwriteTimeSignatures (l : list TimeSignatureEvent) : M Song unit :=
  modify (set_timeSignatures l).

(** [tempoEvent] is an object of the tempo sequence, given by its position
    there (a position outside it: an event that is not the song's). *)
Definition updateTempo (tempoEvent : nat) (newBPM : Q) : M Song unit :=
  let* _ := modify (set_tempos (alter (fun e => setBpmInternal e newBPM) tempoEvent)) in
  retimingTempoEvents.

(** *** The world a song lives in

    The plugin instances are objects shared between the host and the plugin
    context of the song: [plugins] is their store. [Track.generateTrackIdInternal]
    draws a random identifier; [idSource] is the sequence of its draws and
    [idsMinted] how many were taken. *)
Record World : Type := mkWorld {
  song : Song;
  plugins : gmap PluginRef TuneflowPlugin;
  idSource : nat -> string;
  idsMinted : nat
}.

Definition set_song (f : Song -> Song) (w : World) : World :=
  mkWorld (f (song w)) (plugins w) (idSource w) (idsMinted w).
Definition set_plugins (f : gmap PluginRef TuneflowPlugin -> gmap PluginRef TuneflowPlugin)
  (w : World) : World :=
  mkWorld (song w) (f (plugins w)) (idSource w) (idsMinted w).

(** A method of the song that touches the song only. *)
Definition onSong {A} (m : M Song A) : M World A :=
  fun w => let (r, s') := m (song w) in (r, set_song (fun _ => s') w).

(** Modelled from the spec: [Track.generateTrackIdInternal] is not part of
    the sources at hand; it mints a fresh identifier, here the next draw. *)
Definition generateTrackIdInternal : M World string :=
  fun w => (Ret (idSource w (idsMinted w)),
            mkWorld (song w) (plugins w) (idSource w) (S (idsMinted w))).

(** *** Plugin context and capability gate *)

Definition setPluginContextInternal (p : PluginRef) : M World unit :=
  modify (set_song (set_pluginContext (Some (mkPluginContext p 0%nat)))).

Definition clearPluginContextInternal : M World unit :=
  modify (set_song (set_pluginContext None)).

(** The plugin object a context refers to. A reference always denotes an
    object in the program; a reference absent from the store stands for
    [undefined], on which a property read throws. *)
Definition deref (r : PluginRef) : M World TuneflowPlugin :=
  fun w => match plugins w !! r with
           | Some p => (Ret p, w)
           | None => (Throw TypeError, w)
           end.

Definition truthy (o : option bool) : bool :=
  match o with Some b => b | None => false end.

Definition checkAccess (accessName : string) : M World unit :=
  let* w := get in
  match pluginContext (song w) with
  | None =>
      throw (Error
        "Song needs to be accessed in a plugin context in order to use privileged methods.")
  | Some ctx =>
      let* p := deref (plugin ctx) in
      if negb (truthy (songAccess p !! accessName)) then
        let* id := lift (plugin_id p) in
        throw (Error ("Plugin " +:+ id +:+ " requires access " +:+ accessName
                      +:+ " in order to run."))
      else ret tt
  end.

Definition getNextTrackId : M World string :=
  let* w := get in
  match pluginContext (song w) with
  | None => throw TypeError
  | Some pluginContext =>
      let* p := deref (plugin pluginContext) in
      let n := numTracksCreatedByPlugin pluginContext in
      let* _ :=
        if (n =? length (generatedTrackIdsInternal p))%nat then
          let* fresh := generateTrackIdInternal in
          modify (set_plugins (alter (fun p =>
            set_generatedTrackIdsInternal (generatedTrackIdsInternal p ++ [fresh]) p)
            (plugin pluginContext)))
        else if (length (generatedTrackIdsInternal p) <? n)%nat then
          throw (Error "Plugin generated track ids out of sync.")
        else ret tt in
      let* p := deref (plugin pluginContext) in
      (* the pool has a position [n] here: it was extended, or [n] was below
         its length *)
      match generatedTrackIdsInternal p !! n with
      | None => throw TypeError
      | Some nextTrackId =>
          let* _ := modify (set_song (set_pluginContext
                      (Some (mkPluginContext (plugin pluginContext) (n + 1)%nat)))) in
          ret nextTrackId
      end
  end.

Definition getNextTrackRank : M World Z :=
  let* w := get in
  let nextRank := nextTrackRank (song w) in
  let* _ := modify (set_song (set_nextTrackRank (nextRank + 1))) in
  ret nextRank.

(** *** Composition model *)

Definition getTrackById (s : Song) (trackId : string) : option Track :=
  find_ (fun track => String.eqb (getId track) trackId) (tracks s).

Definition getTrackIndex (s : Song) (trackId : string) : Z :=
  findIndex (fun track => String.eqb (getId track) trackId) (tracks s).

Definition createTrack (type : TrackType) (index rank : option Z) : M World Track :=
  let* _ := checkAccess "createTrack" in
  let* rank :=
    match rank with
    | None => getNextTrackRank
    | Some rank =>
        let* _ := modify (set_song (fun s =>
                    set_nextTrackRank (Z.max (rank + 1) (nextTrackRank s)) s)) in
        ret rank
    end in
  let* uuid := getNextTrackId in
  let track := mkTrack uuid type rank [] in
  let* _ :=
    match index with
    | Some index => modify (set_song (set_tracks (fun l => splice l index 0 [track])))
    | None => modify (set_song (set_tracks (fun l => l ++ [track])))
    end in
  ret track.

Definition removeTrack (trackId : string) : M World (option Track) :=
  let* _ := checkAccess "removeTrack" in
  let* w := get in
  match getTrackById (song w) trackId with
  | None => ret None
  | Some track =>
      let* _ := modify (set_song (set_tracks (fun l =>
                  splice l (findIndex (fun track => String.eqb (getId track) trackId) l)
                    1 []))) in
      ret (Some track)
  end.

(** *** Import merger

    The decoded file, as [new Midi(fileBuffer)] of the decoder package
    presents it: the header and the tracks, in the file's own resolution. *)
Record MidiTempo : Type := mkMidiTempo {
  rawTempoTicks : Z;
  rawTempoTime : Q;
  rawTempoBpm : Q
}.

Record MidiTimeSignature : Type := mkMidiTimeSignature {
  rawTimeSignatureTicks : Z;
  rawNumerator : Z;
  rawDenominator : Z
}.

Record MidiNote : Type := mkMidiNote {
  noteMidi : Z;
  noteVelocity : Q;
  noteTicks : Z;
  noteDurationTicks : Z
}.

Record MidiControlChange : Type := mkMidiControlChange {
  ccTicks : Z;
  ccValue : Q
}.

Record MidiTrack : Type := mkMidiTrack {
  instrumentNumber : Z;
  instrumentPercussion : bool;
  notes : list MidiNote;
  controlChanges : gmap Z (list MidiControlChange)
}.

Record Midi : Type := mkMidi {
  headerPpq : Z;
  headerTempos : list MidiTempo;
  headerTimeSignatures : list MidiTimeSignature;
  midiTracks : list MidiTrack
}.

Definition scaleIntBy (val : Z) (factor : Q) : Z :=
  Math_round (inject_Z val * factor).

Definition MAX_SAFE_INTEGER : Z := 9007199254740991.

Fixpoint fold_each {S A B} (l : list A) (acc : B) (body : B -> A -> M S B) : M S B :=
  match l with
  | [] => ret acc
  | x :: l' => let* acc' := body acc x in fold_each l' acc' body
  end.

(** A call on the track object held at position [i] of the song's tracks. *)
Definition tell (i : nat) (c : TrackCall) : M World unit :=
  modify (set_song (set_tracks (alter (receive c) i))).

Definition importAutomation (i : nat) (target : AutomationTargetType)
    (ccs : option (list MidiControlChange)) (insertOffset : Z) (ppqScaleFactor : Q)
  : M World unit :=
  match ccs with
  | None => ret tt
  | Some ccs =>
      let* _ := tell i (AddAutomation target) in
      for_each ccs (fun cc =>
        tell i (AddPoint target (insertOffset + scaleIntBy (ccTicks cc) ppqScaleFactor)
                  (ccValue cc)))
  end.

Definition importTrack (insertOffset : Z) (ppqScaleFactor : Q) (track : MidiTrack)
  : M World unit :=
  let* _ := createTrack MIDI_TRACK None None in
  let* w := get in
  let songTrack := (length (tracks (song w)) - 1)%nat in
  let* _ := tell songTrack
              (SetInstrument (instrumentNumber track) (instrumentPercussion track)) in
  let* _ := tell songTrack (CreateMIDIClip insertOffset) in
  let* minStartTick :=
    fold_each (notes track) MAX_SAFE_INTEGER (fun minStartTick note =>
      let* _ := tell songTrack
        (CreateNote (noteMidi note) (Math_round (noteVelocity note * 127))
           (insertOffset + scaleIntBy (noteTicks note) ppqScaleFactor)
           (insertOffset
            + scaleIntBy (noteTicks note + noteDurationTicks note) ppqScaleFactor)) in
      ret (Z.min minStartTick
             (insertOffset + scaleIntBy (noteTicks note) ppqScaleFactor))) in
  let* _ := importAutomation songTrack VOLUME (controlChanges track !! 7)
              insertOffset ppqScaleFactor in
  let* _ := importAutomation songTrack PAN (controlChanges track !! 10)
              insertOffset ppqScaleFactor in
  if negb (minStartTick =? MAX_SAFE_INTEGER) then
    tell songTrack (AdjustClipLeft minStartTick)
  else ret tt.

Definition importedTimeSignatures (midi : Midi) (insertOffset : Z) (ppqScaleFactor : Q)
  : list TimeSignatureEvent :=
  map (fun rawTimeSignatureEvent =>
         mkTimeSignatureEvent
           (insertOffset
            + scaleIntBy (rawTimeSignatureTicks rawTimeSignatureEvent) ppqScaleFactor)
           (rawNumerator rawTimeSignatureEvent) (rawDenominator rawTimeSignatureEvent))
      (headerTimeSignatures midi).

Definition importedTempos (midi : Midi) (insertOffset : Z) (ppqScaleFactor : Q)
  : list TempoEvent :=
  (if insertOffset >? 0 then [mkTempoEvent 0 120 0] else [])
  ++ map (fun rawTempoEvent =>
            mkTempoEvent
              (insertOffset + scaleIntBy (rawTempoTicks rawTempoEvent) ppqScaleFactor)
              (rawTempoBpm rawTempoEvent) (rawTempoTime rawTempoEvent))
         (headerTempos midi).

Definition importMIDI (midi : Midi) (insertAtTick : Z)
    (overwriteTemposAndTimeSignatures : bool) : M World unit :=
  let insertOffset := insertAtTick in
  let ppqScaleFactor := (480 / inject_Z (headerPpq midi))%Q in
  let* _ :=
    if overwriteTemposAndTimeSignatures then
      let* _ := onSong (overwriteTimeSignatures
                          (importedTimeSignatures midi insertOffset ppqScaleFactor)) in
      onSong (overwriteTempoChanges (importedTempos midi insertOffset ppqScaleFactor))
    else ret tt in
  for_each (midiTracks midi) (importTrack insertOffset ppqScaleFactor).

(** ** The invariant of the tempo sequence

    The sequence is sorted by tick, starts at tick 0 when it has an event,
    holds positive tempos only, and the time stored in each event is the
    one [tickToSecondsImpl] gives for the event's tick. *)
Definition timed (resolution : Z) (l : list TempoEvent) : Prop :=
  Forall (fun e => tickToSecondsImpl (getTicks e) l resolution = Ret (getTime e)) l.

Definition starts_at_zero (l : list TempoEvent) : Prop :=
  match l with
  | [] => True
  | e :: _ => getTicks e = 0
  end.

Record tempo_inv (s : Song) : Prop := mkTempoInv {
  inv_sorted : sorted (tempos s);
  inv_start : starts_at_zero (tempos s);
  inv_bpm : Forall (fun e => (0 < getBpm e)%Q) (tempos s);
  inv_timed : timed (PPQ s) (tempos s)
}.

(** Two events with the same tick and tempo (the time may differ). *)
Definition same_event (a b : TempoEvent) : Prop :=
  getTicks a = getTicks b /\ getBpm a = getBpm b.

(** The tempo sequence of [createTempoChange] once the new event is in
    place, before the times are derived again. *)
Definition inserted (tempoChange : TempoEvent) (l : list TempoEvent) : list TempoEvent :=
  let insertIndex :=
    greaterEqual (fun a => getTicks a - getTicks tempoChange <? 0) l in
  if insertIndex <? 0 then l ++ [tempoChange] else splice l insertIndex 0 [tempoChange].

(** The sequence [l'] is the sequence [old] with one more event, of tick
    [ticks] and tempo [bpm], and no event at tick [ticks] follows it
    ([placed_after_ties]) or precedes it ([placed_before_ties]). *)
Definition placed_after_ties (old : list TempoEvent) (ticks : Z) (bpm : Q)
    (l' : list TempoEvent) : Prop :=
  exists l1 new l2,
    l' = l1 ++ new :: l2 /\ getTicks new = ticks /\ getBpm new = bpm /\
    Forall2 same_event old (l1 ++ l2) /\
    Forall (fun e => getTicks e <> ticks) l2.

Definition placed_before_ties (old : list TempoEvent) (ticks : Z) (bpm : Q)
    (l' : list TempoEvent) : Prop :=
  exists l1 new l2,
    l' = l1 ++ new :: l2 /\ getTicks new = ticks /\ getBpm new = bpm /\
    Forall2 same_event old (l1 ++ l2) /\
    Forall (fun e => getTicks e <> ticks) l1.

(** The first event of a sequence is at tick 0 and time 0 and its tempo
    satisfies [P]. *)
Definition head_ok (P : Q -> Prop) (l : list TempoEvent) : Prop :=
  exists e l0, l = e :: l0 /\ getTicks e = 0 /\ getTime e = 0%Q /\ P (getBpm e).

(** What a caller may pass for an event: a tick that is not negative and a
    positive tempo (section 3 of the specification). *)
Definition valid_event (e : TempoEvent) : Prop :=
  0 <= getTicks e /\ (0 < getBpm e)%Q.

Definition one_tempo_song : Song :=
  mkSong [] 480 [mkTempoEvent 0 120 0] [] None 1.

(** The first stored event carries the tempo of the first event of the
    sorted input, [firstTempoEvent] in [overwriteTempoChanges]. *)
Definition first_carries_earliest_bpm (tempoEvents stored : list TempoEvent) : Prop :=
  exists firstTempoEvent rest e l,
    sort_by getTicks tempoEvents = firstTempoEvent :: rest /\
    stored = e :: l /\ (getBpm e == getBpm firstTempoEvent)%Q.

Definition two_tempos_at_zero : list TempoEvent :=
  [mkTempoEvent 0 120 5; mkTempoEvent 0 100 7].

(** ** Times by integration

    The specification's reading of a stored time: the first event is at
    0 s, and each next event is later than the one before it by the length
    of the segment between them at that event's tempo, a tick lasting
    [60 / (bpm * resolution)] seconds. *)
Definition segment_seconds (resolution : Z) (prev e : TempoEvent) : Q :=
  (inject_Z (getTicks e - getTicks prev) * 60
   / (getBpm prev * inject_Z resolution))%Q.

Fixpoint integrate (resolution : Z) (prev : TempoEvent) (acc : Q) (l : list TempoEvent)
  : list Q :=
  match l with
  | [] => []
  | e :: l' =>
      let acc' := (acc + segment_seconds resolution prev e)%Q in
      acc' :: integrate resolution e acc' l'
  end.

Definition integrated_times (resolution : Z) (l : list TempoEvent) : list Q :=
  match l with
  | [] => []
  | e :: l' => 0%Q :: integrate resolution e 0 l'
  end.

Definition times_integrated (s : Song) : Prop :=
  Forall2 Qeq (map getTime (tempos s)) (integrated_times (PPQ s) (tempos s)).

(** ** The operations of a song, as a state machine *)

Inductive SongOp : Type :=
| OpSetResolution (resolution : Z)
| OpCreateTempoChange (ticks : Z) (bpm : Q)
| OpOverwriteTempoChanges (tempoEvents : list TempoEvent)
| OpUpdateTempo (tempoEvent : nat) (newBPM : Q)
| OpOverwriteTimeSignatures (timeSignatures : list TimeSignatureEvent)
| OpImportMIDI (midi : Midi) (insertAtTick : Z) (overwriteTemposAndTimeSignatures : bool)
| OpSetPluginContext (p : PluginRef)
| OpClearPluginContext
| OpCreateTrack (type : TrackType) (index rank : option Z)
| OpRemoveTrack (trackId : string).

Definition discard {S A} (m : M S A) : M S unit := let* _ := m in ret tt.

Definition run_op (op : SongOp) : M World unit :=
  match op with
  | OpSetResolution r => onSong (setResolution r)
  | OpCreateTempoChange ticks bpm => onSong (discard (createTempoChange ticks bpm))
  | OpOverwriteTempoChanges evs => onSong (overwriteTempoChanges evs)
  | OpUpdateTempo i b => onSong (updateTempo i b)
  | OpOverwriteTimeSignatures l => onSong (overwriteTimeSignatures l)
  | OpImportMIDI midi at_ ow => importMIDI midi at_ ow
  | OpSetPluginContext p => setPluginContextInternal p
  | OpClearPluginContext => clearPluginContextInternal
  | OpCreateTrack type index rank => discard (createTrack type index rank)
  | OpRemoveTrack trackId => discard (removeTrack trackId)
  end.

(** A decoded file the importer can be given: a resolution of at least 1,
    no negative tick, positive tempos. *)
Definition valid_midi (midi : Midi) : Prop :=
  1 <= headerPpq midi /\
  Forall (fun t => 0 <= rawTempoTicks t /\ (0 < rawTempoBpm t)%Q) (headerTempos midi).

(** The arguments the data model allows: ticks are not negative, tempos are
    positive, and the resolution is set before any tempo event exists. *)
Definition valid_op (w : World) (op : SongOp) : Prop :=
  match op with
  | OpSetResolution _ => tempos (song w) = []
  | OpCreateTempoChange ticks bpm => 0 <= ticks /\ (0 < bpm)%Q
  | OpOverwriteTempoChanges evs => Forall valid_event evs
  | OpUpdateTempo _ b => (0 < b)%Q
  | OpImportMIDI midi at_ _ => valid_midi midi /\ 0 <= at_
  | _ => True
  end.

(** The states a song goes through: from [new Song()], by these
    operations, whether a call returns or throws. *)
Inductive reachable : World -> Prop :=
| reachable_new (ps : gmap PluginRef TuneflowPlugin) (src : nat -> string) (n : nat) :
    reachable (mkWorld newSong ps src n)
| reachable_step (w : World) (op : SongOp) :
    reachable w -> valid_op w op -> reachable (snd (run_op op w)).

(** The claim of a tempo sequence without two events at one tick. *)
Definition no_duplicate_ticks (s : Song) : Prop :=
  NoDup (map getTicks (tempos s)).

(** The part of the world the timeline engine owns, and the methods that
    leave it alone. *)
Definition timeline (w : World) : list TempoEvent * Z * list TimeSignatureEvent :=
  (tempos (song w), PPQ (song w), timeSignatures (song w)).

Definition frames_of {X A} (proj : World -> X) (m : M World A) : Prop :=
  forall w, proj (snd (m w)) = proj w.

Abbreviation frames := (frames_of timeline).

(** The methods that do not touch the track list. *)
Abbreviation frames_tracks := (frames_of (fun w => tracks (song w))).

(** A method that keeps a property of the world, returning or throwing. *)
Definition keeps {A} (I : World -> Prop) (m : M World A) : Prop :=
  forall w, I w -> I (snd (m w)).

Definition empty_world : World := mkWorld newSong ∅ (fun _ => EmptyString) 0.

(** [new Song()], [setResolution(480)], then two tempo changes at tick 0. *)
Definition two_changes_at_zero : World :=
  snd (run_op (OpCreateTempoChange 0 100)
    (snd (run_op (OpCreateTempoChange 0 120)
      (snd (run_op (OpSetResolution 480) empty_world))))).

(** ** A plugin run

    What a run does to the identifier pool: the host attaches the context
    of the plugin, then the plugin creates its tracks, one call of
    [createTrack] after the other. *)
Record CreateTrackArgs : Type := mkCreateTrackArgs {
  argType : TrackType;
  argIndex : option Z;
  argRank : option Z
}.

Fixpoint createTracks (calls : list CreateTrackArgs) : M World (list Track) :=
  match calls with
  | [] => ret []
  | c :: calls' =>
      let* track := createTrack (argType c) (argIndex c) (argRank c) in
      let* tracks := createTracks calls' in
      ret (track :: tracks)
  end.

Definition plugin_run (p : PluginRef) (calls : list CreateTrackArgs)
  : M World (list Track) :=
  let* _ := setPluginContextInternal p in
  createTracks calls.

(** The pool after the call of [getNextTrackId] number [k] of a run. *)
Definition pool_after (w : World) (pool : list string) (k : nat) : list string :=
  if (k =? length pool)%nat then pool ++ [idSource w (idsMinted w)] else pool.

Definition missing_access_message (id accessName : string) : string :=
  "Plugin " +:+ id +:+ " requires access " +:+ accessName +:+ " in order to run.".

Definition no_context_message : string :=
  "Song needs to be accessed in a plugin context in order to use privileged methods.".

(** ** What the importer hands over, read back *)

Definition receive_all (cs : list TrackCall) (t : Track) : Track :=
  mkTrack (getId t) (getType t) (getRank t) (received t ++ cs).

Definition target_eqb (a b : AutomationTargetType) : bool :=
  match a, b with
  | VOLUME, VOLUME | PAN, PAN => true
  | _, _ => false
  end.

Definition noteTicksOf (c : TrackCall) : option (Z * Z) :=
  match c with
  | CreateNote _ _ startTick endTick => Some (startTick, endTick)
  | _ => None
  end.

Definition pointTickOf (target : AutomationTargetType) (c : TrackCall) : option Z :=
  match c with
  | AddPoint target' tick _ => if target_eqb target target' then Some tick else None
  | _ => None
  end.

(** The start and end ticks of the notes created on a track, and the ticks
    of the points added to one of its automation targets. *)
Definition getNoteTicks (t : Track) : list (Z * Z) := omap noteTicksOf (received t).
Definition getPointTicks (target : AutomationTargetType) (t : Track) : list Z :=
  omap (pointTickOf target) (received t).

(** The rescaling of the specification: a foreign tick [t] of a file of
    resolution [sourceResolution] becomes
    [insertOffset + round (t * destinationResolution / sourceResolution)]. *)
Definition rescaled (destinationResolution sourceResolution insertOffset t : Z) : Z :=
  insertOffset
  + Math_round (inject_Z t * inject_Z destinationResolution
                / inject_Z sourceResolution).

Definition controlChangesOf (track : MidiTrack) (controller : Z)
  : list MidiControlChange :=
  match controlChanges track !! controller with
  | Some ccs => ccs
  | None => []
  end.

(** One imported track carries the foreign ticks of its notes and of its
    volume and pan points through [tick]. *)
Definition carries_ticks (tick : Z -> Z) (track : MidiTrack) (t : Track) : Prop :=
  getNoteTicks t
  = map (fun note => (tick (noteTicks note),
                      tick (noteTicks note + noteDurationTicks note))) (notes track)
  /\ getPointTicks VOLUME t = map (fun cc => tick (ccTicks cc)) (controlChangesOf track 7)
  /\ getPointTicks PAN t = map (fun cc => tick (ccTicks cc)) (controlChangesOf track 10).

(** The calls [importTrack] makes on the track it creates. *)
Definition importedNote (insertOffset : Z) (ppqScaleFactor : Q) (note : MidiNote)
  : TrackCall :=
  CreateNote (noteMidi note) (Math_round (noteVelocity note * 127))
    (insertOffset + scaleIntBy (noteTicks note) ppqScaleFactor)
    (insertOffset + scaleIntBy (noteTicks note + noteDurationTicks note) ppqScaleFactor).

Definition importedPoints (target : AutomationTargetType)
    (ccs : option (list MidiControlChange)) (insertOffset : Z) (ppqScaleFactor : Q)
  : list TrackCall :=
  match ccs with
  | None => []
  | Some ccs =>
      AddAutomation target
      :: map (fun cc =>
                AddPoint target (insertOffset + scaleIntBy (ccTicks cc) ppqScaleFactor)
                  (ccValue cc)) ccs
  end.

Definition importedMinStartTick (insertOffset : Z) (ppqScaleFactor : Q)
    (l : list MidiNote) (start : Z) : Z :=
  fold_left (fun m note =>
               Z.min m (insertOffset + scaleIntBy (noteTicks note) ppqScaleFactor))
    l start.

Definition importedCalls (insertOffset : Z) (ppqScaleFactor : Q) (track : MidiTrack)
  : list TrackCall :=
  [SetInstrument (instrumentNumber track) (instrumentPercussion track);
   CreateMIDIClip insertOffset]
  ++ map (importedNote insertOffset ppqScaleFactor) (notes track)
  ++ importedPoints VOLUME (controlChanges track !! 7) insertOffset ppqScaleFactor
  ++ importedPoints PAN (controlChanges track !! 10) insertOffset ppqScaleFactor
  ++ (let minStartTick :=
        importedMinStartTick insertOffset ppqScaleFactor (notes track) MAX_SAFE_INTEGER in
      if negb (minStartTick =? MAX_SAFE_INTEGER) then [AdjustClipLeft minStartTick]
      else []).

(** The import of [midi] into the song of [w] gave [w']: the song has one
    more track per track of the file, in order, each carrying the foreign
    ticks through [tick]. *)
Definition imports_carry (tick : Z -> Z) (midi : Midi) (w w' : World) : Prop :=
  exists newTracks,
    tracks (song w') = tracks (song w) ++ newTracks /\
    Forall2 (carries_ticks tick) (midiTracks midi) newTracks.

(** ** Sample data *)

Definition sample_ids (n : nat) : string :=
  String (Ascii.ascii_of_nat (97 + n)) EmptyString.

Definition maker_plugin : TuneflowPlugin :=
  mkTuneflowPlugin (Some "acme") (Some "maker")
    (<["createTrack" := true]> (<["removeTrack" := true]> ∅)) [].

Definition viewer_plugin : TuneflowPlugin :=
  mkTuneflowPlugin (Some "acme") (Some "viewer") ∅ [].

(** A song of resolution 960 with the context of [maker_plugin] attached. *)
Definition maker_world : World :=
  mkWorld (mkSong [] 960 [] [] (Some (mkPluginContext 0%nat 0%nat)) 1)
    (<[0%nat := maker_plugin]> ∅) sample_ids 0%nat.

Definition viewer_world : World :=
  mkWorld (mkSong [] 960 [] [] (Some (mkPluginContext 0%nat 0%nat)) 1)
    (<[0%nat := viewer_plugin]> ∅) sample_ids 0%nat.

(** A file of resolution 96 with one note, from tick 48 to tick 96. *)
Definition sample_midi : Midi :=
  mkMidi 96 [] [mkMidiTimeSignature 0 4 4]
    [mkMidiTrack 0 false [mkMidiNote 60 1 48 48] ∅].

Definition two_tracks : list CreateTrackArgs :=
  [mkCreateTrackArgs MIDI_TRACK None None; mkCreateTrackArgs AUDIO_TRACK None None].

(** ** The rest of the song's methods *)

Definition getTracks (s : Song) : list Track := tracks s.

(** [this.tracks] is always an array, so the guard [!this.tracks] of the
    source is never taken; [trackIdSet] is the [Set] built from the ids. *)
Definition getTracksByIds (s : Song) (trackIds : list string) : list Track :=
  let trackIdSet : gset string := list_to_set trackIds in
  List.filter (fun track => bool_decide (getId track ∈ trackIdSet)) (tracks s).

Definition getTimeSignatures (s : Song) : list TimeSignatureEvent := timeSignatures s.

Definition createTimeSignature (ticks numerator denominator : Z)
  : M Song TimeSignatureEvent :=
  let* s := get in
  let timeSignature := mkTimeSignatureEvent ticks numerator denominator in
  let insertIndex :=
    greaterEqual (fun a => tsTicks a - tsTicks timeSignature <? 0) (timeSignatures s) in
  let* _ :=
    if insertIndex <? 0 then
      modify (fun s => set_timeSignatures (timeSignatures s ++ [timeSignature]) s)
    else
      modify (fun s =>
        set_timeSignatures (splice (timeSignatures s) insertIndex 0 [timeSignature]) s) in
  ret timeSignature.

(** [this.getTimeSignatures()[0]] is [undefined] on a song without time
    signature, and the call of its getter throws. *)
Definition getBeatsPerBar (s : Song) : Outcome Z :=
  match getTimeSignatures s !! 0%nat with
  | None => Throw TypeError
  | Some first => Ret (getNumerator first)
  end.

Definition getTicksPerBar (s : Song) : Outcome Z :=
  match getBeatsPerBar s with
  | Ret beats => Ret (beats * getResolution s)
  | Throw e => Throw e
  end.

Definition getTicksPerBeat (s : Song) : Outcome Q :=
  match getTimeSignatures s !! 0%nat with
  | None => Throw TypeError
  | Some first => Ret (inject_Z (getResolution s) * (4 / inject_Z (getDenominator first)))%Q
  end.

(** [getLastTick] and [getDuration] read [track.getTrackEndTick()], a
    method of the Track class, which is not part of the sources at hand:
    it is a parameter. *)
Section TrackEnd.
Variable getTrackEndTick : Track -> Z.

Definition getLastTick (s : Song) : Z :=
  fold_left (fun lastTick track => Z.max lastTick (getTrackEndTick track)) (tracks s) 0.

Definition getDuration (s : Song) : Outcome Q :=
  tickToSeconds s (getLastTick s).
End TrackEnd.

(** The tick and tempo of an event, without its derived time. *)
Definition tick_and_bpm (e : TempoEvent) : Z * Q := (getTicks e, getBpm e).


(** The methods that touch neither the track list nor the next rank. *)
Abbreviation frames_structure :=
  (frames_of (fun w => (tracks (song w), nextTrackRank (song w)))).

(** ** The plugin instance and its parameters (base_plugin.ts) *)

(** A JavaScript value, as far as the plugin code tells values apart:
    [undefined], [null], a primitive (by its printed form), an object
    with its own properties, or a built-in of the runtime (a method of
    [Object.prototype], or that prototype itself), by its name. *)
Inductive JsValue : Type :=
| JsUndefined
| JsNull
| JsPrimitive (shown : string)
| JsObject (fields : list (string * JsValue))
| JsBuiltin (name : string).

(** The value a key is bound to in the properties of an object, the keys
    in the order they were added. *)
Fixpoint assoc {A} (key : string) (l : list (string * A)) : option A :=
  match l with
  | [] => None
  | (k, v) :: l' => if String.eqb k key then Some v else assoc key l'
  end.

(** [v === undefined || v === null] *)
Definition is_nullish (v : JsValue) : bool :=
  match v with
  | JsUndefined | JsNull => true
  | _ => false
  end.

(** [v.name], for a value that is neither [undefined] nor [null] and for
    the names [hasAllParamsSet] reads ([track], [pitch], [program],
    [isDrum]): no prototype of the language defines one of these, so the
    read finds an own property of an object or nothing. *)
Definition getProperty (v : JsValue) (name : string) : JsValue :=
  match v with
  | JsObject fields =>
      match assoc name fields with
      | Some x => x
      | None => JsUndefined
      end
  | _ => JsUndefined
  end.

(** Modelled from the spec: the enumeration WidgetType and the type
    ParamDescriptor are declared in files that are not part of the sources
    at hand. The members are those [hasAllParamsSet] names, and [Other]
    for any further member, with the form it has when printed; of a
    descriptor the plugin reads [widget.type] and [defaultValue]. *)
Module WidgetType.
Inductive t : Type :=
| Input
| Pitch
| Slider
| TrackSelector
| Select
| Switch
| TrackPitchSelector
| InstrumentSelector
| Other (shown : string).
End WidgetType.

Record ParamDescriptor : Type := mkParamDescriptor {
  widgetType : WidgetType.t;
  defaultValue : JsValue
}.

(** A plugin instance with its parameters: [params] is the object the
    method [params()] returns, its keys in the order [_.keys] lists them;
    [pluginOf] holds what the song reads of the instance. The object
    handed to [setParamsInternal] is held by value: that the caller's
    object is the one [resetParamsInternal] writes to is not modelled. *)
Record PluginInstance : Type := mkPluginInstance {
  pluginOf : TuneflowPlugin;
  params : list (string * ParamDescriptor);
  enabledInternal : bool;
  paramsResultInternal : gmap string JsValue
}.

Definition set_enabledInternal (b : bool) (p : PluginInstance) : PluginInstance :=
  mkPluginInstance (pluginOf p) (params p) b (paramsResultInternal p).
Definition set_paramsResultInternal (f : gmap string JsValue -> gmap string JsValue)
    (p : PluginInstance) : PluginInstance :=
  mkPluginInstance (pluginOf p) (params p) (enabledInternal p)
    (f (paramsResultInternal p)).

(** [_.keys(this.params())] *)
Definition paramNames (p : PluginInstance) : list string := map fst (params p).

(** The properties a plain object inherits from [Object.prototype]. *)
Definition object_prototype_names : list string :=
  ["constructor"; "__defineGetter__"; "__defineSetter__"; "hasOwnProperty";
   "__lookupGetter__"; "__lookupSetter__"; "isPrototypeOf"; "propertyIsEnumerable";
   "toString"; "valueOf"; "__proto__"; "toLocaleString"].

Definition inherited (name : string) : bool :=
  existsb (String.eqb name) object_prototype_names.

(** [this.paramsResultInternal[paramName]], the parameter values being a
    plain object ([{}] at first, then what the host hands over): a
    property read finds the object's own property or, failing that, the
    one of [Object.prototype], and gives [undefined] when there is none. *)
Definition paramResultOf (results : gmap string JsValue) (paramName : string) : JsValue :=
  match results !! paramName with
  | Some v => v
  | None => if inherited paramName then JsBuiltin paramName else JsUndefined
  end.

Definition unknown_widget_message (shown : string) : string :=
  "Param nullness check needs to be implemented for widget type " +:+ shown
  +:+ ". Either use default nullness check or define custom logic.".

Fixpoint hasAllParamsSet_loop (p : PluginInstance) (names : list string) : Outcome bool :=
  match names with
  | [] => Ret true
  | paramName :: rest =>
      let paramResult := paramResultOf (paramsResultInternal p) paramName in
      if is_nullish paramResult then Ret false
      else
        match assoc paramName (params p) with
        | None => Throw TypeError
        | Some paramDescriptor =>
            match widgetType paramDescriptor with
            | WidgetType.Input | WidgetType.Pitch | WidgetType.Slider
            | WidgetType.TrackSelector | WidgetType.Select | WidgetType.Switch =>
                hasAllParamsSet_loop p rest
            | WidgetType.TrackPitchSelector =>
                if is_nullish (getProperty paramResult "track")
                   || is_nullish (getProperty paramResult "pitch")
                then Ret false
                else hasAllParamsSet_loop p rest
            | WidgetType.InstrumentSelector =>
                if is_nullish (getProperty paramResult "program")
                   || is_nullish (getProperty paramResult "isDrum")
                then Ret false
                else hasAllParamsSet_loop p rest
            | WidgetType.Other shown => Throw (Error (unknown_widget_message shown))
            end
        end
  end.

Definition hasAllParamsSet (p : PluginInstance) : Outcome bool :=
  hasAllParamsSet_loop p (paramNames p).

Definition shouldManualEnableInternal (p : PluginInstance) : bool :=
  truthy (songAccess (pluginOf p) !! "createTrack")
  || truthy (songAccess (pluginOf p) !! "removeTrack").

Definition setEnabledInternal (enabled : bool) : M PluginInstance unit :=
  modify (set_enabledInternal enabled).

Definition maybeSyncEnabledWithParamsReadiness : M PluginInstance unit :=
  let* p := get in
  if shouldManualEnableInternal p then
    let* allSet := lift (hasAllParamsSet p) in
    if negb allSet then setEnabledInternal false else ret tt
  else ret tt.


Definition getParamsInternal (p : PluginInstance) : gmap string JsValue :=
  paramsResultInternal p.

Definition resetParamsInternal : M PluginInstance unit :=
  let* p := get in
  let* _ :=
    for_each (paramNames p) (fun key =>
      match assoc key (params p) with
      | None => throw TypeError
      | Some paramDescriptor =>
          modify (set_paramsResultInternal (insert key (defaultValue paramDescriptor)))
      end) in
  maybeSyncEnabledWithParamsReadiness.

Definition resetInternal : M PluginInstance unit :=
  let* _ := resetParamsInternal in
  let* p := get in
  if shouldManualEnableInternal p then modify (set_enabledInternal false)
  else ret tt.

(** A parameter that reads as set: the read of its name on the parameter
    values, own or inherited, gives neither [undefined] nor [null], and a
    value with both parts for the two widgets whose value is an object. *)
Definition param_is_set (results : gmap string JsValue)
    (param : string * ParamDescriptor) : bool :=
  let v := paramResultOf results (fst param) in
  negb (is_nullish v)
  && match widgetType (snd param) with
     | WidgetType.TrackPitchSelector =>
         negb (is_nullish (getProperty v "track"))
         && negb (is_nullish (getProperty v "pitch"))
     | WidgetType.InstrumentSelector =>
         negb (is_nullish (getProperty v "program"))
         && negb (is_nullish (getProperty v "isDrum"))
     | _ => true
     end.

Definition known_widget (param : string * ParamDescriptor) : Prop :=
  forall shown, widgetType (snd param) <> WidgetType.Other shown.

Definition sample_instance : PluginInstance :=
  mkPluginInstance maker_plugin
    [("pitch", mkParamDescriptor WidgetType.Pitch (JsPrimitive "60"));
     ("target", mkParamDescriptor WidgetType.TrackPitchSelector JsUndefined)]
    true ∅.

(** The definitions of [createTrack_outcome]. *)
Definition rank_given (rank : option Z) (s : Song) : Z :=
  match rank with Some r => r | None => nextTrackRank s end.

Definition next_rank_after (rank : option Z) (s : Song) : Z :=
  match rank with
  | Some r => Z.max (r + 1) (nextTrackRank s)
  | None => nextTrackRank s + 1
  end.

Definition tracks_with (index : option Z) (track : Track) (l : list Track) : list Track :=
  match index with
  | Some i => splice l i 0 [track]
  | None => l ++ [track]
  end.

(** ** Assertions on notes (test utilities) *)

Definition newline : string := String (Ascii.ascii_of_nat 10) EmptyString.

(** Modelled from the spec: the class Note is declared in a file that is
    not part of the sources at hand, and [stringify] comes from a library;
    the assertion is modelled over any type of notes with its [equals]
    and any [stringify]. *)
Section NoteAssertions.
Context {Note : Type}.
Variable equals : Note -> Note -> bool.
Variable stringify : Note -> string.

Definition length_message (n1 n2 : nat) : string :=
  "Notes are not of equal length, " +:+ pretty n1 +:+ " vs " +:+ pretty n2.

Definition note_message (i : nat) (x y : Note) : string :=
  pretty i +:+ "th notes of the two lists are not equal, " +:+ newline
  +:+ stringify x +:+ newline +:+ " vs " +:+ newline +:+ stringify y.

(** The loop from index [i] on, over what is left of the two arrays. *)
Fixpoint assertNotes_loop (i : nat) (notes1 notes2 : list Note) : Outcome unit :=
  match notes1, notes2 with
  | x :: rest1, y :: rest2 =>
      if negb (equals x y) then Throw (Error (note_message i x y))
      else assertNotes_loop (S i) rest1 rest2
  | _, _ => Ret tt
  end.

Definition assertNotesAreEqual (notes1 notes2 : list Note) : Outcome unit :=
  if negb (length notes1 =? length notes2)%nat
  then Throw (Error (length_message (length notes1) (length notes2)))
  else assertNotes_loop 0 notes1 notes2.
End NoteAssertions.


(** An instance with a parameter named like a method every object
    inherits, and no value given. *)
Definition inherited_name_instance : PluginInstance :=
  mkPluginInstance maker_plugin
    [("constructor", mkParamDescriptor WidgetType.Input (JsPrimitive "x"))]
    true ∅.

(** An instance with a parameter whose widget [hasAllParamsSet] does not
    know. *)
Definition sample_unknown_instance : PluginInstance :=
  mkPluginInstance maker_plugin
    [("pitch", mkParamDescriptor WidgetType.Pitch (JsPrimitive "60"));
     ("notes", mkParamDescriptor (WidgetType.Other "9") JsNull)]
    true (<["pitch" := JsPrimitive "62"]> (<["notes" := JsPrimitive "abc"]> ∅)).

(** ** More sample data *)

(** The world of [maker_world] after the plugin created three tracks. *)
Definition three_tracks_world : World :=
  mkWorld
    (mkSong [mkTrack "a" MIDI_TRACK 1 []; mkTrack "b" AUDIO_TRACK 2 [];
             mkTrack "c" MIDI_TRACK 3 []]
       960 [] [] (Some (mkPluginContext 0%nat 3%nat)) 4)
    (<[0%nat := set_generatedTrackIdsInternal ["a"; "b"; "c"] maker_plugin]> ∅)
    sample_ids 3%nat.

(** A song of resolution 480 at 120 BPM that slows down to 60 BPM at tick
    960, one second in. *)
Definition two_tempo_song : Song :=
  mkSong [] 480 [mkTempoEvent 0 120 0; mkTempoEvent 960 60 (57600 # 57600)] [] None 1.

(** A song with a time signature at tick 0 and one at tick 960. *)
Definition two_signatures_song : Song :=
  mkSong [] 480 [] [mkTimeSignatureEvent 0 4 4; mkTimeSignatureEvent 960 3 4] None 1.


(** The 'missing capability' error of the specification: one that names a
    plugin id and the capability. *)
Definition missing_capability_error (accessName : string) (e : Exn) : Prop :=
  exists id, e = Error (missing_access_message id accessName).

(** A plugin of the base class itself, which declares no capability and
    keeps the base [providerId] and [pluginId], and a song under its
    context. *)
Definition base_plugin : TuneflowPlugin := mkTuneflowPlugin None None ∅ [].

Definition base_world : World :=
  mkWorld (mkSong [] 960 [] [] (Some (mkPluginContext 0%nat 0%nat)) 1)
    (<[0%nat := base_plugin]> ∅) sample_ids 0%nat.

(** * Properties *)

(** ** The monad *)

Ltac unfold_monad :=
  cbv beta iota zeta delta [bind ret throw get modify lift].

Lemma halve (l h : Z) : l <= h -> l <= Z.shiftr (l + h) 1 <= h.
Proof.
  intros Hlh. rewrite Z.shiftr_div_pow2 by lia.
  change (2 ^ 1) with 2. split.
  - apply Z.div_le_lower_bound; lia.
  - apply Z.div_le_upper_bound; lia.
Qed.

(** ** Binary search on a partitioned array

    When the items below the probe come first, [lt] finds the last of them
    and [ge] the one after it. *)
Section BoundsSpec.
Context {A : Type} (below : A -> bool) (a1 a2 : list A).
Hypothesis Hbelow : Forall (fun x => below x = true) a1.
Hypothesis Hnot_below : Forall (fun x => below x = false) a2.

Let k : Z := Z.of_nat (length a1).
Let n : Z := Z.of_nat (length (a1 ++ a2)).

Lemma probe_below (m : Z) :
  0 <= m < k -> exists x, (a1 ++ a2) !! Z.to_nat m = Some x /\ below x = true.
Proof.
  intros Hm. subst k.
  destruct (lookup_lt_is_Some_2 a1 (Z.to_nat m)) as [x Hx]; [lia|].
  exists x. split.
  - rewrite lookup_app_l; [exact Hx | lia].
  - exact (proj1 (Forall_lookup _ _) Hbelow _ _ Hx).
Qed.

Lemma probe_not_below (m : Z) :
  k <= m < n -> exists x, (a1 ++ a2) !! Z.to_nat m = Some x /\ below x = false.
Proof.
  intros Hm. subst k n. rewrite length_app in Hm.
  destruct (lookup_lt_is_Some_2 a2 (Z.to_nat m - length a1)) as [x Hx]; [lia|].
  exists x. split.
  - rewrite lookup_app_r; [exact Hx | lia].
  - exact (proj1 (Forall_lookup _ _) Hnot_below _ _ Hx).
Qed.

Lemma lt_loop_spec (fuel : nat) (l h : Z) :
  0 <= l -> h < n -> l <= k -> k - 1 <= h -> h - l + 1 <= Z.of_nat fuel ->
  lt_loop below (a1 ++ a2) fuel l h (l - 1) = k - 1.
Proof.
  revert l h. induction fuel as [|fuel IH]; intros l h Hl Hh Hlk Hkh Hfuel.
  - simpl. lia.
  - simpl. destruct (Z.leb_spec l h) as [Hlh|Hlh]; [|lia].
    pose proof (halve l h Hlh) as Hm.
    set (m := Z.shiftr (l + h) 1) in *.
    destruct (Z_lt_le_dec m k) as [Hmk|Hmk].
    + destruct (probe_below m) as (x & -> & ->); [lia|].
      replace m with (m + 1 - 1) at 2 by lia.
      apply IH; lia.
    + destruct (probe_not_below m) as (x & -> & ->); [lia|].
      apply IH; lia.
Qed.

Lemma ge_loop_spec (fuel : nat) (l h : Z) :
  0 <= l -> h < n -> l <= k -> k - 1 <= h -> h - l + 1 <= Z.of_nat fuel ->
  ge_loop below (a1 ++ a2) fuel l h (h + 1) = k.
Proof.
  revert l h. induction fuel as [|fuel IH]; intros l h Hl Hh Hlk Hkh Hfuel.
  - simpl. lia.
  - simpl. destruct (Z.leb_spec l h) as [Hlh|Hlh]; [|lia].
    pose proof (halve l h Hlh) as Hm.
    set (m := Z.shiftr (l + h) 1) in *.
    destruct (Z_lt_le_dec m k) as [Hmk|Hmk].
    + destruct (probe_below m) as (x & -> & ->); [lia|].
      simpl. apply IH; lia.
    + destruct (probe_not_below m) as (x & -> & ->); [lia|].
      simpl. replace m with (m - 1 + 1) at 2 by lia.
      apply IH; lia.
Qed.

Lemma lowerThan_partition :
  lowerThan below (a1 ++ a2) = Z.of_nat (length a1) - 1.
Proof.
  unfold lowerThan. apply lt_loop_spec; subst k n; rewrite ?length_app; lia.
Qed.

Lemma greaterEqual_partition :
  greaterEqual below (a1 ++ a2) = Z.of_nat (length a1).
Proof.
  unfold greaterEqual. cbv zeta.
  apply ge_loop_spec; subst k n; rewrite ?length_app; lia.
Qed.
End BoundsSpec.

(** ** The stable sort *)
Section SortSpec.
Context {A : Type} (key : A -> Z).

Lemma sorted_by_app (l1 l2 : list A) :
  sorted_by key (l1 ++ l2) <->
  sorted_by key l1 /\ sorted_by key l2 /\
  Forall (fun a => Forall (fun b => key a <= key b) l2) l1.
Proof.
  unfold sorted_by. induction l1 as [|x l1 IH]; simpl.
  - split; [intros H; repeat split; auto; constructor | tauto].
  - split.
    + intros H. apply StronglySorted_inv in H as [Hs Hx].
      apply IH in Hs as (H1 & H2 & H12).
      apply Forall_app in Hx as [Hx1 Hx2].
      repeat split; auto. constructor; auto.
    + intros (H1 & H2 & H12).
      apply StronglySorted_inv in H1 as [H1 Hx1].
      apply Forall_cons in H12 as [Hx2 H12].
      constructor; [apply IH; auto | apply Forall_app; auto].
Qed.

Lemma sort_insert_last (x : A) (l : list A) :
  Forall (fun y => key y <= key x) l -> sort_insert key x l = l ++ [x].
Proof.
  induction 1 as [|y l Hy _ IH]; simpl; [reflexivity|].
  destruct (Z.leb_spec (key y) (key x)); [|lia]. now rewrite IH.
Qed.

Lemma sort_fold_sorted (l acc : list A) :
  sorted_by key (acc ++ l) ->
  fold_left (fun acc x => sort_insert key x acc) l acc = acc ++ l.
Proof.
  revert acc. induction l as [|x l IH]; intros acc Hs; simpl.
  - now rewrite app_nil_r.
  - rewrite sort_insert_last.
    + rewrite IH; rewrite <- app_assoc; [reflexivity | exact Hs].
    + apply sorted_by_app in Hs as (_ & _ & H).
      eapply Forall_impl; [exact H|]. intros a Ha. simpl in Ha.
      now apply Forall_cons in Ha as [Ha _].
Qed.

(** Sorting a sorted array leaves it as it is. *)
Lemma sort_by_sorted (l : list A) : sorted_by key l -> sort_by key l = l.
Proof. intros Hs. unfold sort_by. now rewrite sort_fold_sorted. Qed.

Lemma sort_insert_perm (x : A) (l : list A) : sort_insert key x l ≡ₚ x :: l.
Proof.
  induction l as [|y l IH]; simpl; [reflexivity|].
  destruct (key y <=? key x); [|reflexivity].
  rewrite IH. apply Permutation_swap.
Qed.

Lemma sort_fold_perm (l acc : list A) :
  fold_left (fun acc x => sort_insert key x acc) l acc ≡ₚ acc ++ l.
Proof.
  revert acc. induction l as [|x l IH]; intros acc; simpl.
  - now rewrite app_nil_r.
  - rewrite IH, sort_insert_perm. apply Permutation_middle.
Qed.

Lemma sort_by_perm (l : list A) : sort_by key l ≡ₚ l.
Proof. unfold sort_by. now rewrite sort_fold_perm. Qed.

Lemma sort_insert_sorted (x : A) (l : list A) :
  sorted_by key l -> sorted_by key (sort_insert key x l).
Proof.
  unfold sorted_by. induction 1 as [|y l Hs IH Hy]; simpl.
  - repeat constructor.
  - destruct (Z.leb_spec (key y) (key x)) as [Hle|Hlt].
    + constructor; [exact IH|].
      rewrite sort_insert_perm. constructor; [exact Hle | exact Hy].
    + constructor; [constructor; assumption|].
      constructor; [lia|]. eapply Forall_impl; [exact Hy|]. simpl. lia.
Qed.

Lemma sort_by_is_sorted (l : list A) : sorted_by key (sort_by key l).
Proof.
  unfold sort_by. assert (H : sorted_by key []) by constructor.
  revert H. generalize (@nil A). induction l as [|x l IH]; intros acc Hacc; simpl.
  - exact Hacc.
  - apply IH, sort_insert_sorted, Hacc.
Qed.
End SortSpec.

(** ** The base event of a tick *)

Lemma before_from (t : Z) (l : list TempoEvent) : before t l ++ from t l = l.
Proof.
  unfold from. induction l as [|e l IH]; simpl; [reflexivity|].
  destruct (getTicks e <? t); simpl; [now rewrite IH | reflexivity].
Qed.

Lemma before_below (t : Z) (l : list TempoEvent) :
  Forall (fun e => getTicks e < t) (before t l).
Proof.
  induction l as [|e l IH]; simpl; [constructor|].
  destruct (Z.ltb_spec (getTicks e) t); constructor; assumption.
Qed.

Lemma from_not_below (t : Z) (l : list TempoEvent) :
  sorted l -> Forall (fun e => t <= getTicks e) (from t l).
Proof.
  unfold from. induction 1 as [|e l Hs IH He]; simpl; [constructor|].
  destruct (Z.ltb_spec (getTicks e) t); simpl; [exact IH|].
  constructor; [assumption|].
  eapply Forall_impl; [exact He|]. simpl. lia.
Qed.

Lemma before_app_ge (t : Z) (l x : list TempoEvent) :
  Forall (fun e => t <= getTicks e) x -> before t (l ++ x) = before t l.
Proof.
  intros Hx. induction l as [|e l IH]; simpl.
  - destruct Hx as [|e x He _]; simpl; [reflexivity|].
    destruct (Z.ltb_spec (getTicks e) t); [lia | reflexivity].
  - now rewrite IH.
Qed.

Lemma before_all (t : Z) (l : list TempoEvent) :
  Forall (fun e => getTicks e < t) l -> before t l = l.
Proof.
  induction 1 as [|e l He _ IH]; simpl; [reflexivity|].
  destruct (Z.ltb_spec (getTicks e) t); [now rewrite IH | lia].
Qed.

Lemma base_app_ge (t : Z) (l x : list TempoEvent) :
  l <> [] -> Forall (fun e => t <= getTicks e) x -> base t (l ++ x) = base t l.
Proof.
  intros Hl Hx. unfold base. rewrite before_app_ge by assumption.
  destruct l; [congruence | reflexivity].
Qed.

Lemma lowerThan_ticks (t : Z) (l : list TempoEvent) :
  sorted l ->
  lowerThan (fun a => getTicks a - t <? 0) l = Z.of_nat (length (before t l)) - 1.
Proof.
  intros Hs. rewrite <- (before_from t l) at 1.
  apply lowerThan_partition.
  - eapply Forall_impl; [apply before_below|]. simpl. intros e He.
    apply Z.ltb_lt. lia.
  - eapply Forall_impl; [apply from_not_below, Hs|]. simpl. intros e He.
    apply Z.ltb_ge. lia.
Qed.

Lemma greaterEqual_ticks (t : Z) (l : list TempoEvent) :
  sorted l ->
  greaterEqual (fun a => getTicks a - t <? 0) l = Z.of_nat (length (before t l)).
Proof.
  intros Hs. rewrite <- (before_from t l) at 1.
  apply greaterEqual_partition.
  - eapply Forall_impl; [apply before_below|]. simpl. intros e He.
    apply Z.ltb_lt. lia.
  - eapply Forall_impl; [apply from_not_below, Hs|]. simpl. intros e He.
    apply Z.ltb_ge. lia.
Qed.

Lemma base_lookup (t : Z) (l : list TempoEvent) :
  let i := Z.of_nat (length (before t l)) - 1 in
  l !! Z.to_nat (if i =? -1 then 0 else i) = base t l.
Proof.
  intros i. subst i. unfold base.
  destruct (before t l) as [|b bs] eqn:Hb using rev_ind.
  - simpl. now destruct l.
  - clear IHbs. rewrite last_snoc, length_app. simpl.
    destruct (Z.eqb_spec (Z.of_nat (length bs + 1) - 1) (-1)); [lia|].
    rewrite <- (before_from t l), Hb.
    rewrite lookup_app_l by (rewrite length_app; simpl; lia).
    replace (Z.to_nat (Z.of_nat (length bs + 1) - 1)) with (length bs) by lia.
    now rewrite list_lookup_middle.
Qed.

Lemma tickToSecondsImpl_sorted (t : Z) (l : list TempoEvent) (resolution : Z) :
  sorted l -> tickToSecondsImpl t l resolution = time_at t l resolution.
Proof.
  intros Hs. unfold tickToSecondsImpl, time_at.
  destruct (t =? 0); [reflexivity|].
  rewrite lowerThan_ticks by assumption.
  now rewrite base_lookup.
Qed.

(** ** Re-derivation of the times *)

Lemma sorted_by_map {A} (key : A -> Z) (l : list A) :
  sorted_by key l <-> StronglySorted Z.le (map key l).
Proof.
  unfold sorted_by. induction l as [|x l IH]; simpl.
  - split; constructor.
  - split; intros H; apply StronglySorted_inv in H as [Hs Hx]; constructor;
      try (apply IH; assumption).
    + apply List.Forall_map. exact Hx.
    + exact (proj1 (List.Forall_map _ _ _) Hx).
Qed.

Lemma same_event_ticks (l l' : list TempoEvent) :
  Forall2 same_event l l' -> map getTicks l = map getTicks l'.
Proof. induction 1 as [|a b l l' [Ht _] _ IH]; simpl; congruence. Qed.

Lemma same_event_sorted (l l' : list TempoEvent) :
  Forall2 same_event l l' -> sorted l -> sorted l'.
Proof.
  intros H Hs. apply sorted_by_map. rewrite <- (same_event_ticks _ _ H).
  exact (proj1 (sorted_by_map _ _) Hs).
Qed.

Lemma same_event_start (l l' : list TempoEvent) :
  Forall2 same_event l l' -> starts_at_zero l -> starts_at_zero l'.
Proof. destruct 1 as [|a b l l' [Ht _] _]; simpl; congruence. Qed.

Lemma same_event_bpm (l l' : list TempoEvent) :
  Forall2 same_event l l' ->
  Forall (fun e => (0 < getBpm e)%Q) l -> Forall (fun e => (0 < getBpm e)%Q) l'.
Proof.
  induction 1 as [|a b l l' [_ Hb] _ IH]; intros Hl; [constructor|].
  apply Forall_cons in Hl as [Ha Hl]. constructor; [now rewrite <- Hb | auto].
Qed.

Lemma same_event_refl (l : list TempoEvent) : Forall2 same_event l l.
Proof. induction l; constructor; [split; reflexivity | assumption]. Qed.

Lemma base_nonempty (t : Z) (l : list TempoEvent) :
  l <> [] -> exists b, base t l = Some b.
Proof.
  intros Hl. unfold base. destruct (last (before t l)); [eauto|].
  destruct l; [congruence | simpl; eauto].
Qed.

Lemma time_at_total (t : Z) (l : list TempoEvent) (resolution : Z) :
  t = 0 \/ l <> [] -> exists q, time_at t l resolution = Ret q.
Proof.
  intros H. unfold time_at. destruct (Z.eqb_spec t 0); [eauto|].
  destruct H as [H|H]; [lia|].
  destruct (base_nonempty t l H) as [b ->]. eauto.
Qed.

Lemma time_at_app_ge (t : Z) (l x : list TempoEvent) (resolution : Z) :
  t = 0 \/ l <> [] -> Forall (fun e => t <= getTicks e) x ->
  time_at t (l ++ x) resolution = time_at t l resolution.
Proof.
  intros H Hx. unfold time_at. destruct (Z.eqb_spec t 0); [reflexivity|].
  destruct H as [H|H]; [lia|]. now rewrite base_app_ge.
Qed.

Lemma sorted_tail_ge (l1 l2 : list TempoEvent) (x : TempoEvent) :
  sorted (l1 ++ l2) -> x ∈ l1 -> Forall (fun e => getTicks x <= getTicks e) l2.
Proof.
  intros Hs Hx. apply sorted_by_app in Hs as (_ & _ & H).
  exact (proj1 (Forall_forall _ _) H x Hx).
Qed.

Lemma retime_loop_spec (resolution : Z) (todo done : list TempoEvent) :
  sorted (done ++ todo) -> starts_at_zero (done ++ todo) ->
  Forall (fun x => time_at (getTicks x) done resolution = Ret (getTime x)) done ->
  exists todo',
    retime_loop resolution done todo = (Ret tt, done ++ todo') /\
    Forall2 same_event todo todo' /\
    Forall (fun x => time_at (getTicks x) (done ++ todo') resolution = Ret (getTime x))
      (done ++ todo').
Proof.
  revert done. induction todo as [|e rest IH]; intros done Hs H0 Hdone.
  - exists []. rewrite app_nil_r. simpl. repeat split; [constructor | exact Hdone].
  - assert (Hc : getTicks e = 0 \/ done <> []).
    { destruct done; [left; exact H0 | right; discriminate]. }
    assert (Hge : Forall (fun x => getTicks e <= getTicks x) (e :: rest)).
    { apply sorted_by_app in Hs as (_ & Hs & _).
      apply StronglySorted_inv in Hs as [_ Hs]. constructor; [lia | exact Hs]. }
    simpl. rewrite tickToSecondsImpl_sorted by assumption.
    rewrite time_at_app_ge by assumption.
    destruct (time_at_total (getTicks e) done resolution Hc) as [t Ht].
    rewrite Ht. set (e' := setTimeInternal e t).
    assert (Hsame : Forall2 same_event (done ++ e :: rest) ((done ++ [e']) ++ rest)).
    { rewrite <- app_assoc. apply Forall2_app; [apply same_event_refl|].
      constructor; [split; reflexivity | apply same_event_refl]. }
    destruct (IH (done ++ [e'])) as (todo' & Hrun & Hsame' & Htimed).
    + eapply same_event_sorted; eassumption.
    + eapply same_event_start; eassumption.
    + apply Forall_app. split.
      * apply Forall_forall. intros x Hx.
        rewrite time_at_app_ge.
        -- exact (proj1 (Forall_forall _ _) Hdone x Hx).
        -- right. intros ->. inversion Hx.
        -- constructor; [|constructor].
           pose proof (sorted_tail_ge _ _ _ Hs Hx) as Hxe.
           now apply Forall_cons in Hxe as [Hxe _].
      * constructor; [|constructor]. simpl.
        rewrite time_at_app_ge; [exact Ht | exact Hc |].
        constructor; [simpl; lia | constructor].
    + exists (e' :: todo'). rewrite Hrun.
      rewrite <- app_assoc in *. simpl in *. repeat split.
      * constructor; [split; reflexivity | exact Hsame'].
      * exact Htimed.
Qed.

(** ** The search stays inside the array, whatever the array *)

Lemma lt_loop_range {A} (below : A -> bool) (a : list A) (fuel : nat) (l h i : Z) :
  -1 <= i < Z.of_nat (length a) \/ (i = -1 /\ a = []) ->
  0 <= l -> h < Z.of_nat (length a) ->
  let r := lt_loop below a fuel l h i in
  -1 <= r < Z.of_nat (length a) \/ (r = -1 /\ a = []).
Proof.
  revert l h i. induction fuel as [|fuel IH]; intros l h i Hi Hl Hh; simpl.
  - exact Hi.
  - destruct (Z.leb_spec l h) as [Hlh|Hlh]; [|exact Hi].
    pose proof (halve l h Hlh) as Hm.
    destruct (a !! Z.to_nat (Z.shiftr (l + h) 1)); [|exact Hi].
    destruct (below a0); apply IH; lia || exact Hi.
Qed.

Lemma lowerThan_range {A} (below : A -> bool) (a : list A) :
  a <> [] -> -1 <= lowerThan below a < Z.of_nat (length a).
Proof.
  intros Ha. unfold lowerThan.
  assert (Hlen : 0 < Z.of_nat (length a)) by (destruct a; [congruence | simpl; lia]).
  assert (H : -1 <= 0 - 1 < Z.of_nat (length a) \/ (0 - 1 = -1 /\ a = [])) by lia.
  apply (lt_loop_range below a (length a) 0 (Z.of_nat (length a) - 1)) in H; [|lia..].
  cbv zeta in H. destruct H as [H|[_ H]]; [exact H | congruence].
Qed.

Lemma lookup_base_index {A} (a : list A) (i : Z) :
  a <> [] -> -1 <= i < Z.of_nat (length a) ->
  exists x, a !! Z.to_nat (if i =? -1 then 0 else i) = Some x.
Proof.
  intros Ha Hi. apply lookup_lt_is_Some_2.
  destruct (Z.eqb_spec i (-1)); [|lia].
  destruct a; [congruence | simpl; lia].
Qed.

Lemma tickToSecondsImpl_total (t : Z) (l : list TempoEvent) (resolution : Z) :
  t = 0 \/ l <> [] -> exists q, tickToSecondsImpl t l resolution = Ret q.
Proof.
  intros H. unfold tickToSecondsImpl. destruct (Z.eqb_spec t 0); [eauto|].
  destruct H as [H|H]; [lia|].
  destruct (lookup_base_index l _ H
              (lowerThan_range (fun a => getTicks a - t <? 0) l H)) as [b ->].
  eauto.
Qed.

Lemma retime_loop_ret (resolution : Z) (todo done : list TempoEvent) :
  exists l', retime_loop resolution done todo = (Ret tt, l') /\
             length l' = length (done ++ todo).
Proof.
  revert done. induction todo as [|e rest IH]; intros done; simpl.
  - exists done. now rewrite app_nil_r.
  - destruct (tickToSecondsImpl_total (getTicks e) (done ++ e :: rest) resolution)
      as [t ->].
    { right. now destruct done. }
    destruct (IH (done ++ [setTimeInternal e t])) as (l' & -> & Hlen).
    exists l'. split; [reflexivity|].
    rewrite Hlen, !length_app. simpl. lia.
Qed.

Lemma retimingTempoEvents_run (s : Song) :
  exists l', retime_loop (PPQ s) [] (sort_by getTicks (tempos s)) = (Ret tt, l') /\
             retimingTempoEvents s = (Ret tt, set_tempos (fun _ => l') s).
Proof.
  destruct (retime_loop_ret (PPQ s) (sort_by getTicks (tempos s)) []) as (l' & Hl' & _).
  exists l'. split; [exact Hl'|].
  unfold retimingTempoEvents. unfold_monad. unfold getResolution.
  simpl. now rewrite Hl'.
Qed.

(** What a call of [createTempoChange] that passes its two guards does. *)
Lemma createTempoChange_run (ticks : Z) (bpm : Q) (s : Song) :
  0 < PPQ s -> tempos s <> [] \/ ticks = 0 ->
  exists t l',
    tickToSeconds s ticks = Ret t /\
    retime_loop (PPQ s) []
      (sort_by getTicks (inserted (mkTempoEvent ticks bpm t) (tempos s))) = (Ret tt, l') /\
    createTempoChange ticks bpm s
    = (Ret (mkTempoEvent ticks bpm t), set_tempos (fun _ => l') s).
Proof.
  intros HR Hg.
  destruct (tickToSecondsImpl_total ticks (tempos s) (PPQ s)) as [t Ht]; [tauto|].
  assert (Hguard : (length (tempos s) =? 0)%nat && negb (ticks =? 0) = false).
  { destruct Hg as [Hg| ->]; [|now rewrite andb_false_r].
    destruct (tempos s); [congruence | reflexivity]. }
  exists t. unfold inserted, createTempoChange. unfold_monad.
  destruct (Z.leb_spec (PPQ s) 0); [lia|].
  rewrite Hguard. unfold tickToSeconds, getTempoChanges, getResolution.
  rewrite Ht. unfold_monad.
  match goal with
  | |- context [if ?c then _ else _] => destruct c
  end; unfold_monad;
  match goal with
  | |- context [retimingTempoEvents ?s1] =>
      destruct (retimingTempoEvents_run s1) as (l' & Hl' & ->)
  end; exists l'; (split; [reflexivity|]); (split; [exact Hl' | reflexivity]).
Qed.
(** ** Insertion into a sorted sequence *)

Lemma splice_insert {A} (l1 l2 : list A) (x : A) :
  splice (l1 ++ l2) (Z.of_nat (length l1)) 0 [x] = l1 ++ x :: l2.
Proof.
  unfold splice, splice_start. rewrite length_app.
  destruct (Z.ltb_spec (Z.of_nat (length l1)) 0); [lia|].
  replace (Z.to_nat (Z.min _ _)) with (length l1) by lia.
  rewrite Nat.add_0_r, take_app_length, drop_app_length. reflexivity.
Qed.

Lemma inserted_sorted (new : TempoEvent) (l : list TempoEvent) :
  sorted l ->
  inserted new l = before (getTicks new) l ++ new :: from (getTicks new) l.
Proof.
  intros Hs. unfold inserted. cbv zeta.
  rewrite greaterEqual_ticks by assumption.
  destruct (Z.ltb_spec (Z.of_nat (length (before (getTicks new) l))) 0); [lia|].
  rewrite <- (before_from (getTicks new) l) at 1.
  apply splice_insert.
Qed.

Lemma insertion_sorted (new : TempoEvent) (l : list TempoEvent) :
  sorted l -> sorted (before (getTicks new) l ++ new :: from (getTicks new) l).
Proof.
  intros Hs. pose proof (from_not_below (getTicks new) l Hs) as Hfrom.
  pose proof (before_below (getTicks new) l) as Hbefore.
  rewrite <- (before_from (getTicks new) l) in Hs.
  apply sorted_by_app in Hs as (H1 & H2 & H12).
  apply sorted_by_app. repeat split; [exact H1 | constructor; assumption |].
  apply Forall_forall. intros a Ha. constructor.
  - pose proof (proj1 (Forall_forall _ _) Hbefore a Ha). simpl in *. lia.
  - exact (proj1 (Forall_forall _ _) H12 a Ha).
Qed.

Lemma insertion_start (new : TempoEvent) (l : list TempoEvent) :
  sorted l -> starts_at_zero l -> 0 <= getTicks new ->
  l <> [] \/ getTicks new = 0 ->
  starts_at_zero (before (getTicks new) l ++ new :: from (getTicks new) l).
Proof.
  intros Hs H0 Hnew Hg. destruct l as [|e l]; simpl in *.
  - destruct Hg; [congruence | assumption].
  - destruct (Z.ltb_spec (getTicks e) (getTicks new)); simpl; lia.
Qed.

Lemma timed_of_time_at (resolution : Z) (l : list TempoEvent) :
  sorted l ->
  Forall (fun x => time_at (getTicks x) l resolution = Ret (getTime x)) l ->
  timed resolution l.
Proof.
  intros Hs H. unfold timed. eapply Forall_impl; [exact H|].
  intros x Hx. simpl in *. now rewrite tickToSecondsImpl_sorted.
Qed.

(** Deriving the times again on a sorted sequence that starts at tick 0:
    the events keep their place, tick and tempo, and the times are set. *)
Lemma retime_sorted (resolution : Z) (l : list TempoEvent) :
  sorted l -> starts_at_zero l ->
  exists l', retime_loop resolution [] (sort_by getTicks l) = (Ret tt, l') /\
             Forall2 same_event l l' /\ sorted l' /\ starts_at_zero l' /\
             timed resolution l'.
Proof.
  intros Hs H0. rewrite sort_by_sorted by assumption.
  destruct (retime_loop_spec resolution l []) as (l' & Hrun & Hsame & Ht);
    [assumption .. | constructor |].
  simpl in *. exists l'. repeat split; try assumption.
  - eapply same_event_sorted; eassumption.
  - eapply same_event_start; eassumption.
  - apply timed_of_time_at; [eapply same_event_sorted; eassumption | exact Ht].
Qed.

(** [createTempoChange] on a sorted sequence that starts at tick 0: the new
    event goes between the events strictly before its tick and the events
    at or after its tick. *)
Lemma createTempoChange_sorted (ticks : Z) (bpm : Q) (s : Song) :
  0 < PPQ s -> sorted (tempos s) -> starts_at_zero (tempos s) ->
  0 <= ticks -> tempos s <> [] \/ ticks = 0 ->
  exists t l1 new l2,
    createTempoChange ticks bpm s
    = (Ret (mkTempoEvent ticks bpm t), set_tempos (fun _ => l1 ++ new :: l2) s) /\
    Forall2 same_event (before ticks (tempos s)) l1 /\
    same_event (mkTempoEvent ticks bpm t) new /\
    Forall2 same_event (from ticks (tempos s)) l2 /\
    sorted (l1 ++ new :: l2) /\ starts_at_zero (l1 ++ new :: l2) /\
    timed (PPQ s) (l1 ++ new :: l2).
Proof.
  intros HR Hs H0 Hticks Hg.
  destruct (createTempoChange_run ticks bpm s HR Hg) as (t & l' & _ & Hl' & Hrun).
  set (new := mkTempoEvent ticks bpm t) in *.
  rewrite inserted_sorted in Hl' by assumption.
  destruct (retime_sorted (PPQ s) (before (getTicks new) (tempos s)
                                   ++ new :: from (getTicks new) (tempos s)))
    as (l'' & Hl'' & Hsame & Hs' & H0' & Ht').
  { now apply insertion_sorted. }
  { now apply insertion_start. }
  rewrite Hl'' in Hl'. injection Hl' as <-.
  apply Forall2_app_inv_l in Hsame as (l1 & l2' & H1 & H2 & ->).
  apply Forall2_cons_inv_l in H2 as (new' & l2 & Hn & H2 & ->).
  exists t, l1, new', l2. repeat split; try assumption; apply Hn.
Qed.

(** ** The guards of [createTempoChange] *)

Lemma createTempoChange_no_resolution (ticks : Z) (bpm : Q) (s : Song) :
  PPQ s <= 0 ->
  createTempoChange ticks bpm s
  = (Throw (Error "Song resolution must be provided before creating tempo changes."), s).
Proof.
  intros HR. unfold createTempoChange. unfold_monad.
  destruct (Z.leb_spec (PPQ s) 0); [reflexivity | lia].
Qed.

Lemma createTempoChange_first_not_zero (ticks : Z) (bpm : Q) (s : Song) :
  0 < PPQ s -> tempos s = [] -> ticks <> 0 ->
  createTempoChange ticks bpm s
  = (Throw (Error "The first tempo event must be at tick 0"), s).
Proof.
  intros HR Hl Ht. unfold createTempoChange. unfold_monad.
  destruct (Z.leb_spec (PPQ s) 0); [lia|]. rewrite Hl. simpl.
  destruct (Z.eqb_spec ticks 0); [lia | reflexivity].
Qed.

Lemma sorted_nonneg (l : list TempoEvent) :
  sorted l -> starts_at_zero l -> Forall (fun e => 0 <= getTicks e) l.
Proof.
  intros Hs H0. destruct l as [|e l]; [constructor|].
  apply StronglySorted_inv in Hs as [_ He]. simpl in H0.
  constructor; [lia|]. eapply Forall_impl; [exact He|]. simpl. lia.
Qed.

(** ** Preservation of the invariant *)

Lemma for_each_preserves {S A} (I : S -> Prop) (body : A -> M S unit) (l : list A) :
  (forall x, x ∈ l -> forall s, I s -> I (snd (body x s))) ->
  forall s, I s -> I (snd (for_each l body s)).
Proof.
  induction l as [|x l IH]; intros Hbody s Hs; simpl; [exact Hs|].
  unfold bind. pose proof (Hbody x (list_elem_of_here _ _) s Hs) as Hx.
  destruct (body x s) as [[[]|e] s1]; simpl in *; [|exact Hx].
  apply IH; [|exact Hx]. intros y Hy. apply Hbody. now apply list_elem_of_further.
Qed.

(** A call of [createTempoChange] on a sorted sequence starting at tick 0
    either throws and changes nothing, or inserts as
    [createTempoChange_sorted] says. *)
Lemma createTempoChange_cases (ticks : Z) (bpm : Q) (s : Song) :
  sorted (tempos s) -> starts_at_zero (tempos s) -> 0 <= ticks ->
  snd (createTempoChange ticks bpm s) = s \/
  (0 < PPQ s /\
   exists l1 new l2,
     snd (createTempoChange ticks bpm s) = set_tempos (fun _ => l1 ++ new :: l2) s /\
     Forall2 same_event (before ticks (tempos s)) l1 /\
     getTicks new = ticks /\ getBpm new = bpm /\
     Forall2 same_event (from ticks (tempos s)) l2 /\
     sorted (l1 ++ new :: l2) /\ starts_at_zero (l1 ++ new :: l2) /\
     timed (PPQ s) (l1 ++ new :: l2)).
Proof.
  intros Hs H0 Hticks.
  destruct (Z_le_gt_dec (PPQ s) 0) as [HR|HR].
  { left. now rewrite createTempoChange_no_resolution. }
  destruct (Z.eq_dec ticks 0) as [Ht|Ht]; [|destruct (tempos s) as [|e0 l0] eqn:Hl].
  3: rewrite <- Hl in *.
  2: { left. rewrite createTempoChange_first_not_zero; auto; lia. }
  all: right; split; [lia|];
    destruct (createTempoChange_sorted ticks bpm s)
      as (t & l1 & new & l2 & -> & H1 & [Hnt Hnb] & H2 & Hrest);
    [lia | assumption | assumption | assumption | | ].
  all: try (exists l1, new, l2; simpl in *; repeat split; (congruence || tauto)).
  - now right.
  - left. congruence.
Qed.

Lemma createTempoChange_inv (ticks : Z) (bpm : Q) (s : Song) :
  tempo_inv s -> 0 <= ticks -> (0 < bpm)%Q ->
  tempo_inv (snd (createTempoChange ticks bpm s)).
Proof.
  intros [Hs H0 Hb Ht] Hticks Hbpm.
  destruct (createTempoChange_cases ticks bpm s Hs H0 Hticks)
    as [->|(HR & l1 & new & l2 & -> & H1 & Hnt & Hnb & H2 & Hs' & H0' & Ht')].
  - now constructor.
  - constructor; simpl; try assumption.
    rewrite <- (before_from ticks (tempos s)) in Hb.
    apply Forall_app in Hb as [Hb1 Hb2].
    apply Forall_app. split; [eapply same_event_bpm; eassumption|].
    constructor; [now rewrite Hnb | eapply same_event_bpm; eassumption].
Qed.

Lemma retimingTempoEvents_sorted (s : Song) :
  sorted (tempos s) -> starts_at_zero (tempos s) ->
  exists l', retimingTempoEvents s = (Ret tt, set_tempos (fun _ => l') s) /\
             Forall2 same_event (tempos s) l' /\ sorted l' /\ starts_at_zero l' /\
             timed (PPQ s) l'.
Proof.
  intros Hs H0.
  destruct (retimingTempoEvents_run s) as (l' & Hl' & Hrun).
  destruct (retime_sorted (PPQ s) (tempos s) Hs H0) as (l'' & Hl'' & Hrest).
  rewrite Hl'' in Hl'. injection Hl' as <-. eauto.
Qed.

Lemma alter_bpm_ticks (i : nat) (b : Q) (l : list TempoEvent) :
  map getTicks (alter (fun e => setBpmInternal e b) i l) = map getTicks l.
Proof.
  change (map getTicks) with (fmap (M:=list) getTicks).
  rewrite (list_fmap_alter getTicks _ (fun x => x)).
  - now apply list_alter_id.
  - apply Forall_forall. reflexivity.
Qed.

Lemma updateTempo_inv (tempoEvent : nat) (newBPM : Q) (s : Song) :
  tempo_inv s -> (0 < newBPM)%Q -> tempo_inv (snd (updateTempo tempoEvent newBPM s)).
Proof.
  intros [Hs H0 Hb Ht] Hbpm. unfold updateTempo. unfold_monad.
  set (l1 := alter (fun e => setBpmInternal e newBPM) tempoEvent (tempos s)).
  change (set_tempos _ s) with (set_tempos (fun _ => l1) s).
  assert (Hticks : map getTicks l1 = map getTicks (tempos s)) by apply alter_bpm_ticks.
  destruct (retimingTempoEvents_sorted (set_tempos (fun _ => l1) s))
    as (l' & -> & Hsame & Hs' & H0' & Ht'); simpl.
  - apply sorted_by_map. rewrite Hticks. exact (proj1 (sorted_by_map _ _) Hs).
  - destruct (tempos s), l1; simpl in *; congruence.
  - constructor; simpl; try assumption.
    eapply same_event_bpm; [exact Hsame|]. subst l1.
    apply Forall_alter; [exact Hb | intros e _ _; exact Hbpm].
Qed.

(** ** [overwriteTempoChanges] *)

Lemma overwriteTempoChanges_empty (s : Song) :
  overwriteTempoChanges [] s = (Throw (Error "Cannot clear all the tempo events."), s).
Proof. reflexivity. Qed.

Lemma overwriteTempoChanges_late (evs : list TempoEvent) (s : Song)
    (first : TempoEvent) (rest : list TempoEvent) :
  sort_by getTicks evs = first :: rest -> 0 < getTicks first ->
  overwriteTempoChanges evs s
  = (Throw (Error "The first tempo event needs to start from tick 0"), s).
Proof.
  intros Hsort Hfirst. unfold overwriteTempoChanges.
  destruct evs as [|x evs]; [discriminate|].
  change (length (x :: evs) =? 0)%nat with false. cbv iota. rewrite Hsort.
  destruct (Z.gtb_spec (getTicks first) 0); [reflexivity | lia].
Qed.

Lemma overwriteTempoChanges_run (evs : list TempoEvent) (s : Song)
    (first : TempoEvent) (rest : list TempoEvent) :
  sort_by getTicks evs = first :: rest -> getTicks first <= 0 ->
  overwriteTempoChanges evs s
  = insert_each rest (set_tempos (fun _ => [mkTempoEvent 0 (getBpm first) 0]) s).
Proof.
  intros Hsort Hfirst. unfold overwriteTempoChanges.
  destruct evs as [|x evs]; [discriminate|].
  change (length (x :: evs) =? 0)%nat with false. cbv iota. rewrite Hsort.
  destruct (Z.gtb_spec (getTicks first) 0); [lia | reflexivity].
Qed.

Lemma sort_by_cons {A} (key : A -> Z) (x : A) (l : list A) :
  exists first rest, sort_by key (x :: l) = first :: rest.
Proof.
  pose proof (sort_by_perm key (x :: l)) as Hp.
  destruct (sort_by key (x :: l)) as [|first rest]; [|eauto].
  apply Permutation_nil_l in Hp. discriminate.
Qed.

Lemma insert_step_snd (x : TempoEvent) (s : Song) :
  snd ((let* _ := createTempoChange (getTicks x) (getBpm x) in ret tt) s)
  = snd (createTempoChange (getTicks x) (getBpm x) s).
Proof.
  unfold_monad. now destruct (createTempoChange (getTicks x) (getBpm x) s) as [[|] ?].
Qed.

Lemma timed_zero (resolution : Z) (l : list TempoEvent) (e : TempoEvent) :
  timed resolution l -> e ∈ l -> getTicks e = 0 -> getTime e = 0%Q.
Proof.
  intros Ht He H0. pose proof (proj1 (Forall_forall _ _) Ht e He) as H.
  simpl in H. rewrite H0 in H. unfold tickToSecondsImpl in H. simpl in H.
  congruence.
Qed.

Lemma createTempoChange_head (P : Q -> Prop) (ticks : Z) (bpm : Q) (s : Song) :
  sorted (tempos s) -> head_ok P (tempos s) -> 0 <= ticks -> (ticks = 0 -> P bpm) ->
  sorted (tempos (snd (createTempoChange ticks bpm s))) /\
  head_ok P (tempos (snd (createTempoChange ticks bpm s))).
Proof.
  intros Hs (e & l0 & Hl & He0 & Het & HP) Hticks Hbpm.
  destruct (createTempoChange_cases ticks bpm s Hs) as
    [->|(HR & l1 & new & l2 & -> & H1 & Hnt & Hnb & H2 & Hs' & H0' & Ht')];
    [rewrite Hl; exact He0 | exact Hticks | | ].
  - split; [exact Hs | exists e, l0; auto].
  - simpl. split; [exact Hs'|]. rewrite Hl in H1. simpl in H1.
    destruct (Z.ltb_spec (getTicks e) ticks) as [Hlt|Hge].
    + apply Forall2_cons_inv_l in H1 as (e' & l1' & [Hte Hbe] & _ & ->).
      exists e', (l1' ++ new :: l2). repeat split.
      * congruence.
      * eapply timed_zero; [exact Ht' | apply list_elem_of_here | congruence].
      * now rewrite <- Hbe.
    + apply Forall2_nil_inv_l in H1 as ->. simpl in *.
      exists new, l2. repeat split.
      * lia.
      * eapply timed_zero; [exact Ht' | apply list_elem_of_here | lia].
      * rewrite Hnb. apply Hbpm. lia.
Qed.

Lemma insert_each_head (P : Q -> Prop) (rest : list TempoEvent) (s : Song) :
  sorted (tempos s) -> head_ok P (tempos s) ->
  Forall (fun x => 0 <= getTicks x /\ (getTicks x = 0 -> P (getBpm x))) rest ->
  head_ok P (tempos (snd (insert_each rest s))).
Proof.
  intros Hs Hh Hrest.
  apply (for_each_preserves
           (fun s => sorted (tempos s) /\ head_ok P (tempos s))); [|now split].
  intros x Hx s0 [Hs0 Hh0]. rewrite insert_step_snd.
  pose proof (proj1 (Forall_forall _ _) Hrest x Hx) as [Hx0 HxP].
  now apply createTempoChange_head.
Qed.

Lemma insert_each_inv (rest : list TempoEvent) (s : Song) :
  tempo_inv s -> Forall valid_event rest -> tempo_inv (snd (insert_each rest s)).
Proof.
  intros Hs Hrest. apply (for_each_preserves tempo_inv); [|exact Hs].
  intros x Hx s0 Hs0. rewrite insert_step_snd.
  pose proof (proj1 (Forall_forall _ _) Hrest x Hx) as [Hx0 Hxb].
  now apply createTempoChange_inv.
Qed.

Lemma overwriteTempoChanges_inv (evs : list TempoEvent) (s : Song) :
  tempo_inv s -> Forall valid_event evs ->
  tempo_inv (snd (overwriteTempoChanges evs s)).
Proof.
  intros Hs Hevs. destruct evs as [|x evs]; [exact Hs|].
  destruct (sort_by_cons getTicks x evs) as (first & rest & Hsort).
  assert (Hvalid : Forall valid_event (first :: rest)).
  { rewrite <- Hsort. now rewrite sort_by_perm. }
  apply Forall_cons in Hvalid as [[Hf0 Hfb] Hrest].
  destruct (Z_lt_le_dec 0 (getTicks first)) as [Hlt|Hle].
  - now rewrite (overwriteTempoChanges_late _ _ _ _ Hsort Hlt).
  - rewrite (overwriteTempoChanges_run _ _ _ _ Hsort Hle).
    apply insert_each_inv; [|exact Hrest].
    constructor; simpl; repeat constructor; assumption.
Qed.

(** ** Methods that leave the timeline alone *)

Section Frames.
Context {X : Type} (proj : World -> X).

Lemma frames_bind {A B} (m : M World A) (k : A -> M World B) :
  frames_of proj m -> (forall a, frames_of proj (k a)) -> frames_of proj (bind m k).
Proof.
  intros Hm Hk w. unfold bind. specialize (Hm w).
  destruct (m w) as [[a|e] w1]; simpl in *; [|exact Hm].
  now rewrite Hk.
Qed.

Lemma frames_ret {A} (a : A) : frames_of proj (ret a).
Proof. intros w. reflexivity. Qed.

Lemma frames_throw {A} (e : Exn) : frames_of proj (@throw World A e).
Proof. intros w. reflexivity. Qed.

Lemma frames_get : frames_of proj (@get World).
Proof. intros w. reflexivity. Qed.

Lemma frames_lift {A} (o : Outcome A) : frames_of proj (lift o).
Proof. intros w. reflexivity. Qed.

Lemma frames_modify (f : World -> World) :
  (forall w, proj (f w) = proj w) -> frames_of proj (modify f).
Proof. intros Hf w. apply Hf. Qed.

Lemma frames_for_each {A} (l : list A) (body : A -> M World unit) :
  (forall x, frames_of proj (body x)) -> frames_of proj (for_each l body).
Proof.
  intros Hbody. induction l as [|x l IH]; simpl; [apply frames_ret|].
  apply frames_bind; [apply Hbody | intros _; exact IH].
Qed.

Lemma frames_fold_each {A B} (l : list A) (acc : B) (body : B -> A -> M World B) :
  (forall acc x, frames_of proj (body acc x)) -> frames_of proj (fold_each l acc body).
Proof.
  intros Hbody. revert acc. induction l as [|x l IH]; intros acc; simpl;
    [apply frames_ret|].
  apply frames_bind; [apply Hbody | intros acc'; apply IH].
Qed.

Lemma frames_deref (r : PluginRef) : frames_of proj (deref r).
Proof. intros w. unfold deref. now destruct (plugins w !! r). Qed.
End Frames.

Ltac frame_step :=
  first
    [ apply frames_ret | apply frames_throw | apply frames_get | apply frames_lift
    | apply frames_modify; intros ?; reflexivity
    | apply frames_bind; [|intros ?]
    | apply frames_for_each; intros ?
    | apply frames_fold_each; intros ? ?
    | match goal with
      | |- frames_of _ (match ?x with _ => _ end) => destruct x
      | |- frames_of _ (if ?c then _ else _) => destruct c
      end ].

Lemma frames_generateTrackIdInternal : frames generateTrackIdInternal.
Proof. intros w. reflexivity. Qed.

Lemma frames_checkAccess (accessName : string) : frames (checkAccess accessName).
Proof. unfold checkAccess. repeat (apply frames_deref || frame_step). Qed.

Lemma frames_getNextTrackId : frames getNextTrackId.
Proof.
  unfold getNextTrackId.
  repeat (apply frames_deref || apply frames_generateTrackIdInternal || frame_step).
Qed.

Lemma tracks_checkAccess (accessName : string) :
  frames_tracks (checkAccess accessName).
Proof. unfold checkAccess. repeat (apply frames_deref || frame_step). Qed.

Lemma tracks_generateTrackIdInternal : frames_tracks generateTrackIdInternal.
Proof. intros w. reflexivity. Qed.

Lemma tracks_getNextTrackId : frames_tracks getNextTrackId.
Proof.
  unfold getNextTrackId.
  repeat (apply frames_deref || apply tracks_generateTrackIdInternal || frame_step).
Qed.

Lemma tracks_getNextTrackRank : frames_tracks getNextTrackRank.
Proof. unfold getNextTrackRank. repeat frame_step. Qed.

Lemma frames_createTrack (type : TrackType) (index rank : option Z) :
  frames (createTrack type index rank).
Proof.
  unfold createTrack, getNextTrackRank.
  repeat (apply frames_checkAccess || apply frames_getNextTrackId || frame_step).
Qed.

Lemma frames_removeTrack (trackId : string) : frames (removeTrack trackId).
Proof.
  unfold removeTrack. repeat (apply frames_checkAccess || frame_step).
Qed.

Lemma frames_tell (i : nat) (c : TrackCall) : frames (tell i c).
Proof. unfold tell. frame_step. Qed.

Lemma frames_importTrack (insertOffset : Z) (ppqScaleFactor : Q) (track : MidiTrack) :
  frames (importTrack insertOffset ppqScaleFactor track).
Proof.
  unfold importTrack, importAutomation.
  repeat (apply frames_createTrack || apply frames_tell || frame_step).
Qed.

Lemma tempo_inv_frame (s s' : Song) :
  tempos s' = tempos s -> PPQ s' = PPQ s -> tempo_inv s -> tempo_inv s'.
Proof. intros Ht HR [? ? ? ?]. constructor; rewrite ?Ht, ?HR; assumption. Qed.

Lemma frames_inv {A} (m : M World A) (w : World) :
  frames m -> tempo_inv (song w) -> tempo_inv (song (snd (m w))).
Proof.
  intros Hm Hw. specialize (Hm w). unfold timeline in Hm.
  injection Hm as Ht HR _. eapply tempo_inv_frame; eassumption.
Qed.

Lemma onSong_song {A} (m : M Song A) (w : World) :
  song (snd (onSong m w)) = snd (m (song w)).
Proof. unfold onSong. now destruct (m (song w)). Qed.

(** ** Stored times and integration *)

Lemma ticks_per_second_inv (x b : Q) (resolution : Z) :
  (x / tempoBPMToTicksPerSecond b resolution
   == x * 60 / (b * inject_Z resolution))%Q.
Proof.
  unfold tempoBPMToTicksPerSecond, Qdiv.
  rewrite Qinv_mult_distr, Qinv_involutive. ring.
Qed.

Lemma consecutive_times (resolution : Z) (p q : list TempoEvent) (prev e : TempoEvent) :
  sorted (p ++ prev :: e :: q) -> starts_at_zero (p ++ prev :: e :: q) ->
  timed resolution (p ++ prev :: e :: q) ->
  (getTime e == getTime prev + segment_seconds resolution prev e)%Q.
Proof.
  intros Hs H0 Ht. set (l := p ++ prev :: e :: q) in *.
  assert (Hprev : prev ∈ l) by (subst l; rewrite elem_of_app, !elem_of_cons; tauto).
  assert (He : e ∈ l) by (subst l; rewrite elem_of_app, !elem_of_cons; tauto).
  pose proof (proj1 (Forall_forall _ _) Ht prev Hprev) as Htp.
  pose proof (proj1 (Forall_forall _ _) Ht e He) as Hte.
  pose proof (proj1 (Forall_forall _ _) (sorted_nonneg l Hs H0) prev Hprev) as Hp0.
  simpl in Htp, Hte, Hp0.
  assert (Hle : getTicks prev <= getTicks e /\
                Forall (fun x => getTicks e <= getTicks x) (e :: q) /\
                Forall (fun x => getTicks x <= getTicks prev) (p ++ [prev])).
  { subst l. apply sorted_by_app in Hs as (_ & Hs & Hp).
    apply StronglySorted_inv in Hs as [Hs Hpe].
    apply StronglySorted_inv in Hs as [_ Heq].
    apply Forall_cons in Hpe as [Hpe _]. repeat split; [exact Hpe | |].
    - constructor; [lia | exact Heq].
    - apply Forall_app. split; [|repeat constructor; lia].
      eapply Forall_impl; [exact Hp|]. intros x Hx. simpl in Hx.
      now apply Forall_cons in Hx as [Hx _]. }
  destruct Hle as (Hpe & Hafter & Hupto).
  unfold segment_seconds.
  destruct (Z.eq_dec (getTicks prev) (getTicks e)) as [Heq|Hne].
  - rewrite Heq in Htp. rewrite Htp in Hte. injection Hte as <-.
    rewrite Heq, Z.sub_diag. unfold Qdiv. ring.
  - rewrite tickToSecondsImpl_sorted in Hte by assumption.
    unfold time_at in Hte. destruct (Z.eqb_spec (getTicks e) 0); [lia|].
    assert (Hbase : base (getTicks e) l = Some prev).
    { subst l. change (p ++ prev :: e :: q) with (p ++ [prev] ++ e :: q).
      rewrite app_assoc. unfold base. rewrite before_app_ge by assumption.
      rewrite before_all, last_snoc; [reflexivity|].
      eapply Forall_impl; [exact Hupto|]. simpl. lia. }
    rewrite Hbase in Hte. injection Hte as <-. unfold segment_time.
    now rewrite ticks_per_second_inv.
Qed.

Lemma integrate_times (resolution : Z) (l' p : list TempoEvent) (prev : TempoEvent)
    (acc : Q) :
  sorted (p ++ prev :: l') -> starts_at_zero (p ++ prev :: l') ->
  timed resolution (p ++ prev :: l') -> (acc == getTime prev)%Q ->
  Forall2 Qeq (map getTime l') (integrate resolution prev acc l').
Proof.
  revert p prev acc. induction l' as [|e l' IH]; intros p prev acc Hs H0 Ht Hacc;
    simpl; constructor.
  - rewrite Hacc. now apply (consecutive_times resolution p l').
  - apply (IH (p ++ [prev])); rewrite <- ?app_assoc; simpl; try assumption.
    rewrite Hacc. symmetry. now apply (consecutive_times resolution p l').
Qed.

(** Under the invariant every stored time is the integrated one. *)
Lemma tempo_inv_integrated (s : Song) : tempo_inv s -> times_integrated s.
Proof.
  intros [Hs H0 _ Ht]. unfold times_integrated, integrated_times.
  destruct (tempos s) as [|e l] eqn:Hl; simpl; constructor.
  - rewrite (timed_zero (PPQ s) (e :: l) e Ht); [reflexivity | | exact H0].
    apply list_elem_of_here.
  - apply (integrate_times (PPQ s) l []); simpl; try assumption.
    rewrite (timed_zero (PPQ s) (e :: l) e Ht); [reflexivity | | exact H0].
    apply list_elem_of_here.
Qed.

(** ** Every operation keeps the invariant *)

Lemma keeps_bind {A B} (I : World -> Prop) (m : M World A) (k : A -> M World B) :
  keeps I m -> (forall a, keeps I (k a)) -> keeps I (bind m k).
Proof.
  intros Hm Hk w Hw. unfold bind. specialize (Hm w Hw).
  destruct (m w) as [[a|e] w1]; simpl in *; [now apply Hk | exact Hm].
Qed.

Lemma keeps_frames {A} (m : M World A) :
  frames m -> keeps (fun w => tempo_inv (song w)) m.
Proof. intros Hm w Hw. now apply frames_inv. Qed.

Lemma keeps_onSong {A} (m : M Song A) :
  (forall s, tempo_inv s -> tempo_inv (snd (m s))) ->
  keeps (fun w => tempo_inv (song w)) (onSong m).
Proof. intros Hm w Hw. rewrite onSong_song. now apply Hm. Qed.

Lemma Math_round_nonneg (x : Q) : (0 <= x)%Q -> 0 <= Math_round x.
Proof.
  intros Hx. unfold Math_round. change 0 with (Qfloor 0).
  apply Qfloor_resp_le. lra.
Qed.

Lemma scaleIntBy_nonneg (val : Z) (factor : Q) :
  0 <= val -> (0 <= factor)%Q -> 0 <= scaleIntBy val factor.
Proof.
  intros Hv Hf. apply Math_round_nonneg. apply Qmult_le_0_compat; [|exact Hf].
  change 0%Q with (inject_Z 0). now rewrite <- Zle_Qle.
Qed.

Lemma importedTempos_valid (midi : Midi) (insertOffset : Z) :
  valid_midi midi -> 0 <= insertOffset ->
  Forall valid_event
    (importedTempos midi insertOffset (480 / inject_Z (headerPpq midi))).
Proof.
  intros [Hppq Htempos] Hoff. unfold importedTempos. apply Forall_app. split.
  - destruct (insertOffset >? 0); repeat constructor; simpl; lia.
  - apply List.Forall_map. eapply Forall_impl; [exact Htempos|].
    intros t [Ht Hb]. simpl in *. split; simpl; [|exact Hb].
    assert (0 <= scaleIntBy (rawTempoTicks t) (480 / inject_Z (headerPpq midi))); [|lia].
    apply scaleIntBy_nonneg; [exact Ht|].
    apply Qle_shift_div_l; [|lra].
    change 0%Q with (inject_Z 0). rewrite <- Zlt_Qlt. lia.
Qed.

Lemma run_op_inv (w : World) (op : SongOp) :
  tempo_inv (song w) -> valid_op w op -> tempo_inv (song (snd (run_op op w))).
Proof.
  intros Hw Hop. revert w Hw Hop.
  change (forall w, (fun w => tempo_inv (song w)) w -> valid_op w op ->
                    (fun w => tempo_inv (song w)) (snd (run_op op w))).
  destruct op; intros w Hw Hop; cbn [run_op valid_op] in *.
  - rewrite onSong_song. simpl. destruct Hw. constructor; simpl; try assumption.
    rewrite Hop. constructor.
  - rewrite onSong_song. unfold discard. destruct Hop.
    replace (snd _) with (snd (createTempoChange ticks bpm (song w))).
    + now apply createTempoChange_inv.
    + unfold_monad. now destruct (createTempoChange ticks bpm (song w)) as [[|] ?].
  - rewrite onSong_song. now apply overwriteTempoChanges_inv.
  - rewrite onSong_song. now apply updateTempo_inv.
  - rewrite onSong_song. simpl. eapply tempo_inv_frame; [| |exact Hw]; reflexivity.
  - destruct Hop as [Hmidi Hoff]. revert w Hw.
    change (keeps (fun w => tempo_inv (song w))
              (importMIDI midi insertAtTick overwriteTemposAndTimeSignatures)).
    unfold importMIDI. cbv zeta. apply keeps_bind.
    + destruct overwriteTemposAndTimeSignatures; [|apply keeps_frames, frames_ret].
      apply keeps_bind; [|intros _].
      * apply keeps_onSong. intros s Hs. simpl.
        eapply tempo_inv_frame; [| |exact Hs]; reflexivity.
      * apply keeps_onSong. intros s Hs.
        apply overwriteTempoChanges_inv; [exact Hs|].
        now apply importedTempos_valid.
    + intros _. apply keeps_frames, frames_for_each. intros track.
      apply frames_importTrack.
  - eapply tempo_inv_frame; [| |exact Hw]; reflexivity.
  - eapply tempo_inv_frame; [| |exact Hw]; reflexivity.
  - apply frames_inv; [|exact Hw]. unfold discard.
    apply frames_bind; [apply frames_createTrack | intros _; apply frames_ret].
  - apply frames_inv; [|exact Hw]. unfold discard.
    apply frames_bind; [apply frames_removeTrack | intros _; apply frames_ret].
Qed.

Lemma newSong_inv : tempo_inv newSong.
Proof. repeat constructor. Qed.

(** ** Constant tempo *)


(** ** The base event of a positive tick, and monotonicity of the time *)

Lemma before_nonempty (t : Z) (l : list TempoEvent) :
  l <> [] -> starts_at_zero l -> 0 < t ->
  exists p b, before t l = p ++ [b].
Proof.
  intros Hl H0 Ht. destruct l as [|e l]; [congruence|]. simpl in *.
  destruct (Z.ltb_spec (getTicks e) t); [|lia].
  destruct (before t l) as [|x bs] using rev_ind.
  - exists [], e. reflexivity.
  - exists (e :: bs), x. reflexivity.
Qed.

Lemma time_at_positive_tick (t : Z) (l : list TempoEvent) (resolution : Z) :
  l <> [] -> starts_at_zero l -> 0 < t ->
  exists p b, before t l = p ++ [b] /\ b ∈ l /\ getTicks b < t /\
              time_at t l resolution = Ret (segment_time b resolution t).
Proof.
  intros Hl H0 Ht. destruct (before_nonempty t l Hl H0 Ht) as (p & b & Hb).
  exists p, b. split; [exact Hb|].
  assert (Hin : b ∈ before t l) by (rewrite Hb, elem_of_app, elem_of_cons; tauto).
  repeat split.
  - rewrite <- (before_from t l), elem_of_app. now left.
  - exact (proj1 (Forall_forall _ _) (before_below t l) b Hin).
  - unfold time_at, base. destruct (Z.eqb_spec t 0); [lia|].
    now rewrite Hb, last_snoc.
Qed.


Section Monotone.
Variable s : Song.
Hypothesis Hinv : tempo_inv s.
Hypothesis Hres : 1 <= PPQ s.
Hypothesis Hne : tempos s <> [].





End Monotone.

(** ** Rounding *)


Lemma Math_round_integer (z : Z) : Math_round (inject_Z z) = z.
Proof.
  unfold Math_round.
  pose proof (Qfloor_le (inject_Z z + (1 # 2))) as Hlo.
  pose proof (Qlt_floor (inject_Z z + (1 # 2))) as Hhi.
  rewrite inject_Z_plus in Hhi. change (inject_Z 1) with 1%Q in Hhi.
  assert (H1 : (inject_Z (Qfloor (inject_Z z + (1 # 2))) < inject_Z (z + 1))%Q).
  { rewrite inject_Z_plus. change (inject_Z 1) with 1%Q. lra. }
  assert (H2 : (inject_Z (z - 1) < inject_Z (Qfloor (inject_Z z + (1 # 2))))%Q).
  { unfold Z.sub. rewrite inject_Z_plus, inject_Z_opp.
    change (inject_Z 1) with 1%Q. lra. }
  rewrite <- Zlt_Qlt in H1, H2. lia.
Qed.

Lemma Math_round_comp (x y : Q) : (x == y)%Q -> Math_round x = Math_round y.
Proof. intros H. unfold Math_round. apply Qfloor_comp. now rewrite H. Qed.



(** ** Seconds back to ticks *)
Section RoundTrip.
Variable s : Song.
Hypothesis Hinv : tempo_inv s.
Hypothesis Hres : 1 <= PPQ s.
Hypothesis Hne : tempos s <> [].


End RoundTrip.

(** ** The capability gate *)

Lemma checkAccess_no_context (accessName : string) (w : World) :
  pluginContext (song w) = None ->
  checkAccess accessName w = (Throw (Error no_context_message), w).
Proof. intros H. unfold checkAccess. unfold_monad. now rewrite H. Qed.


Lemma checkAccess_granted (accessName : string) (w : World) (ctx : PluginContext)
    (p : TuneflowPlugin) :
  pluginContext (song w) = Some ctx -> plugins w !! plugin ctx = Some p ->
  truthy (songAccess p !! accessName) = true ->
  checkAccess accessName w = (Ret tt, w).
Proof.
  intros Hctx Hp Hacc. unfold checkAccess. unfold_monad.
  rewrite Hctx. unfold deref. now rewrite Hp, Hacc.
Qed.

Lemma bind_run {S A B} (m : M S A) (k : A -> M S B) (s s' : S) (a : A) :
  m s = (Ret a, s') -> bind m k s = k a s'.
Proof. intros H. unfold bind. now rewrite H. Qed.

Lemma bind_throw {S A B} (m : M S A) (k : A -> M S B) (s s' : S) (e : Exn) :
  m s = (Throw e, s') -> bind m k s = (Throw e, s').
Proof. intros H. unfold bind. now rewrite H. Qed.

(** ** Removing a track *)

Lemma find_first {A} (p : A -> bool) (l1 l2 : list A) (x : A) :
  Forall (fun y => p y = false) l1 -> p x = true ->
  find_ p (l1 ++ x :: l2) = Some x /\
  findIndex p (l1 ++ x :: l2) = Z.of_nat (length l1).
Proof.
  intros H1 Hx. unfold find_. induction H1 as [|y l1 Hy _ [IHf IHi]]; simpl.
  - now rewrite Hx.
  - rewrite Hy, IHf, IHi.
    destruct (Z.ltb_spec (Z.of_nat (length l1)) 0); [lia|]. split; [reflexivity | lia].
Qed.

Lemma find_none {A} (p : A -> bool) (l : list A) :
  Forall (fun y => p y = false) l -> find_ p l = None.
Proof.
  unfold find_. induction 1 as [|y l Hy _ IH]; simpl; [reflexivity|].
  now rewrite Hy.
Qed.

Lemma splice_delete {A} (l1 l2 : list A) (x : A) :
  splice (l1 ++ x :: l2) (Z.of_nat (length l1)) 1 [] = l1 ++ l2.
Proof.
  unfold splice, splice_start. rewrite length_app. simpl.
  destruct (Z.ltb_spec (Z.of_nat (length l1)) 0); [lia|].
  replace (Z.to_nat (Z.min _ _)) with (length l1) by lia.
  rewrite take_app_length.
  replace (length l1 + 1)%nat with (length (l1 ++ [x])) by (rewrite length_app; reflexivity).
  change (l1 ++ x :: l2) with (l1 ++ [x] ++ l2). rewrite app_assoc.
  now rewrite drop_app_length.
Qed.

(** ** One call of [createTrack] under a context that grants it *)

Lemma getNextTrackId_step (w : World) (ctx : PluginContext) (p : TuneflowPlugin) :
  pluginContext (song w) = Some ctx -> plugins w !! plugin ctx = Some p ->
  (numTracksCreatedByPlugin ctx <= length (generatedTrackIdsInternal p))%nat ->
  let k := numTracksCreatedByPlugin ctx in
  let pool := pool_after w (generatedTrackIdsInternal p) k in
  exists id w',
    getNextTrackId w = (Ret id, w') /\ pool !! k = Some id /\
    pluginContext (song w') = Some (mkPluginContext (plugin ctx) (k + 1)) /\
    plugins w' !! plugin ctx = Some (set_generatedTrackIdsInternal pool p) /\
    tracks (song w') = tracks (song w) /\ idSource w' = idSource w.
Proof.
  intros Hctx Hp Hk k pool. subst k pool. unfold pool_after.
  unfold getNextTrackId. unfold_monad. rewrite Hctx. unfold deref at 1. rewrite Hp.
  cbv beta iota.
  destruct (Nat.eqb_spec (numTracksCreatedByPlugin ctx)
              (length (generatedTrackIdsInternal p))) as [Heq|Hneq].
  - unfold generateTrackIdInternal, deref. unfold_monad. cbn [plugins set_plugins].
    rewrite lookup_alter_eq, Hp. cbn [fmap option_fmap option_map].
    cbn [generatedTrackIdsInternal set_generatedTrackIdsInternal].
    rewrite Heq, list_lookup_middle by reflexivity.
    eexists _, _. split; [reflexivity|]. cbn. rewrite lookup_alter_eq, Hp.
    repeat split.
  - destruct (Nat.ltb_spec (length (generatedTrackIdsInternal p))
                (numTracksCreatedByPlugin ctx)); [lia|].
    unfold deref. unfold_monad. rewrite Hp. cbv beta iota.
    destruct (lookup_lt_is_Some_2 (generatedTrackIdsInternal p)
                (numTracksCreatedByPlugin ctx)) as [id Hid]; [lia|].
    rewrite Hid. eexists _, _. split; [reflexivity|]. cbn. rewrite Hp.
    repeat split. now destruct p.
Qed.

Lemma rank_step (rank : option Z) (w : World) :
  exists r w',
    match rank with
    | None => getNextTrackRank
    | Some rank =>
        let* _ := modify (set_song (fun s =>
                    set_nextTrackRank (Z.max (rank + 1) (nextTrackRank s)) s)) in
        ret rank
    end%js w = (Ret r, w') /\
    pluginContext (song w') = pluginContext (song w) /\ plugins w' = plugins w /\
    tracks (song w') = tracks (song w) /\
    idSource w' = idSource w /\ idsMinted w' = idsMinted w.
Proof.
  destruct rank; unfold getNextTrackRank; unfold_monad;
    eexists _, _; (split; [reflexivity|]); repeat split.
Qed.

Lemma createTrack_step (type : TrackType) (index rank : option Z) (w : World)
    (ctx : PluginContext) (p : TuneflowPlugin) :
  pluginContext (song w) = Some ctx -> plugins w !! plugin ctx = Some p ->
  truthy (songAccess p !! "createTrack") = true ->
  (numTracksCreatedByPlugin ctx <= length (generatedTrackIdsInternal p))%nat ->
  let k := numTracksCreatedByPlugin ctx in
  let pool := pool_after w (generatedTrackIdsInternal p) k in
  exists track w',
    createTrack type index rank w = (Ret track, w') /\ pool !! k = Some (getId track) /\
    pluginContext (song w') = Some (mkPluginContext (plugin ctx) (k + 1)) /\
    plugins w' !! plugin ctx = Some (set_generatedTrackIdsInternal pool p).
Proof.
  intros Hctx Hp Hacc Hk k pool. unfold createTrack.
  rewrite (bind_run _ _ _ _ _ (checkAccess_granted _ w ctx p Hctx Hp Hacc)).
  destruct (rank_step rank w) as (r & w1 & Hr & Hc1 & Hp1 & _ & Hs1 & Hm1).
  rewrite (bind_run _ _ _ _ _ Hr).
  rewrite <- Hc1 in Hctx. rewrite <- Hp1 in Hp.
  destruct (getNextTrackId_step w1 ctx p Hctx Hp Hk)
    as (id & w2 & Hid & Hlook & Hc2 & Hp2 & _).
  rewrite (bind_run _ _ _ _ _ Hid).
  unfold pool_after in Hlook, Hp2. rewrite Hs1, Hm1 in Hlook, Hp2.
  destruct index; unfold_monad; eexists _, _; (split; [reflexivity|]);
    repeat split; assumption.
Qed.

Lemma createTrack_out_of_sync (type : TrackType) (index rank : option Z) (w : World)
    (ctx : PluginContext) (p : TuneflowPlugin) :
  pluginContext (song w) = Some ctx -> plugins w !! plugin ctx = Some p ->
  truthy (songAccess p !! "createTrack") = true ->
  (length (generatedTrackIdsInternal p) < numTracksCreatedByPlugin ctx)%nat ->
  fst (createTrack type index rank w)
  = Throw (Error "Plugin generated track ids out of sync.").
Proof.
  intros Hctx Hp Hacc Hk. unfold createTrack.
  rewrite (bind_run _ _ _ _ _ (checkAccess_granted _ w ctx p Hctx Hp Hacc)).
  destruct (rank_step rank w) as (r & w1 & Hr & Hc1 & Hp1 & _).
  rewrite (bind_run _ _ _ _ _ Hr).
  rewrite <- Hc1 in Hctx. rewrite <- Hp1 in Hp.
  assert (Hid : getNextTrackId w1
                = (Throw (Error "Plugin generated track ids out of sync."), w1)).
  { unfold getNextTrackId. unfold_monad. rewrite Hctx. unfold deref. rewrite Hp.
    cbv beta iota.
    destruct (Nat.eqb_spec (numTracksCreatedByPlugin ctx)
                (length (generatedTrackIdsInternal p))); [lia|].
    destruct (Nat.ltb_spec (length (generatedTrackIdsInternal p))
                (numTracksCreatedByPlugin ctx)); [reflexivity | lia]. }
  now rewrite (bind_throw _ _ _ _ _ Hid).
Qed.

(** The identifiers of a sequence of [createTrack] calls: the pool, from
    the position of the counter on, extended where it runs out. *)
Lemma createTracks_ids (calls : list CreateTrackArgs) (w : World) (r : PluginRef)
    (k : nat) (p : TuneflowPlugin) :
  pluginContext (song w) = Some (mkPluginContext r k) -> plugins w !! r = Some p ->
  truthy (songAccess p !! "createTrack") = true ->
  (k <= length (generatedTrackIdsInternal p))%nat ->
  exists tracks w' extra,
    createTracks calls w = (Ret tracks, w') /\
    plugins w' !! r
    = Some (set_generatedTrackIdsInternal (generatedTrackIdsInternal p ++ extra) p) /\
    ((k + length calls <= length (generatedTrackIdsInternal p))%nat -> extra = []) /\
    (k + length calls <= length (generatedTrackIdsInternal p ++ extra))%nat /\
    map getId tracks
    = take (length calls) (drop k (generatedTrackIdsInternal p ++ extra)).
Proof.
  revert w k p. induction calls as [|c calls IH]; intros w k p Hctx Hp Hacc Hk.
  - exists [], w, []. rewrite app_nil_r. simpl. repeat split; try lia.
    now destruct p.
  - destruct (createTrack_step (argType c) (argIndex c) (argRank c) w _ p Hctx Hp Hacc Hk)
      as (track & w1 & Hrun & Hid & Hc1 & Hp1).
    cbn [plugin numTracksCreatedByPlugin] in *.
    set (pool := generatedTrackIdsInternal p) in *.
    set (pool1 := pool_after w pool k) in *.
    assert (Hpool1 : exists e1, pool1 = pool ++ e1 /\ (k + 1 <= length pool1)%nat /\
                                ((k < length pool)%nat -> e1 = [])).
    { unfold pool1, pool_after. destruct (Nat.eqb_spec k (length pool)).
      - eexists. split; [reflexivity|]. rewrite length_app. simpl. split; lia.
      - exists []. rewrite app_nil_r. split; [reflexivity|]. split; [lia | reflexivity]. }
    destruct Hpool1 as (e1 & Hpool1 & Hlen1 & He1).
    destruct (IH w1 (k + 1)%nat (set_generatedTrackIdsInternal pool1 p))
      as (tracks & w2 & extra & Hrun' & Hp2 & Hextra & Hlen2 & Hids);
      [assumption | assumption | assumption | exact Hlen1 |].
    cbn [generatedTrackIdsInternal set_generatedTrackIdsInternal songAccess] in *.
    exists (track :: tracks), w2, (e1 ++ extra).
    simpl createTracks. rewrite (bind_run _ _ _ _ _ Hrun), (bind_run _ _ _ _ _ Hrun').
    rewrite app_assoc, <- Hpool1. repeat split.
    + exact Hp2.
    + simpl length. intros Hfit. rewrite He1 by lia.
      rewrite Hextra; [reflexivity|]. rewrite Hpool1, He1, app_nil_r by lia. lia.
    + simpl length. lia.
    + simpl length. simpl map. rewrite Hids.
      assert (Hk' : (pool1 ++ extra) !! k = Some (getId track)).
      { rewrite lookup_app_l by lia. exact Hid. }
      rewrite (drop_S _ _ _ Hk'). simpl. now rewrite Nat.add_1_r.
Qed.

(** ** The import of one track *)

Lemma bind_ret_inv {S A B} (m : M S A) (k : A -> M S B) (s s' : S) (b : B) :
  bind m k s = (Ret b, s') -> exists a s1, m s = (Ret a, s1) /\ k a s1 = (Ret b, s').
Proof.
  unfold bind. destruct (m s) as [[a|e] s1]; [eauto | discriminate].
Qed.

Lemma frames_run {X A} (proj : World -> X) (m : M World A) (w w' : World)
    (r : Outcome A) :
  frames_of proj m -> m w = (r, w') -> proj w' = proj w.
Proof. intros Hm Hrun. specialize (Hm w). now rewrite Hrun in Hm. Qed.

Lemma createTrack_push (type : TrackType) (rank : option Z) (w w' : World)
    (track : Track) :
  createTrack type None rank w = (Ret track, w') ->
  tracks (song w') = tracks (song w) ++ [track] /\ received track = [].
Proof.
  unfold createTrack. intros H.
  apply bind_ret_inv in H as (u & w1 & H1 & H).
  apply (frames_run _ _ _ _ _ (tracks_checkAccess _)) in H1.
  apply bind_ret_inv in H as (r & w2 & H2 & H).
  assert (Ht2 : tracks (song w2) = tracks (song w1)).
  { destruct rank; [|exact (frames_run _ _ _ _ _ tracks_getNextTrackRank H2)].
    unfold bind, modify, ret in H2. injection H2 as _ E. now rewrite <- E. }
  apply bind_ret_inv in H as (uuid & w3 & H3 & H).
  apply (frames_run _ _ _ _ _ tracks_getNextTrackId) in H3.
  unfold_monad. injection H as <- <-. simpl. split; [congruence | reflexivity].
Qed.

Lemma alter_last {A} (f : A -> A) (l : list A) (x : A) :
  alter f (length l) (l ++ [x]) = l ++ [f x].
Proof. induction l as [|y l IH]; simpl; [reflexivity | now f_equal]. Qed.

Lemma receive_all_snoc (cs : list TrackCall) (c : TrackCall) (t : Track) :
  receive c (receive_all cs t) = receive_all (cs ++ [c]) t.
Proof. unfold receive, receive_all. simpl. now rewrite app_assoc. Qed.

Lemma tell_last (l : list Track) (t : Track) (c : TrackCall) (w : World) :
  tracks (song w) = l ++ [t] ->
  exists w', tell (length l) c w = (Ret tt, w') /\
             tracks (song w') = l ++ [receive c t].
Proof.
  intros Hw. eexists. split; [reflexivity|]. simpl. rewrite Hw. apply alter_last.
Qed.

Lemma for_each_tell_last {A} (g : A -> TrackCall) (xs : list A) (l : list Track)
    (t : Track) (cs : list TrackCall) (w : World) :
  tracks (song w) = l ++ [receive_all cs t] ->
  exists w', for_each xs (fun x => tell (length l) (g x)) w = (Ret tt, w') /\
             tracks (song w') = l ++ [receive_all (cs ++ map g xs) t].
Proof.
  revert cs w. induction xs as [|x xs IH]; intros cs w Hw; simpl.
  - exists w. rewrite app_nil_r. split; [reflexivity | exact Hw].
  - destruct (tell_last l _ (g x) w Hw) as (w1 & Hrun & Hw1).
    rewrite (bind_run _ _ _ _ _ Hrun). rewrite receive_all_snoc in Hw1.
    destruct (IH _ w1 Hw1) as (w2 & Hrun2 & Hw2).
    exists w2. split; [exact Hrun2|]. rewrite Hw2, <- app_assoc. reflexivity.
Qed.

Lemma import_notes_last (insertOffset : Z) (ppqScaleFactor : Q) (xs : list MidiNote)
    (l : list Track) (t : Track) (cs : list TrackCall) (start : Z) (w : World) :
  tracks (song w) = l ++ [receive_all cs t] ->
  exists w',
    fold_each xs start (fun minStartTick note =>
      let* _ := tell (length l)
        (CreateNote (noteMidi note) (Math_round (noteVelocity note * 127))
           (insertOffset + scaleIntBy (noteTicks note) ppqScaleFactor)
           (insertOffset
            + scaleIntBy (noteTicks note + noteDurationTicks note) ppqScaleFactor)) in
      ret (Z.min minStartTick
             (insertOffset + scaleIntBy (noteTicks note) ppqScaleFactor))) w
    = (Ret (importedMinStartTick insertOffset ppqScaleFactor xs start), w') /\
    tracks (song w')
    = l ++ [receive_all (cs ++ map (importedNote insertOffset ppqScaleFactor) xs) t].
Proof.
  revert cs start w. induction xs as [|x xs IH]; intros cs start w Hw; simpl.
  - exists w. rewrite app_nil_r. split; [reflexivity | exact Hw].
  - destruct (tell_last l _ (importedNote insertOffset ppqScaleFactor x) w Hw)
      as (w1 & Hrun & Hw1).
    unfold importedNote in Hrun at 1.
    rewrite (bind_run _ _ _ _ _ (bind_run _ _ _ _ _ Hrun)). unfold ret at 1.
    rewrite receive_all_snoc in Hw1.
    destruct (IH _ (Z.min start
                      (insertOffset + scaleIntBy (noteTicks x) ppqScaleFactor)) w1 Hw1)
      as (w2 & Hrun2 & Hw2).
    exists w2. split; [exact Hrun2|]. rewrite Hw2, <- app_assoc. reflexivity.
Qed.

Lemma importAutomation_last (target : AutomationTargetType)
    (ccs : option (list MidiControlChange)) (insertOffset : Z) (ppqScaleFactor : Q)
    (l : list Track) (t : Track) (cs : list TrackCall) (w : World) :
  tracks (song w) = l ++ [receive_all cs t] ->
  exists w',
    importAutomation (length l) target ccs insertOffset ppqScaleFactor w = (Ret tt, w') /\
    tracks (song w')
    = l ++ [receive_all (cs ++ importedPoints target ccs insertOffset ppqScaleFactor) t].
Proof.
  intros Hw. destruct ccs as [ccs|]; simpl.
  - destruct (tell_last l _ (AddAutomation target) w Hw) as (w1 & Hrun & Hw1).
    rewrite (bind_run _ _ _ _ _ Hrun). rewrite receive_all_snoc in Hw1.
    destruct (for_each_tell_last
                (fun cc => AddPoint target
                             (insertOffset + scaleIntBy (ccTicks cc) ppqScaleFactor)
                             (ccValue cc)) ccs l t _ w1 Hw1) as (w2 & Hrun2 & Hw2).
    exists w2. split; [exact Hrun2|]. rewrite Hw2, <- app_assoc. reflexivity.
  - exists w. rewrite app_nil_r. split; [reflexivity | exact Hw].
Qed.

Lemma importTrack_calls (insertOffset : Z) (ppqScaleFactor : Q) (track : MidiTrack)
    (w w' : World) :
  importTrack insertOffset ppqScaleFactor track w = (Ret tt, w') ->
  exists t, tracks (song w') = tracks (song w) ++ [t] /\
            received t = importedCalls insertOffset ppqScaleFactor track.
Proof.
  unfold importTrack. intros H.
  apply bind_ret_inv in H as (t0 & w1 & Hcreate & H).
  apply createTrack_push in Hcreate as [Hw1 Ht0].
  unfold bind at 1, get at 1 in H. rewrite Hw1, length_app in H. simpl length in H.
  replace (length (tracks (song w)) + 1 - 1)%nat with (length (tracks (song w)))
    in H by lia.
  set (l := tracks (song w)) in *.
  assert (Hw1' : tracks (song w1) = l ++ [receive_all [] t0]).
  { rewrite Hw1. unfold receive_all. rewrite app_nil_r. now destruct t0. }
  destruct (tell_last l _ (SetInstrument (instrumentNumber track)
                             (instrumentPercussion track)) w1 Hw1') as (w2 & R2 & Hw2).
  rewrite (bind_run _ _ _ _ _ R2) in H. rewrite receive_all_snoc in Hw2.
  destruct (tell_last l _ (CreateMIDIClip insertOffset) w2 Hw2) as (w3 & R3 & Hw3).
  rewrite (bind_run _ _ _ _ _ R3) in H. rewrite receive_all_snoc in Hw3.
  destruct (import_notes_last insertOffset ppqScaleFactor (notes track) l t0 _
              MAX_SAFE_INTEGER w3 Hw3) as (w4 & R4 & Hw4).
  rewrite (bind_run _ _ _ _ _ R4) in H.
  destruct (importAutomation_last VOLUME (controlChanges track !! 7) insertOffset
              ppqScaleFactor l t0 _ w4 Hw4) as (w5 & R5 & Hw5).
  rewrite (bind_run _ _ _ _ _ R5) in H.
  destruct (importAutomation_last PAN (controlChanges track !! 10) insertOffset
              ppqScaleFactor l t0 _ w5 Hw5) as (w6 & R6 & Hw6).
  rewrite (bind_run _ _ _ _ _ R6) in H.
  unfold importedCalls. cbv zeta.
  destruct (negb (_ =? MAX_SAFE_INTEGER)).
  - destruct (tell_last l _ (AdjustClipLeft
                (importedMinStartTick insertOffset ppqScaleFactor (notes track)
                   MAX_SAFE_INTEGER)) w6 Hw6) as (w7 & R7 & Hw7).
    rewrite R7 in H. injection H as <-. rewrite receive_all_snoc in Hw7.
    eexists. split; [exact Hw7|]. simpl. rewrite Ht0. simpl.
    now rewrite <- !app_assoc.
  - unfold ret in H. injection H as <-.
    eexists. split; [exact Hw6|]. simpl. rewrite Ht0. simpl.
    now rewrite <- !app_assoc, app_nil_r.
Qed.

(** ** The import of a file *)

Lemma import_tracks_calls (insertOffset : Z) (ppqScaleFactor : Q)
    (mts : list MidiTrack) (w w' : World) :
  for_each mts (importTrack insertOffset ppqScaleFactor) w = (Ret tt, w') ->
  exists newTracks,
    tracks (song w') = tracks (song w) ++ newTracks /\
    Forall2 (fun track t => received t = importedCalls insertOffset ppqScaleFactor track)
      mts newTracks.
Proof.
  revert w. induction mts as [|track mts IH]; intros w H; simpl in H.
  - injection H as <-. exists []. rewrite app_nil_r. split; [reflexivity | constructor].
  - apply bind_ret_inv in H as ([] & w1 & H1 & H).
    apply importTrack_calls in H1 as (t & Hw1 & Ht).
    apply IH in H as (newTracks & Hw' & Hall).
    exists (t :: newTracks). split; [|constructor; assumption].
    rewrite Hw', Hw1, <- app_assoc. reflexivity.
Qed.

Lemma scaleIntBy_rescaled (sourceResolution insertOffset t : Z) :
  insertOffset + scaleIntBy t (480 / inject_Z sourceResolution)
  = rescaled 480 sourceResolution insertOffset t.
Proof.
  unfold rescaled, scaleIntBy. f_equal. apply Math_round_comp.
  change (inject_Z 480) with 480%Q. unfold Qdiv. ring.
Qed.

Lemma importedPoints_ticks (target target' : AutomationTargetType)
    (ccs : option (list MidiControlChange)) (insertOffset : Z) (ppqScaleFactor : Q) :
  omap (pointTickOf target) (importedPoints target' ccs insertOffset ppqScaleFactor)
  = if target_eqb target target' then
      map (fun cc => insertOffset + scaleIntBy (ccTicks cc) ppqScaleFactor)
        (match ccs with Some ccs => ccs | None => [] end)
    else [].
Proof.
  destruct ccs as [ccs|]; simpl; [|now destruct (target_eqb target target')].
  destruct (target_eqb target target') eqn:E;
    induction ccs as [|cc ccs IH]; simpl; rewrite ?E; simpl;
    try reflexivity; [f_equal|]; exact IH.
Qed.

Lemma importedPoints_no_notes (target : AutomationTargetType)
    (ccs : option (list MidiControlChange)) (insertOffset : Z) (ppqScaleFactor : Q) :
  omap noteTicksOf (importedPoints target ccs insertOffset ppqScaleFactor) = [].
Proof.
  destruct ccs as [ccs|]; simpl; [|reflexivity].
  induction ccs as [|cc ccs IH]; simpl; [reflexivity | exact IH].
Qed.

Lemma importedNotes_no_points (target : AutomationTargetType) (insertOffset : Z)
    (ppqScaleFactor : Q) (l : list MidiNote) :
  omap (pointTickOf target) (map (importedNote insertOffset ppqScaleFactor) l) = [].
Proof. induction l as [|x l IH]; simpl; [reflexivity | exact IH]. Qed.

Lemma importedNotes_ticks (insertOffset : Z) (ppqScaleFactor : Q) (l : list MidiNote) :
  omap noteTicksOf (map (importedNote insertOffset ppqScaleFactor) l)
  = map (fun note =>
           (insertOffset + scaleIntBy (noteTicks note) ppqScaleFactor,
            insertOffset
            + scaleIntBy (noteTicks note + noteDurationTicks note) ppqScaleFactor)) l.
Proof. induction l as [|x l IH]; simpl; [reflexivity | f_equal; exact IH]. Qed.

Lemma importedCalls_carry (sourceResolution insertOffset : Z) (track : MidiTrack)
    (t : Track) :
  received t = importedCalls insertOffset (480 / inject_Z sourceResolution) track ->
  carries_ticks (rescaled 480 sourceResolution insertOffset) track t.
Proof.
  intros Ht. unfold carries_ticks, getNoteTicks, getPointTicks, controlChangesOf.
  rewrite Ht. unfold importedCalls. cbv zeta.
  set (adjust := if negb _ then _ else _).
  assert (Ha : omap noteTicksOf adjust = [] /\
               forall target, omap (pointTickOf target) adjust = []).
  { subst adjust. destruct (negb _); split; reflexivity. }
  destruct Ha as [Han Hap].
  rewrite !omap_app, !importedPoints_ticks, !importedPoints_no_notes,
    !importedNotes_no_points, importedNotes_ticks, Han, !Hap.
  simpl. rewrite !app_nil_r. repeat split.
  - apply map_ext. intros note. now rewrite !scaleIntBy_rescaled.
  - apply map_ext. intros cc. now rewrite scaleIntBy_rescaled.
  - apply map_ext. intros cc. now rewrite scaleIntBy_rescaled.
Qed.

(** The tempo operations change the tempo sequence only. *)
Lemma createTempoChange_only_tempos (ticks : Z) (bpm : Q) (s : Song) :
  exists l, snd (createTempoChange ticks bpm s) = set_tempos (fun _ => l) s.
Proof.
  assert (Hid : s = set_tempos (fun _ => tempos s) s) by now destruct s.
  destruct (Z_le_gt_dec (PPQ s) 0) as [HR|HR].
  { rewrite createTempoChange_no_resolution by assumption. eauto. }
  destruct (tempos s) as [|e0 l0] eqn:Hl; [destruct (Z.eq_dec ticks 0) as [Ht|Ht]|].
  - destruct (createTempoChange_run ticks bpm s) as (t & l' & _ & _ & ->);
      [lia | now right | eauto].
  - rewrite createTempoChange_first_not_zero by (assumption || lia).
    exists []. exact Hid.
  - destruct (createTempoChange_run ticks bpm s) as (t & l' & _ & _ & ->);
      [lia | left; congruence | eauto].
Qed.

Lemma overwriteTempoChanges_only_tempos (evs : list TempoEvent) (s : Song) :
  exists l, snd (overwriteTempoChanges evs s) = set_tempos (fun _ => l) s.
Proof.
  assert (Hid : s = set_tempos (fun _ => tempos s) s) by now destruct s.
  destruct evs as [|x evs]; [simpl; eauto|].
  destruct (sort_by_cons getTicks x evs) as (first & rest & Hsort).
  destruct (Z_lt_le_dec 0 (getTicks first)) as [Hlt|Hle].
  - rewrite (overwriteTempoChanges_late _ _ _ _ Hsort Hlt). simpl. eauto.
  - rewrite (overwriteTempoChanges_run _ _ _ _ Hsort Hle).
    apply (for_each_preserves (fun s' => exists l, s' = set_tempos (fun _ => l) s));
      [|eauto].
    intros y _ s0 [l0 ->]. rewrite insert_step_snd.
    destruct (createTempoChange_only_tempos (getTicks y) (getBpm y)
                (set_tempos (fun _ => l0) s)) as [l ->]. eauto.
Qed.

(** * The claims *)

(** C9. [createTempoChange] throws exactly when the resolution is not set
    (the PPQ is not at least 1) or the tempo sequence is empty and the tick
    asked for is not 0; a call that throws leaves the song, and so its
    tempo sequence, as it was. *)
Theorem createTempoChange_throws_iff (ticks : Z) (bpm : Q) (s : Song) :
  ((exists e, fst (createTempoChange ticks bpm s) = Throw e)
   <-> (~ 1 <= PPQ s \/ (tempos s = [] /\ ticks <> 0)))
  /\ (forall e, fst (createTempoChange ticks bpm s) = Throw e ->
                snd (createTempoChange ticks bpm s) = s).
Proof.
  destruct (Z_le_gt_dec (PPQ s) 0) as [HR|HR].
  - rewrite createTempoChange_no_resolution by assumption. simpl.
    split; [split; [intros _; left; lia | eauto] | reflexivity].
  - destruct (tempos s) as [|e0 l] eqn:Hl.
    + destruct (Z.eq_dec ticks 0) as [->|Ht].
      * destruct (createTempoChange_run 0 bpm s) as (t & l' & _ & _ & ->);
          [lia | now right |]. simpl.
        split; [|discriminate].
        split; [intros [e He]; discriminate | intros [H|[_ H]]; [lia | congruence]].
      * rewrite createTempoChange_first_not_zero by (assumption || lia). simpl.
        split; [split; [intros _; right; split; auto | eauto] | reflexivity].
    + destruct (createTempoChange_run ticks bpm s) as (t & l' & _ & _ & ->);
        [lia | left; congruence |]. simpl.
      split; [|discriminate].
      split; [intros [e He]; discriminate | intros [H|[H _]]; [lia | congruence]].
Qed.

Lemma createTempoChange_throws_iff_witness :
  snd (createTempoChange 5 120 newSong) = newSong.
Proof.
  apply (proj2 (createTempoChange_throws_iff 5 120 newSong)
           (Error "Song resolution must be provided before creating tempo changes.")).
  reflexivity.
Defined.

(** C2, as amended. On a song whose resolution is set and whose tempo
    sequence is sorted by tick from tick 0 and has an event at tick [t],
    [createTempoChange] at tick [t] returns, every event of the sequence
    is kept, in order, and the new event is ordered before every event
    already at tick [t]. *)
Theorem createTempoChange_tie_before (ticks : Z) (bpm : Q) (s : Song) :
  0 < PPQ s -> sorted (tempos s) -> starts_at_zero (tempos s) ->
  (exists e, e ∈ tempos s /\ getTicks e = ticks) ->
  exists r s',
    createTempoChange ticks bpm s = (Ret r, s') /\
    placed_before_ties (tempos s) ticks bpm (tempos s').
Proof.
  intros HR Hs H0 (e & He & Hticks).
  pose proof (sorted_nonneg _ Hs H0) as Hnn.
  pose proof (proj1 (Forall_forall _ _) Hnn e He) as Hge. simpl in Hge.
  destruct (createTempoChange_sorted ticks bpm s)
    as (t & l1 & new & l2 & Hrun & H1 & [Hnt Hnb] & H2 & _); try assumption.
  { lia. }
  { left. intros Hnil. rewrite Hnil in He. inversion He. }
  eexists _, _. split; [exact Hrun|]. simpl.
  exists l1, new, l2. repeat split.
  - now rewrite <- Hnt.
  - now rewrite <- Hnb.
  - rewrite <- (before_from ticks (tempos s)) at 1. now apply Forall2_app.
  - pose proof (before_below ticks (tempos s)) as Hb.
    clear - H1 Hb. induction H1 as [|a b la lb [Hab _] _ IH]; [constructor|].
    apply Forall_cons in Hb as [Ha Hb]. constructor; [lia | auto].
Qed.

Lemma createTempoChange_tie_before_witness :
  exists r s',
    createTempoChange 0 100 one_tempo_song = (Ret r, s') /\
    placed_before_ties (tempos one_tempo_song) 0 100 (tempos s').
Proof.
  apply (createTempoChange_tie_before 0 100 one_tempo_song).
  - simpl. lia.
  - repeat constructor.
  - reflexivity.
  - exists (mkTempoEvent 0 120 0). split; [apply list_elem_of_here | reflexivity].
Defined.

(** C2, as stated, fails: a new event at the tick of an event of the
    sequence is not ordered after it. *)
Lemma createTempoChange_tie_after_counterexample :
  ~ placed_after_ties (tempos one_tempo_song) 0 100
      (tempos (snd (createTempoChange 0 100 one_tempo_song))).
Proof.
  vm_compute. intros (l1 & new & l2 & Hl & Ht & Hb & Hsame & Hafter).
  destruct l1 as [|a l1].
  - simpl in Hl. injection Hl as <- <-.
    apply Forall_cons in Hafter as [Hafter _]. now apply Hafter.
  - simpl in Hl. injection Hl as <- Hl.
    destruct l1 as [|b l1]; [|destruct l1; discriminate].
    simpl in Hl. injection Hl as <- <-. simpl in Hb. discriminate.
Qed.

(** C5, as amended. When the input has no negative tick and has an event
    at tick 0, the first event stored after [overwriteTempoChanges] has
    tick 0 and time 0, whatever ticks and times the input carried, and it
    carries the BPM of an input event at tick 0 (so of the earliest input
    event when that is the only one at tick 0). [overwriteTempoChanges]
    throws, leaving the song as it was, when the input is empty and when
    every input tick is greater than 0. *)
Theorem overwriteTempoChanges_first (evs : list TempoEvent) (s : Song) :
  (Forall (fun x => 0 <= getTicks x) evs ->
   (exists x, x ∈ evs /\ getTicks x = 0) ->
   exists e l,
     tempos (snd (overwriteTempoChanges evs s)) = e :: l /\
     getTicks e = 0 /\ getTime e = 0%Q /\
     exists x, x ∈ evs /\ getTicks x = 0 /\ getBpm e = getBpm x)
  /\ overwriteTempoChanges [] s
     = (Throw (Error "Cannot clear all the tempo events."), s)
  /\ (evs <> [] -> Forall (fun x => 0 < getTicks x) evs ->
      overwriteTempoChanges evs s
      = (Throw (Error "The first tempo event needs to start from tick 0"), s)).
Proof.
  split; [|split; [reflexivity|]].
  - intros Hnn (x0 & Hx0 & Hx00).
    destruct evs as [|y evs]; [inversion Hx0|].
    destruct (sort_by_cons getTicks y evs) as (first & rest & Hsort).
    pose proof (sort_by_perm getTicks (y :: evs)) as Hperm.
    pose proof (sort_by_is_sorted getTicks (y :: evs)) as Hsorted.
    rewrite Hsort in Hperm, Hsorted.
    assert (Hnn' : Forall (fun x => 0 <= getTicks x) (first :: rest))
      by now rewrite Hperm.
    assert (Hx0' : x0 ∈ first :: rest) by now rewrite Hperm.
    apply StronglySorted_inv in Hsorted as [_ Hmin].
    apply Forall_cons in Hnn' as [Hf0 Hrest].
    assert (Hfirst : getTicks first = 0).
    { apply elem_of_cons in Hx0' as [->|Hin]; [exact Hx00|].
      pose proof (proj1 (Forall_forall _ _) Hmin x0 Hin). simpl in *. lia. }
    rewrite (overwriteTempoChanges_run _ _ _ _ Hsort) by lia.
    set (P := fun b => exists x, x ∈ y :: evs /\ getTicks x = 0 /\ b = getBpm x).
    destruct (insert_each_head P rest
                (set_tempos (fun _ => [mkTempoEvent 0 (getBpm first) 0]) s))
      as (e & l & Hl & He0 & Het & HP).
    + repeat constructor.
    + exists (mkTempoEvent 0 (getBpm first) 0), []. repeat split.
      exists first. repeat split; [|exact Hfirst].
      rewrite <- Hperm. apply list_elem_of_here.
    + apply Forall_forall. intros x Hx. split.
      * exact (proj1 (Forall_forall _ _) Hrest x Hx).
      * intros Hxz. exists x. repeat split; [|exact Hxz].
        rewrite <- Hperm. now apply list_elem_of_further.
    + exists e, l. repeat split; assumption.
  - intros Hne Hpos. destruct evs as [|y evs]; [congruence|].
    destruct (sort_by_cons getTicks y evs) as (first & rest & Hsort).
    apply (overwriteTempoChanges_late _ _ _ _ Hsort).
    assert (Hin : first ∈ y :: evs).
    { rewrite <- (sort_by_perm getTicks), Hsort. apply list_elem_of_here. }
    exact (proj1 (Forall_forall _ _) Hpos first Hin).
Qed.

Lemma overwriteTempoChanges_first_witness :
  exists e l,
    tempos (snd (overwriteTempoChanges two_tempos_at_zero one_tempo_song)) = e :: l /\
    getTicks e = 0 /\ getTime e = 0%Q /\
    exists x, x ∈ two_tempos_at_zero /\ getTicks x = 0 /\ getBpm e = getBpm x.
Proof.
  apply (proj1 (overwriteTempoChanges_first two_tempos_at_zero one_tempo_song)).
  - repeat constructor; simpl; lia.
  - exists (mkTempoEvent 0 120 5). split; [apply list_elem_of_here | reflexivity].
Defined.

(** C5, as stated, fails: with two input events at tick 0 the first stored
    event carries the BPM of the second one, not of the earliest. *)
Lemma overwriteTempoChanges_first_counterexample :
  ~ first_carries_earliest_bpm two_tempos_at_zero
      (tempos (snd (overwriteTempoChanges two_tempos_at_zero one_tempo_song))).
Proof.
  intros (first & rest & e & l & Hsort & Hstored & Hbpm).
  vm_compute in Hsort, Hstored.
  injection Hsort as <- _. injection Hstored as <- _.
  vm_compute in Hbpm. discriminate.
Qed.

(** C6, as amended. In every reachable state the tempo sequence, when not
    empty, starts at tick 0, is sorted by tick (two events may share a
    tick), holds positive tempos, and each stored time is the one
    [tickToSecondsImpl] derives, which is the integration of the segments
    before the event. [createTempoChange], [overwriteTempoChanges],
    [updateTempo] and [importMIDI], like the other operations, keep this
    invariant when given ticks that are not negative and positive tempos,
    whether they return or throw. *)
Theorem tempo_invariant :
  (forall w, reachable w -> tempo_inv (song w))
  /\ (forall s, tempo_inv s -> times_integrated s)
  /\ (forall w op, tempo_inv (song w) -> valid_op w op ->
                   tempo_inv (song (snd (run_op op w)))).
Proof.
  split; [|split].
  - induction 1 as [ps src n|w op _ IH Hop];
      [exact newSong_inv | now apply run_op_inv].
  - exact tempo_inv_integrated.
  - exact run_op_inv.
Qed.

Lemma tempo_invariant_witness :
  tempo_inv (song two_changes_at_zero)
  /\ times_integrated (song two_changes_at_zero).
Proof.
  assert (H : tempo_inv (song two_changes_at_zero)).
  { apply (proj1 tempo_invariant). unfold two_changes_at_zero.
    apply reachable_step; [|simpl; split; [lia | reflexivity]].
    apply reachable_step; [|simpl; split; [lia | reflexivity]].
    apply reachable_step; [|reflexivity].
    apply reachable_new. }
  split; [exact H | exact (proj1 (proj2 tempo_invariant) _ H)].
Defined.

(** C6, as stated, fails: two tempo changes at tick 0 leave two events at
    one tick in a reachable state. *)
Lemma tempo_invariant_counterexample :
  reachable two_changes_at_zero /\ ~ no_duplicate_ticks (song two_changes_at_zero).
Proof.
  split.
  - unfold two_changes_at_zero.
    apply reachable_step; [|simpl; split; [lia | reflexivity]].
    apply reachable_step; [|simpl; split; [lia | reflexivity]].
    apply reachable_step; [|reflexivity].
    apply reachable_new.
  - unfold no_duplicate_ticks. vm_compute. intros H.
    apply NoDup_cons in H as [H _]. apply H. apply list_elem_of_here.
Qed.
(** C7. On a song in a state of the engine with exactly one tempo event
    (then at tick 0 and time 0), of tempo [B], and with the resolution [R]
    set, [tickToSeconds t] is [t * 60 / (B * R)] for every tick [t] that is
    not negative (the equality is the one of exact arithmetic: rounding of
    doubles is outside the model); and [tickToSeconds 0] is 0 on every
    song. *)
Theorem tickToSeconds_constant_tempo (s : Song) (e : TempoEvent) (t : Z) :
  (tempo_inv s -> tempos s = [e] -> 1 <= PPQ s -> 0 <= t ->
   exists q, tickToSeconds s t = Ret q /\
             (q == inject_Z t * 60 / (getBpm e * inject_Z (PPQ s)))%Q)
  /\ tickToSeconds s 0 = Ret 0%Q.
Proof.
  split; [|reflexivity].
  intros Hinv Hl HR Ht. pose proof Hinv as [Hs H0 _ Htimed].
  unfold tickToSeconds, getTempoChanges, getResolution.
  rewrite tickToSecondsImpl_sorted by assumption.
  destruct (Z.eq_dec t 0) as [->|Hnz].
  - exists 0%Q. split; [reflexivity|]. unfold Qdiv. ring.
  - destruct (time_at_positive_tick t (tempos s) (PPQ s))
      as (p & b & _ & Hin & _ & ->); [rewrite Hl; discriminate | exact H0 | lia |].
    eexists. split; [reflexivity|].
    assert (Hbe : b = e).
    { rewrite Hl in Hin. apply elem_of_cons in Hin as [->|Hin]; [reflexivity|].
      inversion Hin. }
    subst b. unfold segment_time.
    rewrite Hl in H0, Htimed. simpl in H0.
    rewrite (timed_zero _ _ e Htimed (list_elem_of_here _ _) H0), H0.
    rewrite ticks_per_second_inv, Z.sub_0_r. ring.
Qed.

Lemma tickToSeconds_constant_tempo_witness :
  exists q, tickToSeconds one_tempo_song 960 = Ret q /\
            (q == inject_Z 960 * 60 / (120 * inject_Z 480))%Q.
Proof.
  apply (proj1 (tickToSeconds_constant_tempo one_tempo_song (mkTempoEvent 0 120 0) 960)).
  - constructor; simpl; repeat constructor.
  - reflexivity.
  - simpl. lia.
  - lia.
Defined.






(** C3. A plugin instance whose capability set has [createTrack] runs: the
    context is set by [setPluginContextInternal], then [N] tracks are
    created. The run returns; and a second run of [N] creations, from any
    world that kept the plugin instance as the first run left it, with the
    context set anew, returns tracks with the same [N] identifiers in the
    same order. And a [createTrack] whose context counter exceeds the size
    of the pool throws 'Plugin generated track ids out of sync.'. *)
Theorem plugin_rerun_same_ids (p : PluginRef) (plug : TuneflowPlugin) (w : World) :
  (plugins w !! p = Some plug -> truthy (songAccess plug !! "createTrack") = true ->
   forall calls1, exists tracks1 w1,
     plugin_run p calls1 w = (Ret tracks1, w1) /\
     forall w2 calls2,
       plugins w2 !! p = plugins w1 !! p -> length calls2 = length calls1 ->
       exists tracks2 w3,
         plugin_run p calls2 w2 = (Ret tracks2, w3) /\
         map getId tracks2 = map getId tracks1)
  /\ (forall ctx type index rank,
        pluginContext (song w) = Some ctx -> plugins w !! plugin ctx = Some plug ->
        truthy (songAccess plug !! "createTrack") = true ->
        (length (generatedTrackIdsInternal plug) < numTracksCreatedByPlugin ctx)%nat ->
        fst (createTrack type index rank w)
        = Throw (Error "Plugin generated track ids out of sync.")).
Proof.
  split; [|intros ctx type index rank; apply createTrack_out_of_sync].
  intros Hp Hacc calls1.
  destruct (createTracks_ids calls1
              (set_song (set_pluginContext (Some (mkPluginContext p 0%nat))) w) p 0 plug)
    as (tracks1 & w1 & extra1 & Hrun1 & Hp1 & _ & Hlen1 & Hids1);
    [reflexivity | exact Hp | exact Hacc | lia |].
  exists tracks1, w1. split; [exact Hrun1|].
  intros w2 calls2 Hkept Hlen.
  set (pool1 := generatedTrackIdsInternal plug ++ extra1) in *.
  destruct (createTracks_ids calls2
              (set_song (set_pluginContext (Some (mkPluginContext p 0%nat))) w2) p 0
              (set_generatedTrackIdsInternal pool1 plug))
    as (tracks2 & w3 & extra2 & Hrun2 & _ & Hextra2 & _ & Hids2);
    [reflexivity | simpl; congruence | exact Hacc | lia |].
  exists tracks2, w3. split; [exact Hrun2|].
  cbn [generatedTrackIdsInternal set_generatedTrackIdsInternal] in *.
  rewrite Hextra2, app_nil_r in Hids2 by (rewrite Hlen; exact Hlen1).
  rewrite Hids1, Hids2, Hlen. reflexivity.
Qed.

Lemma plugin_rerun_same_ids_witness :
  exists tracks1 w1,
    plugin_run 0%nat two_tracks maker_world = (Ret tracks1, w1) /\
    forall w2 calls2,
      plugins w2 !! 0%nat = plugins w1 !! 0%nat -> length calls2 = length two_tracks ->
      exists tracks2 w3,
        plugin_run 0%nat calls2 w2 = (Ret tracks2, w3) /\
        map getId tracks2 = map getId tracks1.
Proof.
  apply (proj1 (plugin_rerun_same_ids 0%nat maker_plugin maker_world)).
  - reflexivity.
  - reflexivity.
Defined.



(** C4, as stated, fails: under the context of a plugin that declares no
    capability and whose class keeps the base [providerId], [createTrack]
    does not throw a 'missing capability' error naming a plugin id, it
    throws 'providerId() should be overwritten.'. *)
Lemma createTrack_removeTrack_gate_counterexample :
  pluginContext (song base_world) = Some (mkPluginContext 0%nat 0%nat)
  /\ plugins base_world !! 0%nat = Some base_plugin
  /\ truthy (songAccess base_plugin !! "createTrack") = false
  /\ fst (createTrack MIDI_TRACK None None base_world)
     = Throw (Error "providerId() should be overwritten.")
  /\ forall e, fst (createTrack MIDI_TRACK None None base_world) = Throw e ->
               ~ missing_capability_error "createTrack" e.
Proof.
  split; [reflexivity|]. split; [reflexivity|]. split; [reflexivity|].
  split; [reflexivity|].
  intros e He [id Hid]. subst e. vm_compute in He. discriminate.
Qed.

(** C10. Under a context whose plugin declares [removeTrack]: when no track
    of the song has the identifier, [removeTrack] returns null and the
    world, so the track list, is as before; when a track has it, the first
    such track is returned and the track list is the former one without
    that one track, the others in their order. *)
Theorem removeTrack_splices (w : World) (ctx : PluginContext) (p : TuneflowPlugin)
    (trackId : string) :
  pluginContext (song w) = Some ctx -> plugins w !! plugin ctx = Some p ->
  truthy (songAccess p !! "removeTrack") = true ->
  (Forall (fun t => getId t <> trackId) (tracks (song w)) ->
   removeTrack trackId w = (Ret None, w))
  /\ (forall l1 t l2,
        tracks (song w) = l1 ++ t :: l2 ->
        Forall (fun t' => getId t' <> trackId) l1 -> getId t = trackId ->
        removeTrack trackId w
        = (Ret (Some t), set_song (set_tracks (fun _ => l1 ++ l2)) w)).
Proof.
  intros Hctx Hp Hacc.
  assert (Hneq : forall l, Forall (fun t => getId t <> trackId) l ->
                           Forall (fun t => String.eqb (getId t) trackId = false) l).
  { intros l Hl. eapply Forall_impl; [exact Hl|]. intros t Ht.
    now apply String.eqb_neq. }
  split.
  - intros Hnone. unfold removeTrack.
    rewrite (bind_run _ _ _ _ _ (checkAccess_granted _ w ctx p Hctx Hp Hacc)).
    unfold_monad. unfold getTrackById. now rewrite find_none by auto.
  - intros l1 t l2 Hl H1 Ht. unfold removeTrack.
    rewrite (bind_run _ _ _ _ _ (checkAccess_granted _ w ctx p Hctx Hp Hacc)).
    unfold_monad. unfold getTrackById. rewrite Hl.
    destruct (find_first (fun track => String.eqb (getId track) trackId) l1 l2 t)
      as [Hfind Hindex]; [auto | now apply String.eqb_eq |].
    rewrite Hfind. cbv beta iota. f_equal.
    unfold set_song, set_tracks. simpl. rewrite Hl, Hindex, splice_delete.
    reflexivity.
Qed.

Lemma removeTrack_splices_witness :
  removeTrack "zz" three_tracks_world = (Ret None, three_tracks_world)
  /\ removeTrack "b" three_tracks_world
     = (Ret (Some (mkTrack "b" AUDIO_TRACK 2 [])),
        set_song (set_tracks (fun _ =>
          [mkTrack "a" MIDI_TRACK 1 []] ++ [mkTrack "c" MIDI_TRACK 3 []]))
          three_tracks_world).
Proof.
  split.
  - apply (proj1 (removeTrack_splices three_tracks_world (mkPluginContext 0%nat 3%nat)
                    (set_generatedTrackIdsInternal ["a"; "b"; "c"] maker_plugin) "zz"
                    eq_refl eq_refl eq_refl)).
    repeat constructor; discriminate.
  - apply (proj2 (removeTrack_splices three_tracks_world (mkPluginContext 0%nat 3%nat)
                    (set_generatedTrackIdsInternal ["a"; "b"; "c"] maker_plugin) "b"
                    eq_refl eq_refl eq_refl)
             [mkTrack "a" MIDI_TRACK 1 []] (mkTrack "b" AUDIO_TRACK 2 [])
             [mkTrack "c" MIDI_TRACK 3 []]).
    + reflexivity.
    + repeat constructor; discriminate.
    + reflexivity.
Defined.

(** * Further properties of the song *)

(** ** The timeline *)



Lemma retime_loop_timed (resolution : Z) (todo done : list TempoEvent) :
  Forall (fun e => tickToSecondsImpl (getTicks e) (done ++ todo) resolution
                   = Ret (getTime e)) todo ->
  retime_loop resolution done todo = (Ret tt, done ++ todo).
Proof.
  revert done. induction todo as [|e rest IH]; intros done H; simpl.
  - now rewrite app_nil_r.
  - apply Forall_cons in H as [He Hrest]. rewrite He.
    replace (setTimeInternal e (getTime e)) with e by now destruct e.
    rewrite IH; rewrite <- app_assoc; [reflexivity | exact Hrest].
Qed.

Lemma retimingTempoEvents_fixpoint (s : Song) :
  tempo_inv s -> retimingTempoEvents s = (Ret tt, s).
Proof.
  intros [Hs _ _ Ht]. unfold retimingTempoEvents. unfold_monad.
  unfold getResolution. simpl. rewrite sort_by_sorted by assumption.
  rewrite (retime_loop_timed (PPQ s) (tempos s) []); [now destruct s | exact Ht].
Qed.

Lemma alter_same_bpm (i : nat) (b : Q) (l : list TempoEvent) :
  (forall e, l !! i = Some e -> getBpm e = b) ->
  alter (fun e => setBpmInternal e b) i l = l.
Proof.
  revert i. induction l as [|x l IH]; intros [|i] H; simpl; try reflexivity.
  - f_equal. rewrite <- (H x eq_refl). now destruct x.
  - f_equal. apply IH. exact H.
Qed.

(** X2. The derivation of the times is idempotent: on a song in an engine
    state [updateTempo], called with the BPM the event already has (or for
    an event that is not the song's), returns and leaves the song exactly
    as it was. *)
Theorem updateTempo_same_bpm (s : Song) (tempoEvent : nat) (newBPM : Q) :
  tempo_inv s ->
  (forall e, tempos s !! tempoEvent = Some e -> getBpm e = newBPM) ->
  updateTempo tempoEvent newBPM s = (Ret tt, s).
Proof.
  intros Hinv Hbpm. unfold updateTempo. unfold_monad.
  replace (set_tempos _ s) with s.
  - now apply retimingTempoEvents_fixpoint.
  - unfold set_tempos. rewrite alter_same_bpm by assumption. now destruct s.
Qed.

Lemma updateTempo_same_bpm_witness :
  updateTempo 1 60 two_tempo_song = (Ret tt, two_tempo_song).
Proof.
  apply (updateTempo_same_bpm two_tempo_song 1 60).
  - constructor; simpl.
    + repeat constructor; simpl; lia.
    + reflexivity.
    + repeat constructor.
    + repeat constructor; vm_compute; reflexivity.
  - intros e He. injection He as <-. reflexivity.
Defined.

Lemma same_event_tick_and_bpm (l l' : list TempoEvent) :
  Forall2 same_event l l' -> map tick_and_bpm l = map tick_and_bpm l'.
Proof.
  induction 1 as [|a b l l' [Ht Hb] _ IH]; simpl; [reflexivity|].
  unfold tick_and_bpm at 1 3. now rewrite Ht, Hb, IH.
Qed.

Lemma insert_each_all (rest : list TempoEvent) (s : Song) :
  0 < PPQ s -> sorted (tempos s) -> starts_at_zero (tempos s) -> tempos s <> [] ->
  Forall (fun x => 0 <= getTicks x) rest ->
  exists l, insert_each rest s = (Ret tt, set_tempos (fun _ => l) s) /\
            map tick_and_bpm l ≡ₚ map tick_and_bpm (tempos s ++ rest) /\
            sorted l /\ starts_at_zero l /\ l <> [].
Proof.
  revert s. induction rest as [|x rest IH]; intros s HR Hs H0 Hne Hrest.
  - exists (tempos s). rewrite app_nil_r.
    split; [simpl; unfold ret; now destruct s|].
    repeat split; try assumption. reflexivity.
  - apply Forall_cons in Hrest as [Hx Hrest].
    destruct (createTempoChange_sorted (getTicks x) (getBpm x) s)
      as (t & l1 & new & l2 & Hrun & H1 & Hn & H2 & Hs' & H0' & _);
      [assumption .. | now left |].
    destruct (IH (set_tempos (fun _ => l1 ++ new :: l2) s))
      as (l & Hrun' & Hperm & Hsl & H0l & Hnel); simpl; try assumption.
    { now destruct l1. }
    exists l. split; [|repeat split; try assumption].
    + unfold insert_each in *. simpl for_each.
      rewrite (bind_run _ _ _ _ _ (bind_run _ _ _ _ _ Hrun)). unfold ret at 1.
      exact Hrun'.
    + rewrite Hperm. simpl tempos.
      assert (Hnew : tick_and_bpm new = tick_and_bpm x).
      { destruct Hn as [Hnt Hnb]. unfold tick_and_bpm. simpl in *. congruence. }
      transitivity (map tick_and_bpm (x :: tempos s) ++ map tick_and_bpm rest).
      * rewrite (map_app _ (l1 ++ new :: l2)). apply Permutation_app_tail.
        rewrite map_app. simpl map.
        rewrite <- (same_event_tick_and_bpm _ _ H1),
          <- (same_event_tick_and_bpm _ _ H2), Hnew, <- map_cons, <- map_app.
        change (tick_and_bpm x :: map tick_and_bpm (tempos s))
          with (map tick_and_bpm (x :: tempos s)).
        apply Permutation_map.
        rewrite <- (before_from (getTicks x) (tempos s)) at 3.
        symmetry. apply Permutation_middle.
      * rewrite <- map_app. apply Permutation_map. simpl. apply Permutation_middle.
Qed.

(** X3. With the resolution set, [overwriteTempoChanges] of a list whose
    ticks are not negative and which has an event at tick 0 returns, and
    the stored sequence is sorted by tick and holds the input events, each
    with its tick and tempo, none lost and none added; the times of the
    input are not looked at. *)
Theorem overwriteTempoChanges_keeps_all (evs : list TempoEvent) (s : Song) :
  0 < PPQ s -> Forall (fun x => 0 <= getTicks x) evs ->
  (exists x, x ∈ evs /\ getTicks x = 0) ->
  exists l,
    overwriteTempoChanges evs s = (Ret tt, set_tempos (fun _ => l) s) /\
    map tick_and_bpm l ≡ₚ map tick_and_bpm evs /\ sorted l.
Proof.
  intros HR Hnn (x0 & Hx0 & Hx00).
  destruct evs as [|y evs]; [inversion Hx0|].
  destruct (sort_by_cons getTicks y evs) as (first & rest & Hsort).
  pose proof (sort_by_perm getTicks (y :: evs)) as Hperm.
  pose proof (sort_by_is_sorted getTicks (y :: evs)) as Hsorted.
  rewrite Hsort in Hperm, Hsorted.
  assert (Hnn' : Forall (fun x => 0 <= getTicks x) (first :: rest)) by now rewrite Hperm.
  assert (Hx0' : x0 ∈ first :: rest) by now rewrite Hperm.
  apply StronglySorted_inv in Hsorted as [_ Hmin].
  apply Forall_cons in Hnn' as [Hf0 Hrest].
  assert (Hfirst : getTicks first = 0).
  { apply elem_of_cons in Hx0' as [->|Hin]; [exact Hx00|].
    pose proof (proj1 (Forall_forall _ _) Hmin x0 Hin). simpl in *. lia. }
  rewrite (overwriteTempoChanges_run _ _ _ _ Hsort) by lia.
  destruct (insert_each_all rest
              (set_tempos (fun _ => [mkTempoEvent 0 (getBpm first) 0]) s))
    as (l & Hrun & Hp & Hsl & _ & _); simpl; try assumption.
  { repeat constructor. }
  { reflexivity. }
  { discriminate. }
  exists l. split; [exact Hrun|]. split; [|exact Hsl].
  transitivity (map tick_and_bpm (first :: rest));
    [|exact (Permutation_map tick_and_bpm Hperm)].
  rewrite Hp. simpl. unfold tick_and_bpm at 1 3. simpl.
  now rewrite Hfirst.
Qed.

Lemma overwriteTempoChanges_keeps_all_witness :
  exists l,
    overwriteTempoChanges two_tempos_at_zero one_tempo_song
    = (Ret tt, set_tempos (fun _ => l) one_tempo_song) /\
    map tick_and_bpm l ≡ₚ map tick_and_bpm two_tempos_at_zero /\ sorted l.
Proof.
  apply (overwriteTempoChanges_keeps_all two_tempos_at_zero one_tempo_song).
  - simpl. lia.
  - repeat constructor; simpl; lia.
  - exists (mkTempoEvent 0 120 5). split; [apply list_elem_of_here | reflexivity].
Defined.

(** X4. On a song whose resolution is not set, [overwriteTempoChanges] of
    two or more events (ticks not negative, one at tick 0) throws the
    'resolution' error of [createTempoChange], and the tempo sequence has
    by then been replaced by the single event at tick 0 and time 0; of one
    event it returns, the resolution not being needed. *)
Theorem overwriteTempoChanges_without_resolution (evs : list TempoEvent) (s : Song) :
  PPQ s <= 0 -> Forall (fun x => 0 <= getTicks x) evs ->
  (exists x, x ∈ evs /\ getTicks x = 0) ->
  exists e,
    getTicks e = 0 /\ getTime e = 0%Q /\
    overwriteTempoChanges evs s
    = (if (length evs =? 1)%nat then Ret tt
       else Throw (Error
              "Song resolution must be provided before creating tempo changes."),
       set_tempos (fun _ => [e]) s).
Proof.
  intros HR Hnn (x0 & Hx0 & Hx00).
  destruct evs as [|y evs]; [inversion Hx0|].
  destruct (sort_by_cons getTicks y evs) as (first & rest & Hsort).
  pose proof (sort_by_perm getTicks (y :: evs)) as Hperm.
  pose proof (sort_by_is_sorted getTicks (y :: evs)) as Hsorted.
  rewrite Hsort in Hperm, Hsorted.
  assert (Hnn' : Forall (fun x => 0 <= getTicks x) (first :: rest)) by now rewrite Hperm.
  assert (Hx0' : x0 ∈ first :: rest) by now rewrite Hperm.
  apply StronglySorted_inv in Hsorted as [_ Hmin].
  apply Forall_cons in Hnn' as [Hf0 _].
  assert (Hfirst : getTicks first = 0).
  { apply elem_of_cons in Hx0' as [->|Hin]; [exact Hx00|].
    pose proof (proj1 (Forall_forall _ _) Hmin x0 Hin). simpl in *. lia. }
  rewrite (overwriteTempoChanges_run _ _ _ _ Hsort) by lia.
  exists (mkTempoEvent 0 (getBpm first) 0). split; [reflexivity|]. split; [reflexivity|].
  apply Permutation_length in Hperm. simpl in Hperm.
  destruct rest as [|x rest]; simpl in Hperm.
  - destruct evs; [reflexivity | discriminate].
  - destruct evs as [|z evs]; [discriminate|]. simpl.
    unfold insert_each. simpl for_each.
    set (s0 := set_tempos _ s).
    rewrite (bind_throw _ _ _ _ _
               (bind_throw _ _ _ _ _
                  (createTempoChange_no_resolution (getTicks x) (getBpm x) s0 HR))).
    reflexivity.
Qed.

Lemma overwriteTempoChanges_without_resolution_witness :
  exists e,
    getTicks e = 0 /\ getTime e = 0%Q /\
    overwriteTempoChanges two_tempos_at_zero newSong
    = (if (length two_tempos_at_zero =? 1)%nat then Ret tt
       else Throw (Error
              "Song resolution must be provided before creating tempo changes."),
       set_tempos (fun _ => [e]) newSong).
Proof.
  apply (overwriteTempoChanges_without_resolution two_tempos_at_zero newSong).
  - simpl. lia.
  - repeat constructor; simpl; lia.
  - exists (mkTempoEvent 0 120 5). split; [apply list_elem_of_here | reflexivity].
Defined.

(** ** Time signatures, bars and the end of the song *)

Lemma ge_loop_range {A} (below : A -> bool) (a : list A) (fuel : nat) (l h i : Z) :
  0 <= i <= Z.of_nat (length a) -> 0 <= l -> h < Z.of_nat (length a) ->
  0 <= ge_loop below a fuel l h i <= Z.of_nat (length a).
Proof.
  revert l h i. induction fuel as [|fuel IH]; intros l h i Hi Hl Hh; simpl.
  - exact Hi.
  - destruct (Z.leb_spec l h) as [Hlh|Hlh]; [|exact Hi].
    pose proof (halve l h Hlh) as Hm.
    destruct (a !! Z.to_nat (Z.shiftr (l + h) 1)); [|exact Hi].
    destruct (negb (below a0)); apply IH; lia.
Qed.

Lemma greaterEqual_range {A} (below : A -> bool) (a : list A) :
  0 <= greaterEqual below a <= Z.of_nat (length a).
Proof. unfold greaterEqual. cbv zeta. apply ge_loop_range; lia. Qed.

Lemma splice_insert_at {A} (l : list A) (i : Z) (x : A) :
  0 <= i <= Z.of_nat (length l) ->
  splice l i 0 [x] = take (Z.to_nat i) l ++ x :: drop (Z.to_nat i) l.
Proof.
  intros Hi. unfold splice, splice_start.
  destruct (Z.ltb_spec i 0); [lia|].
  rewrite Z.min_l by lia. now rewrite Nat.add_0_r.
Qed.

Lemma sorted_by_partition {A} (key : A -> Z) (t : Z) (l : list A) :
  sorted_by key l ->
  exists l1 l2, l = l1 ++ l2 /\ Forall (fun x => key x < t) l1 /\
                Forall (fun x => t <= key x) l2.
Proof.
  induction 1 as [|x l Hs (l1 & l2 & -> & H1 & H2) Hx].
  - exists [], []. repeat split; constructor.
  - destruct (Z_lt_le_dec (key x) t) as [Hlt|Hge].
    + exists (x :: l1), l2. repeat split; [constructor; assumption | assumption].
    + exists [], (x :: l1 ++ l2). repeat split; [constructor|].
      constructor; [exact Hge|]. eapply Forall_impl; [exact Hx|]. simpl. lia.
Qed.

Lemma createTimeSignature_at (ticks numerator denominator : Z) (s : Song) :
  let timeSignature := mkTimeSignatureEvent ticks numerator denominator in
  let i := Z.to_nat (greaterEqual (fun a => tsTicks a - ticks <? 0) (timeSignatures s)) in
  createTimeSignature ticks numerator denominator s
  = (Ret timeSignature,
     set_timeSignatures
       (take i (timeSignatures s) ++ timeSignature :: drop i (timeSignatures s)) s).
Proof.
  intros ts i.
  pose proof (greaterEqual_range (fun a => tsTicks a - ticks <? 0)
                (timeSignatures s)) as Hi.
  unfold createTimeSignature. unfold_monad. cbn [tsTicks].
  destruct (Z.ltb_spec (greaterEqual (fun a => tsTicks a - ticks <? 0)
                          (timeSignatures s)) 0); [lia|].
  cbv beta iota. now rewrite splice_insert_at.
Qed.

Lemma createTimeSignature_sorted (ticks numerator denominator : Z) (s : Song) :
  sorted_by tsTicks (timeSignatures s) ->
  let timeSignature := mkTimeSignatureEvent ticks numerator denominator in
  exists l1 l2,
    timeSignatures s = l1 ++ l2 /\
    createTimeSignature ticks numerator denominator s
    = (Ret timeSignature, set_timeSignatures (l1 ++ timeSignature :: l2) s) /\
    Forall (fun e => tsTicks e < ticks) l1 /\ Forall (fun e => ticks <= tsTicks e) l2.
Proof.
  intros Hs ts.
  destruct (sorted_by_partition tsTicks ticks _ Hs) as (l1 & l2 & Hl & H1 & H2).
  exists l1, l2. split; [exact Hl|]. split; [|split; assumption].
  rewrite createTimeSignature_at. cbv zeta. rewrite Hl.
  rewrite greaterEqual_partition.
  - now rewrite Nat2Z.id, take_app_length, drop_app_length.
  - eapply Forall_impl; [exact H1|]. simpl. intros e He. apply Z.ltb_lt. lia.
  - eapply Forall_impl; [exact H2|]. simpl. intros e He. apply Z.ltb_ge. lia.
Qed.

(** X5. [createTimeSignature] asks for no capability and never throws: on
    every song it returns the new event and puts it somewhere in the
    sequence, every event already there kept, in order. When the sequence
    is sorted by tick, the events before the new one have smaller ticks,
    the events after it have a tick at least as large (the new event goes
    before those of its own tick), and the sequence stays sorted. *)
Theorem createTimeSignature_inserts (ticks numerator denominator : Z) (s : Song) :
  let timeSignature := mkTimeSignatureEvent ticks numerator denominator in
  (exists l1 l2,
     timeSignatures s = l1 ++ l2 /\
     createTimeSignature ticks numerator denominator s
     = (Ret timeSignature, set_timeSignatures (l1 ++ timeSignature :: l2) s))
  /\ (sorted_by tsTicks (timeSignatures s) ->
      exists l1 l2,
        timeSignatures s = l1 ++ l2 /\
        createTimeSignature ticks numerator denominator s
        = (Ret timeSignature, set_timeSignatures (l1 ++ timeSignature :: l2) s) /\
        Forall (fun e => tsTicks e < ticks) l1 /\
        Forall (fun e => ticks <= tsTicks e) l2 /\
        sorted_by tsTicks (l1 ++ timeSignature :: l2)).
Proof.
  intros ts. split.
  - eexists _, _. split; [|apply createTimeSignature_at]. now rewrite take_drop.
  - intros Hs.
    destruct (createTimeSignature_sorted ticks numerator denominator s Hs)
      as (l1 & l2 & Hl & Hrun & H1 & H2).
    exists l1, l2. repeat split; try assumption.
    rewrite Hl in Hs. apply sorted_by_app in Hs as (Hs1 & Hs2 & H12).
    apply sorted_by_app. repeat split; [exact Hs1 | constructor; assumption |].
    apply Forall_forall. intros a Ha. constructor.
    + pose proof (proj1 (Forall_forall _ _) H1 a Ha). simpl in *. lia.
    + exact (proj1 (Forall_forall _ _) H12 a Ha).
Qed.

Lemma createTimeSignature_inserts_witness :
  exists l1 l2,
    timeSignatures two_signatures_song = l1 ++ l2 /\
    createTimeSignature 960 6 8 two_signatures_song
    = (Ret (mkTimeSignatureEvent 960 6 8),
       set_timeSignatures (l1 ++ mkTimeSignatureEvent 960 6 8 :: l2)
         two_signatures_song) /\
    Forall (fun e => tsTicks e < 960) l1 /\ Forall (fun e => 960 <= tsTicks e) l2 /\
    sorted_by tsTicks (l1 ++ mkTimeSignatureEvent 960 6 8 :: l2).
Proof.
  apply (proj2 (createTimeSignature_inserts 960 6 8 two_signatures_song)).
  repeat constructor; simpl; lia.
Defined.

(** X6. A song without time signature has no bar: [getBeatsPerBar],
    [getTicksPerBar] and [getTicksPerBeat] throw. After
    [createTimeSignature] at tick 0 on a sorted sequence without negative
    tick, the bar is the one of the new signature, also when a signature
    was already at tick 0: [getTicksPerBar] is its numerator times the
    resolution. *)
Theorem bar_of_first_time_signature (s : Song) :
  (timeSignatures s = [] ->
   getBeatsPerBar s = Throw TypeError /\ getTicksPerBar s = Throw TypeError /\
   getTicksPerBeat s = Throw TypeError)
  /\ (forall numerator denominator,
        sorted_by tsTicks (timeSignatures s) ->
        Forall (fun e => 0 <= tsTicks e) (timeSignatures s) ->
        let s' := snd (createTimeSignature 0 numerator denominator s) in
        getBeatsPerBar s' = Ret numerator /\
        getTicksPerBar s' = Ret (numerator * getResolution s)).
Proof.
  split.
  - intros Hl. unfold getTicksPerBar, getBeatsPerBar, getTicksPerBeat,
      getTimeSignatures. rewrite Hl. repeat split.
  - intros numerator denominator Hs Hnn s'. subst s'.
    destruct (createTimeSignature_sorted 0 numerator denominator s Hs)
      as (l1 & l2 & Hl & -> & H1 & _).
    destruct l1 as [|e l1].
    + split; reflexivity.
    + apply Forall_cons in H1 as [He _]. rewrite Hl in Hnn.
      apply Forall_cons in Hnn as [He' _]. lia.
Qed.

Lemma bar_of_first_time_signature_witness :
  getBeatsPerBar newSong = Throw TypeError /\ getTicksPerBar newSong = Throw TypeError /\
  getTicksPerBeat newSong = Throw TypeError.
Proof. apply (proj1 (bar_of_first_time_signature newSong)). reflexivity. Defined.

Lemma fold_max_spec {A} (f : A -> Z) (l : list A) (start : Z) :
  let m := fold_left (fun acc x => Z.max acc (f x)) l start in
  start <= m /\ Forall (fun x => f x <= m) l /\
  (m = start \/ exists x, x ∈ l /\ f x = m).
Proof.
  revert start. induction l as [|x l IH]; intros start; simpl.
  - repeat split; [lia | constructor | now left].
  - destruct (IH (Z.max start (f x))) as (Hge & Hall & Hatt).
    repeat split; [lia | constructor; [lia | exact Hall] |].
    destruct Hatt as [Hm|(y & Hy & Hfy)].
    + destruct (Z.max_spec start (f x)) as [[_ Hmax]|[_ Hmax]].
      * right. exists x. split; [apply list_elem_of_here | congruence].
      * left. congruence.
    + right. exists y. split; [now apply list_elem_of_further | exact Hfy].
Qed.

(** X7. Whatever the end ticks of the tracks, [getLastTick] is not
    negative, is at least the end tick of every track of the song, and is
    0 or the end tick of one of the tracks. *)
Theorem getLastTick_is_max (getTrackEndTick : Track -> Z) (s : Song) :
  0 <= getLastTick getTrackEndTick s
  /\ Forall (fun t => getTrackEndTick t <= getLastTick getTrackEndTick s) (tracks s)
  /\ (getLastTick getTrackEndTick s = 0
      \/ exists t, t ∈ tracks s /\ getTrackEndTick t = getLastTick getTrackEndTick s).
Proof. apply (fold_max_spec getTrackEndTick (tracks s) 0). Qed.

Lemma tickToSecondsImpl_no_tempo (t resolution : Z) :
  t <> 0 -> tickToSecondsImpl t [] resolution = Throw TypeError.
Proof.
  intros Ht. unfold tickToSecondsImpl. now destruct (Z.eqb_spec t 0).
Qed.

(** X8. [getDuration] throws exactly when the song has no tempo event and
    some track ends after tick 0; on a song whose tracks all end at tick 0
    or before, and so on a song without track, it is 0 seconds, with or
    without tempo events. *)
Theorem getDuration_throws_iff (getTrackEndTick : Track -> Z) (s : Song) :
  ((exists e, getDuration getTrackEndTick s = Throw e)
   <-> (tempos s = [] /\ exists t, t ∈ tracks s /\ 0 < getTrackEndTick t))
  /\ (Forall (fun t => getTrackEndTick t <= 0) (tracks s) ->
      getDuration getTrackEndTick s = Ret 0%Q).
Proof.
  destruct (fold_max_spec getTrackEndTick (tracks s) 0) as (Hge & Hall & Hatt).
  fold (getLastTick getTrackEndTick s) in Hge, Hall, Hatt.
  unfold getDuration, tickToSeconds, getTempoChanges, getResolution.
  split; [split|].
  - intros [e He].
    destruct (tempos s) as [|e0 l] eqn:Hl.
    + split; [reflexivity|]. destruct Hatt as [H0|(t & Ht & Hend)].
      * rewrite H0 in He. discriminate.
      * exists t. split; [exact Ht|].
        destruct (Z.eq_dec (getLastTick getTrackEndTick s) 0) as [H0|Hn]; [|lia].
        rewrite H0 in He. discriminate.
    + destruct (tickToSecondsImpl_total (getLastTick getTrackEndTick s) (e0 :: l)
                  (PPQ s)) as [q Hq]; [now right|]. congruence.
  - intros (Hl & t & Ht & Hend). rewrite Hl.
    pose proof (proj1 (Forall_forall _ _) Hall t Ht) as Hle. simpl in Hle.
    exists TypeError. apply tickToSecondsImpl_no_tempo. lia.
  - intros Hends.
    assert (H0 : getLastTick getTrackEndTick s = 0).
    { destruct Hatt as [H0|(t & Ht & Hend)]; [exact H0|].
      pose proof (proj1 (Forall_forall _ _) Hends t Ht). simpl in *. lia. }
    now rewrite H0.
Qed.

Lemma getDuration_throws_iff_witness :
  getDuration (fun _ => 0) newSong = Ret 0%Q.
Proof.
  apply (proj2 (getDuration_throws_iff (fun _ => 0) newSong)). constructor.
Defined.

(** ** Tracks *)

Lemma findIndex_spec {A} (p : A -> bool) (l : list A) :
  match find_ p l with
  | None => findIndex p l = -1 /\ Forall (fun y => p y = false) l
  | Some x =>
      exists l1 l2, l = l1 ++ x :: l2 /\ Forall (fun y => p y = false) l1 /\
                    p x = true /\ findIndex p l = Z.of_nat (length l1)
  end.
Proof.
  unfold find_. induction l as [|y l IH]; simpl.
  - split; [reflexivity | constructor].
  - destruct (p y) eqn:Hy.
    + exists [], l. repeat split; [constructor | exact Hy].
    + destruct (List.find p l) as [x|].
      * destruct IH as (l1 & l2 & -> & H1 & Hx & Hi).
        exists (y :: l1), l2. repeat split; [constructor; assumption | exact Hx |].
        rewrite Hi. destruct (Z.ltb_spec (Z.of_nat (length l1)) 0); [lia|].
        simpl length. lia.
      * destruct IH as [Hi Hall]. rewrite Hi. simpl.
        split; [reflexivity | constructor; assumption].
Qed.

(** X9. [getTrackIndex] and [getTrackById] agree: the index is -1 exactly
    when no track is found, and otherwise it is the position of the track
    that [getTrackById] returns, which has the identifier asked for and is
    the first track of the song that has it. *)
Theorem getTrackIndex_getTrackById (s : Song) (trackId : string) :
  match getTrackById s trackId with
  | None => getTrackIndex s trackId = -1 /\
            Forall (fun t => getId t <> trackId) (tracks s)
  | Some track =>
      0 <= getTrackIndex s trackId /\
      tracks s !! Z.to_nat (getTrackIndex s trackId) = Some track /\
      getId track = trackId /\
      Forall (fun t => getId t <> trackId)
        (take (Z.to_nat (getTrackIndex s trackId)) (tracks s))
  end.
Proof.
  unfold getTrackById, getTrackIndex.
  pose proof (findIndex_spec (fun track => String.eqb (getId track) trackId)
                (tracks s)) as H.
  assert (Hneq : forall l, Forall (fun t => String.eqb (getId t) trackId = false) l ->
                           Forall (fun t => getId t <> trackId) l).
  { intros l Hl. eapply Forall_impl; [exact Hl|]. intros t Ht.
    now apply String.eqb_neq. }
  destruct (find_ _ (tracks s)) as [track|].
  - destruct H as (l1 & l2 & -> & H1 & Hx & ->). rewrite Nat2Z.id.
    repeat split; [lia | | now apply String.eqb_eq |].
    + now rewrite list_lookup_middle.
    + rewrite take_app_length. auto.
  - destruct H as [-> Hall]. split; [reflexivity | auto].
Qed.

Lemma filter_sublist {A} (p : A -> bool) (l : list A) : sublist (List.filter p l) l.
Proof.
  induction l as [|x l IH]; simpl; [constructor|].
  destruct (p x); [now apply sublist_skip | now apply sublist_cons].
Qed.

(** X10. [getTracksByIds] returns the tracks of the song whose identifier
    is among the ids asked for, once each and in the order of the song:
    the order of the ids and their repetitions do not matter. *)
Theorem getTracksByIds_in_song_order (s : Song) (trackIds : list string) :
  (forall t, t ∈ getTracksByIds s trackIds <-> t ∈ tracks s /\ getId t ∈ trackIds)
  /\ sublist (getTracksByIds s trackIds) (tracks s)
  /\ (forall trackIds',
        (forall x, x ∈ trackIds <-> x ∈ trackIds') ->
        getTracksByIds s trackIds' = getTracksByIds s trackIds).
Proof.
  unfold getTracksByIds. cbv zeta. split; [|split].
  - intros t. rewrite !list_elem_of_In, filter_In, bool_decide_eq_true,
      elem_of_list_to_set, <- !list_elem_of_In. reflexivity.
  - apply filter_sublist.
  - intros trackIds' Hsame.
    assert (Hset : (list_to_set trackIds' : gset string) = list_to_set trackIds).
    { apply set_eq. intros x. rewrite !elem_of_list_to_set. symmetry. apply Hsame. }
    now rewrite Hset.
Qed.

Lemma getTracksByIds_in_song_order_witness :
  let s := mkSong [mkTrack "a" MIDI_TRACK 1 []; mkTrack "b" AUDIO_TRACK 2 []]
             480 [] [] None 3 in
  getTracksByIds s ["b"; "a"; "b"] = getTracksByIds s ["a"; "b"].
Proof.
  cbv zeta.
  apply (proj2 (proj2 (getTracksByIds_in_song_order
                         (mkSong [mkTrack "a" MIDI_TRACK 1 []; mkTrack "b" AUDIO_TRACK 2 []]
                            480 [] [] None 3) ["a"; "b"])) ["b"; "a"; "b"]).
  intros x. rewrite !elem_of_cons, !elem_of_nil. tauto.
Defined.

Lemma structure_checkAccess (accessName : string) :
  frames_structure (checkAccess accessName).
Proof. unfold checkAccess. repeat (apply frames_deref || frame_step). Qed.

Lemma structure_getNextTrackId : frames_structure getNextTrackId.
Proof.
  assert (Hgen : frames_structure generateTrackIdInternal) by (intros w; reflexivity).
  unfold getNextTrackId.
  repeat (apply frames_deref || apply Hgen || frame_step).
Qed.

Lemma checkAccess_reads (accessName : string) (w : World) :
  snd (checkAccess accessName w) = w.
Proof.
  unfold checkAccess. unfold_monad. destruct (pluginContext (song w)); [|reflexivity].
  unfold deref. destruct (plugins w !! plugin p) as [q|]; [|reflexivity].
  cbv beta iota. destruct (negb _); [|reflexivity].
  unfold plugin_id. destruct (providerId q); [|reflexivity].
  now destruct (pluginId q).
Qed.

(** What a call of [createTrack] leaves, whether it returns or throws. *)
Lemma createTrack_outcome (type : TrackType) (index rank : option Z) (w : World) :
  (exists e w',
     createTrack type index rank w = (Throw e, w') /\
     tracks (song w') = tracks (song w) /\
     (nextTrackRank (song w') = nextTrackRank (song w) \/
      nextTrackRank (song w') = next_rank_after rank (song w)))
  \/ (exists track w',
        createTrack type index rank w = (Ret track, w') /\
        getRank track = rank_given rank (song w) /\ getType track = type /\
        received track = [] /\
        nextTrackRank (song w') = next_rank_after rank (song w) /\
        tracks (song w') = tracks_with index track (tracks (song w))).
Proof.
  unfold createTrack.
  pose proof (checkAccess_reads "createTrack" w) as Hread.
  destruct (checkAccess "createTrack" w) as [[[]|e] w0] eqn:Hcheck;
    simpl in Hread; subst w0.
  2: { left. exists e, w. rewrite (bind_throw _ _ _ _ _ Hcheck). auto. }
  rewrite (bind_run _ _ _ _ _ Hcheck).
  assert (Hrank : exists w1,
             match rank with
             | None => getNextTrackRank
             | Some rank =>
                 let* _ := modify (set_song (fun s =>
                             set_nextTrackRank (Z.max (rank + 1) (nextTrackRank s)) s)) in
                 ret rank
             end%js w = (Ret (rank_given rank (song w)), w1) /\
             tracks (song w1) = tracks (song w) /\
             nextTrackRank (song w1) = next_rank_after rank (song w)).
  { destruct rank; unfold getNextTrackRank; unfold_monad; eexists;
      (split; [reflexivity|]); split; reflexivity. }
  destruct Hrank as (w1 & Hr & Ht1 & Hn1). rewrite (bind_run _ _ _ _ _ Hr).
  destruct (getNextTrackId w1) as [[uuid|e] w2] eqn:Hid;
    pose proof (frames_run _ _ _ _ _ structure_getNextTrackId Hid) as Hframe;
    injection Hframe as Ht2 Hn2.
  2: { left. exists e, w2. rewrite (bind_throw _ _ _ _ _ Hid).
       split; [reflexivity|]. split; [congruence | right; congruence]. }
  rewrite (bind_run _ _ _ _ _ Hid). right.
  destruct index; unfold_monad; eexists _, _; (split; [reflexivity|]); simpl;
    repeat split; congruence.
Qed.

(** X11. The place of a new track: without an index [createTrack] appends
    it; with an index between 0 and the number of tracks it puts it at
    that position, the tracks from there on moving up by one; with a larger
    index it appends. The other tracks keep their order. *)
Theorem createTrack_position (type : TrackType) (index rank : option Z) (w w' : World)
    (track : Track) :
  createTrack type index rank w = (Ret track, w') ->
  let l := tracks (song w) in
  (index = None -> tracks (song w') = l ++ [track])
  /\ (forall i, index = Some i -> 0 <= i <= Z.of_nat (length l) ->
        tracks (song w') = take (Z.to_nat i) l ++ track :: drop (Z.to_nat i) l /\
        tracks (song w') !! Z.to_nat i = Some track)
  /\ (forall i, index = Some i -> Z.of_nat (length l) < i ->
        tracks (song w') = l ++ [track]).
Proof.
  intros Hrun l.
  destruct (createTrack_outcome type index rank w)
    as [(e & w0 & Hthrow & _)|(t & w0 & Hret & _ & _ & _ & _ & Htracks)];
    [congruence|].
  rewrite Hrun in Hret. injection Hret as <- <-. fold l in Htracks.
  split; [|split].
  - intros ->. exact Htracks.
  - intros i -> Hi. simpl in Htracks. rewrite splice_insert_at in Htracks by assumption.
    split; [exact Htracks|]. rewrite Htracks.
    rewrite lookup_app_r; rewrite length_take; [|lia].
    replace (Z.to_nat i - Z.to_nat i `min` length l)%nat with 0%nat by lia.
    reflexivity.
  - intros i -> Hi. simpl in Htracks. rewrite Htracks.
    unfold splice, splice_start. destruct (Z.ltb_spec i 0); [lia|].
    rewrite Z.min_r, Nat2Z.id, Nat.add_0_r by lia.
    now rewrite firstn_all, drop_all.
Qed.

Lemma createTrack_position_witness :
  let w' := snd (createTrack MIDI_TRACK (Some 1) None three_tracks_world) in
  let l := tracks (song three_tracks_world) in
  tracks (song w') = take 1 l ++ mkTrack "d" MIDI_TRACK 4 [] :: drop 1 l
  /\ tracks (song w') !! 1%nat = Some (mkTrack "d" MIDI_TRACK 4 []).
Proof.
  apply (proj1 (proj2 (createTrack_position MIDI_TRACK (Some 1) None three_tracks_world
                         (snd (createTrack MIDI_TRACK (Some 1) None three_tracks_world))
                         (mkTrack "d" MIDI_TRACK 4 [])
                         ltac:(apply injective_projections; [vm_compute; reflexivity
                                                            | reflexivity]))) 1).
  - reflexivity.
  - simpl. lia.
Defined.

Lemma splice_insert_delete {A} (l : list A) (i : Z) (x : A) :
  let k := splice_start l i in
  splice l i 0 [x] = take k l ++ x :: drop k l /\ (k <= length l)%nat.
Proof.
  intros k. subst k. unfold splice. rewrite Nat.add_0_r. split; [reflexivity|].
  unfold splice_start. cbv zeta. destruct (Z.ltb_spec i 0); lia.
Qed.

(** X12. Creating a track and removing it again restores the track list:
    when [createTrack] returns a track whose identifier no track of the
    song had, and the context grants [removeTrack], [removeTrack] of that
    identifier returns that track and leaves the tracks as they were
    before the creation, wherever the track had been inserted. *)
Theorem createTrack_then_removeTrack (type : TrackType) (index rank : option Z)
    (w w1 : World) (track : Track) (ctx : PluginContext) (p : TuneflowPlugin) :
  createTrack type index rank w = (Ret track, w1) ->
  Forall (fun t => getId t <> getId track) (tracks (song w)) ->
  pluginContext (song w1) = Some ctx -> plugins w1 !! plugin ctx = Some p ->
  truthy (songAccess p !! "removeTrack") = true ->
  exists w2,
    removeTrack (getId track) w1 = (Ret (Some track), w2) /\
    tracks (song w2) = tracks (song w).
Proof.
  intros Hrun Hfresh Hctx Hp Hacc.
  destruct (createTrack_outcome type index rank w)
    as [(e & w0 & Hthrow & _)|(t & w0 & Hret & _ & _ & _ & _ & Htracks)];
    [congruence|].
  rewrite Hrun in Hret. injection Hret as <- <-.
  assert (Hsplit : exists l1 l2, tracks (song w) = l1 ++ l2 /\
                                 tracks (song w1) = l1 ++ track :: l2).
  { destruct index as [i|]; simpl in Htracks.
    - destruct (splice_insert_delete (tracks (song w)) i track) as [Hs _].
      eexists _, _. split; [|rewrite Htracks; exact Hs]. now rewrite take_drop.
    - exists (tracks (song w)), []. now rewrite app_nil_r. }
  destruct Hsplit as (l1 & l2 & Hl & Hl1).
  rewrite Hl in Hfresh. apply Forall_app in Hfresh as [Hf1 _].
  unfold removeTrack.
  rewrite (bind_run _ _ _ _ _ (checkAccess_granted _ w1 ctx p Hctx Hp Hacc)).
  unfold_monad. unfold getTrackById. rewrite Hl1.
  destruct (find_first (fun t => String.eqb (getId t) (getId track)) l1 l2 track)
    as [Hfind Hindex].
  { eapply Forall_impl; [exact Hf1|]. intros t Ht. now apply String.eqb_neq. }
  { apply String.eqb_refl. }
  rewrite Hfind. cbv beta iota. eexists. split; [reflexivity|].
  simpl. rewrite Hl1, Hindex, splice_delete. now rewrite Hl.
Qed.

Lemma createTrack_then_removeTrack_witness :
  exists w2,
    removeTrack "d" (snd (createTrack MIDI_TRACK (Some 1) None three_tracks_world))
    = (Ret (Some (mkTrack "d" MIDI_TRACK 4 [])), w2) /\
    tracks (song w2) = tracks (song three_tracks_world).
Proof.
  apply (createTrack_then_removeTrack MIDI_TRACK (Some 1) None three_tracks_world
           (snd (createTrack MIDI_TRACK (Some 1) None three_tracks_world))
           (mkTrack "d" MIDI_TRACK 4 []) (mkPluginContext 0%nat 4%nat)
           (set_generatedTrackIdsInternal ["a"; "b"; "c"; "d"] maker_plugin)).
  - apply injective_projections; [vm_compute; reflexivity | reflexivity].
  - repeat constructor; discriminate.
  - reflexivity.
  - vm_compute. reflexivity.
  - reflexivity.
Defined.



Lemma checkAccess_denied (accessName : string) (w : World) (ctx : PluginContext)
    (p : TuneflowPlugin) :
  pluginContext (song w) = Some ctx -> plugins w !! plugin ctx = Some p ->
  truthy (songAccess p !! accessName) = false ->
  exists e, checkAccess accessName w = (Throw e, w).
Proof.
  intros Hctx Hp Hacc. unfold checkAccess. unfold_monad.
  rewrite Hctx. unfold deref. rewrite Hp, Hacc. cbv beta iota.
  unfold plugin_id. destruct (providerId p); [|eauto].
  destruct (pluginId p); eauto.
Qed.

(** X14. Attaching a context replaces the one before it, counter included:
    right after [setPluginContextInternal] for a plugin instance of the
    store, [createTrack] returns exactly when that plugin declares
    [createTrack], whatever context the song had before and whatever the
    pool holds; and after [clearPluginContextInternal] it throws the 'no
    privileged context' error. *)
Theorem createTrack_after_attach (w : World) (q : PluginRef) (p : TuneflowPlugin)
    (type : TrackType) (index rank : option Z) :
  (plugins w !! q = Some p ->
   ((exists track w',
       createTrack type index rank (snd (setPluginContextInternal q w))
       = (Ret track, w'))
    <-> truthy (songAccess p !! "createTrack") = true))
  /\ fst (createTrack type index rank (snd (clearPluginContextInternal w)))
     = Throw (Error no_context_message).
Proof.
  split.
  - intros Hq. set (w0 := snd (setPluginContextInternal q w)).
    assert (Hctx : pluginContext (song w0) = Some (mkPluginContext q 0)) by reflexivity.
    assert (Hp : plugins w0 !! q = Some p) by exact Hq.
    split.
    + intros (track & w' & Hrun).
      destruct (truthy (songAccess p !! "createTrack")) eqn:Hacc; [reflexivity|].
      destruct (checkAccess_denied "createTrack" w0 _ p Hctx Hp Hacc) as [e He].
      unfold createTrack in Hrun. rewrite (bind_throw _ _ _ _ _ He) in Hrun.
      discriminate.
    + intros Hacc.
      destruct (createTrack_step type index rank w0 _ p Hctx Hp Hacc)
        as (track & w' & Hrun & _); [simpl; lia | eauto].
  - unfold createTrack.
    now rewrite (bind_throw _ _ _ _ _
                   (checkAccess_no_context _ (snd (clearPluginContextInternal w))
                      eq_refl)).
Qed.

Lemma createTrack_after_attach_witness :
  (exists track w',
     createTrack MIDI_TRACK None None (snd (setPluginContextInternal 0%nat viewer_world))
     = (Ret track, w'))
  <-> truthy (songAccess viewer_plugin !! "createTrack") = true.
Proof.
  apply (proj1 (createTrack_after_attach viewer_world 0%nat viewer_plugin
                  MIDI_TRACK None None)).
  reflexivity.
Defined.

(** ** The import *)

Lemma Math_round_monotone (x y : Q) : (x <= y)%Q -> Math_round x <= Math_round y.
Proof. intros H. unfold Math_round. apply Qfloor_resp_le. lra. Qed.

Lemma rescaled_monotone (sourceResolution insertOffset t1 t2 : Z) :
  1 <= sourceResolution -> t1 <= t2 ->
  rescaled 480 sourceResolution insertOffset t1
  <= rescaled 480 sourceResolution insertOffset t2.
Proof.
  intros HR Ht. unfold rescaled. apply Zplus_le_compat_l, Math_round_monotone.
  unfold Qdiv. apply Qmult_le_compat_r.
  - apply Qmult_le_compat_r; [now rewrite <- Zle_Qle | discriminate].
  - apply Qinv_le_0_compat. change 0%Q with (inject_Z 0). rewrite <- Zle_Qle. lia.
Qed.

Lemma rescaled_same_resolution (insertOffset t : Z) :
  rescaled 480 480 insertOffset t = insertOffset + t.
Proof.
  unfold rescaled. f_equal. rewrite <- (Math_round_integer t) at 2.
  apply Math_round_comp. change (inject_Z 480) with 480%Q. field.
Qed.

Lemma import_tracks_carry (sourceResolution insertOffset : Z) (mts : list MidiTrack)
    (w w' : World) :
  for_each mts (importTrack insertOffset (480 / inject_Z sourceResolution)) w
  = (Ret tt, w') ->
  exists newTracks,
    tracks (song w') = tracks (song w) ++ newTracks /\
    Forall2 (carries_ticks (rescaled 480 sourceResolution insertOffset)) mts newTracks.
Proof.
  intros H. apply import_tracks_calls in H as (newTracks & Hw' & Hall).
  exists newTracks. split; [exact Hw'|].
  eapply Forall2_impl; [exact Hall|]. intros track t Ht.
  now apply importedCalls_carry.
Qed.

Lemma importMIDI_ret_tracks (midi : Midi) (insertAtTick : Z) (ow : bool) (w w' : World) :
  importMIDI midi insertAtTick ow w = (Ret tt, w') ->
  exists newTracks,
    tracks (song w') = tracks (song w) ++ newTracks /\
    Forall2 (carries_ticks (rescaled 480 (headerPpq midi) insertAtTick))
      (midiTracks midi) newTracks.
Proof.
  intros H. unfold importMIDI in H. cbv zeta in H.
  apply bind_ret_inv in H as ([] & w1 & H1 & H).
  apply import_tracks_carry in H as (newTracks & Hw' & Hall).
  exists newTracks. split; [|exact Hall]. rewrite Hw'. f_equal.
  destruct ow.
  - apply bind_ret_inv in H1 as ([] & w0 & H0 & H1).
    unfold onSong in H0, H1. simpl in H0. injection H0 as <-. simpl in H1.
    destruct (overwriteTempoChanges_only_tempos
                (importedTempos midi insertAtTick (480 / inject_Z (headerPpq midi)))
                (set_timeSignatures
                   (importedTimeSignatures midi insertAtTick
                      (480 / inject_Z (headerPpq midi))) (song w))) as [l Hl].
    destruct (overwriteTempoChanges _ _) as [r s1]. simpl in Hl. subst s1.
    now injection H1 as _ <-.
  - unfold ret in H1. now injection H1 as <-.
Qed.

(** X15. The import keeps the order of ticks: when [importMIDI] returns
    for a file of resolution at least 1 whose notes have durations that
    are not negative, no note created on the new tracks ends before it
    starts (a short note may end at its start). *)
Theorem importMIDI_notes_not_reversed (midi : Midi) (insertAtTick : Z) (ow : bool)
    (w w' : World) :
  1 <= headerPpq midi ->
  Forall (fun track => Forall (fun note => 0 <= noteDurationTicks note) (notes track))
    (midiTracks midi) ->
  importMIDI midi insertAtTick ow w = (Ret tt, w') ->
  exists newTracks,
    tracks (song w') = tracks (song w) ++ newTracks /\
    Forall (fun t => Forall (fun se => fst se <= snd se) (getNoteTicks t)) newTracks.
Proof.
  intros HR Hdur H. apply importMIDI_ret_tracks in H as (newTracks & Hw' & Hall).
  exists newTracks. split; [exact Hw'|].
  clear Hw'. induction Hall as [|track t mts ts [Hnotes _] _ IH]; [constructor|].
  apply Forall_cons in Hdur as [Hd Hdur]. constructor; [|now apply IH].
  rewrite Hnotes. apply List.Forall_map. eapply Forall_impl; [exact Hd|].
  intros note Hn. simpl in *. apply rescaled_monotone; lia.
Qed.

Lemma importMIDI_notes_not_reversed_witness :
  exists newTracks,
    tracks (song (snd (importMIDI sample_midi 0 false maker_world)))
    = tracks (song maker_world) ++ newTracks /\
    Forall (fun t => Forall (fun se => fst se <= snd se) (getNoteTicks t)) newTracks.
Proof.
  apply (importMIDI_notes_not_reversed sample_midi 0 false maker_world).
  - simpl. lia.
  - repeat constructor. simpl. lia.
  - apply injective_projections; [vm_compute; reflexivity | reflexivity].
Defined.

(** X16. A file whose resolution is 480 is imported tick for tick: when
    [importMIDI] returns, every note and every volume or pan point of the
    new tracks is at its tick of the file plus the insert offset. *)
Theorem importMIDI_same_resolution (midi : Midi) (insertAtTick : Z) (ow : bool)
    (w w' : World) :
  headerPpq midi = 480 ->
  importMIDI midi insertAtTick ow w = (Ret tt, w') ->
  imports_carry (fun t => insertAtTick + t) midi w w'.
Proof.
  intros HR H. apply importMIDI_ret_tracks in H as (newTracks & Hw' & Hall).
  exists newTracks. split; [exact Hw'|].
  eapply Forall2_impl; [exact Hall|]. intros track t (Hn & Hv & Hp).
  rewrite HR in *. unfold carries_ticks. rewrite Hn, Hv, Hp.
  repeat split; apply map_ext; intros a; now rewrite ?rescaled_same_resolution.
Qed.

Lemma importMIDI_same_resolution_witness :
  imports_carry (fun t => 0 + t) (mkMidi 480 [] [] (midiTracks sample_midi)) maker_world
    (snd (importMIDI (mkMidi 480 [] [] (midiTracks sample_midi)) 0 false maker_world)).
Proof.
  apply (importMIDI_same_resolution (mkMidi 480 [] [] (midiTracks sample_midi)) 0 false
           maker_world).
  - reflexivity.
  - apply injective_projections; [vm_compute; reflexivity | reflexivity].
Defined.

Lemma snd_bind_frames {X A B} (proj : World -> X) (m : M World A)
    (k : A -> M World B) (w : World) :
  (forall a, frames_of proj (k a)) -> proj (snd (bind m k w)) = proj (snd (m w)).
Proof.
  intros Hk. unfold bind. destruct (m w) as [[a|e] w1]; simpl; [apply Hk | reflexivity].
Qed.

Lemma importMIDI_timeline (midi : Midi) (insertAtTick : Z) (w : World) :
  let ppqScaleFactor := (480 / inject_Z (headerPpq midi))%Q in
  let s0 := set_timeSignatures
              (importedTimeSignatures midi insertAtTick ppqScaleFactor) (song w) in
  timeline (snd (importMIDI midi insertAtTick true w))
  = (tempos (snd (overwriteTempoChanges
                    (importedTempos midi insertAtTick ppqScaleFactor) s0)),
     PPQ (song w),
     importedTimeSignatures midi insertAtTick ppqScaleFactor).
Proof.
  intros f s0. unfold importMIDI. cbv zeta.
  rewrite snd_bind_frames
    by (intros _; apply frames_for_each; intros track; apply frames_importTrack).
  unfold bind at 1, onSong at 1, overwriteTimeSignatures, modify. cbv beta iota.
  unfold onSong. simpl song. fold f. fold s0.
  destruct (overwriteTempoChanges_only_tempos (importedTempos midi insertAtTick f) s0)
    as [l Hl].
  destruct (overwriteTempoChanges _ s0) as [r s1]. simpl in Hl. subst s1.
  reflexivity.
Qed.





(** X19. With the overwrite flag and an insert offset that is not
    positive, [importMIDI] of a file without tempo event throws 'Cannot
    clear all the tempo events.'; no track is created and the tempo
    sequence is kept, but the time signatures are already replaced. *)
Theorem importMIDI_without_tempo (midi : Midi) (insertAtTick : Z) (w : World) :
  headerTempos midi = [] -> insertAtTick <= 0 ->
  importMIDI midi insertAtTick true w
  = (Throw (Error "Cannot clear all the tempo events."),
     set_song (set_timeSignatures
                 (importedTimeSignatures midi insertAtTick
                    (480 / inject_Z (headerPpq midi)))) w).
Proof.
  intros Htempos Hoff. unfold importMIDI. cbv zeta.
  apply bind_throw. unfold bind at 1, onSong at 1, overwriteTimeSignatures, modify.
  cbv beta iota. unfold onSong, importedTempos. rewrite Htempos.
  destruct (Z.gtb_spec insertAtTick 0); [lia|]. reflexivity.
Qed.

Lemma importMIDI_without_tempo_witness :
  importMIDI sample_midi 0 true maker_world
  = (Throw (Error "Cannot clear all the tempo events."),
     set_song (set_timeSignatures
                 (importedTimeSignatures sample_midi 0 (480 / inject_Z 96))) maker_world).
Proof.
  apply (importMIDI_without_tempo sample_midi 0 maker_world).
  - reflexivity.
  - lia.
Defined.

Lemma overwriteTempoChanges_head (evs : list TempoEvent) (s : Song) :
  Forall (fun x => 0 <= getTicks x) evs -> (exists x, x ∈ evs /\ getTicks x = 0) ->
  head_ok (fun b => exists x, x ∈ evs /\ getTicks x = 0 /\ b = getBpm x)
    (tempos (snd (overwriteTempoChanges evs s))).
Proof.
  intros Hnn (x0 & Hx0 & Hx00).
  destruct evs as [|y evs]; [inversion Hx0|].
  destruct (sort_by_cons getTicks y evs) as (first & rest & Hsort).
  pose proof (sort_by_perm getTicks (y :: evs)) as Hperm.
  pose proof (sort_by_is_sorted getTicks (y :: evs)) as Hsorted.
  rewrite Hsort in Hperm, Hsorted.
  assert (Hnn' : Forall (fun x => 0 <= getTicks x) (first :: rest)) by now rewrite Hperm.
  assert (Hx0' : x0 ∈ first :: rest) by now rewrite Hperm.
  apply StronglySorted_inv in Hsorted as [_ Hmin].
  apply Forall_cons in Hnn' as [Hf0 Hrest].
  assert (Hfirst : getTicks first = 0).
  { apply elem_of_cons in Hx0' as [->|Hin]; [exact Hx00|].
    pose proof (proj1 (Forall_forall _ _) Hmin x0 Hin). simpl in *. lia. }
  rewrite (overwriteTempoChanges_run _ _ _ _ Hsort) by lia.
  apply insert_each_head.
  - repeat constructor.
  - exists (mkTempoEvent 0 (getBpm first) 0), []. repeat split.
    exists first. repeat split; [|exact Hfirst].
    rewrite <- Hperm. apply list_elem_of_here.
  - apply Forall_forall. intros x Hx. split.
    + exact (proj1 (Forall_forall _ _) Hrest x Hx).
    + intros Hxz. exists x. repeat split; [|exact Hxz].
      rewrite <- Hperm. now apply list_elem_of_further.
Qed.

(** X20. An import at a positive insert offset with the overwrite flag
    makes the song start at 120 BPM: for a file of resolution at least 1
    whose tempo events have no negative tick, the first tempo event of the
    song after [importMIDI] is at tick 0 and time 0 with 120 BPM, whether
    the call returns or throws. *)
Theorem importMIDI_offset_starts_at_120 (midi : Midi) (insertAtTick : Z) (w : World) :
  1 <= headerPpq midi -> 0 < insertAtTick ->
  Forall (fun t => 0 <= rawTempoTicks t) (headerTempos midi) ->
  head_ok (fun b => b = 120%Q)
    (tempos (song (snd (importMIDI midi insertAtTick true w)))).
Proof.
  intros HR Hoff Hticks.
  pose proof (importMIDI_timeline midi insertAtTick w) as H. cbv zeta in H.
  unfold timeline in H. injection H as -> _ _.
  set (f := (480 / inject_Z (headerPpq midi))%Q).
  assert (Hfile : Forall (fun x => insertAtTick <= getTicks x)
                    (map (fun rawTempoEvent =>
                            mkTempoEvent
                              (insertAtTick + scaleIntBy (rawTempoTicks rawTempoEvent) f)
                              (rawTempoBpm rawTempoEvent) (rawTempoTime rawTempoEvent))
                       (headerTempos midi))).
  { apply List.Forall_map. eapply Forall_impl; [exact Hticks|].
    intros t Ht. simpl in *.
    assert (0 <= scaleIntBy (rawTempoTicks t) f); [|lia].
    apply scaleIntBy_nonneg; [exact Ht|]. subst f.
    apply Qle_shift_div_l; [|lra].
    change 0%Q with (inject_Z 0). rewrite <- Zlt_Qlt. lia. }
  match goal with
  | |- head_ok _ (tempos (snd (overwriteTempoChanges ?evs ?s0))) =>
      destruct (overwriteTempoChanges_head evs s0) as (e & l & Hl & He0 & Het & HP)
  end.
  - unfold importedTempos. destruct (Z.gtb_spec insertAtTick 0); [|lia].
    constructor; [simpl; lia|].
    eapply Forall_impl; [exact Hfile|]. simpl. lia.
  - exists (mkTempoEvent 0 120 0). split; [|reflexivity].
    unfold importedTempos. destruct (Z.gtb_spec insertAtTick 0); [|lia].
    apply list_elem_of_here.
  - exists e, l. repeat split; try assumption.
    destruct HP as (x & Hx & Hx0 & ->).
    unfold importedTempos in Hx. destruct (Z.gtb_spec insertAtTick 0); [|lia].
    apply elem_of_cons in Hx as [->|Hx]; [reflexivity|].
    pose proof (proj1 (Forall_forall _ _) Hfile x Hx). simpl in *. lia.
Qed.

Lemma importMIDI_offset_starts_at_120_witness :
  head_ok (fun b => b = 120%Q)
    (tempos (song (snd (importMIDI sample_midi 96 true maker_world)))).
Proof.
  apply (importMIDI_offset_starts_at_120 sample_midi 96 maker_world).
  - simpl. lia.
  - lia.
  - constructor.
Defined.

(** * Further properties of the plugin instance *)

Lemma assoc_in_keys {A} (l : list (string * A)) (k : string) :
  In k (map fst l) -> exists v, assoc k l = Some v.
Proof.
  induction l as [|[k' v'] l IH]; simpl; [tauto|].
  intros H. destruct (String.eqb_spec k' k) as [E|E]; [eauto|].
  destruct H as [H|H]; [congruence|auto].
Qed.

Lemma assoc_NoDup {A} (l : list (string * A)) (k : string) (v : A) :
  List.NoDup (map fst l) -> In (k, v) l -> assoc k l = Some v.
Proof.
  induction l as [|[k' v'] l IH]; simpl; [tauto|].
  intros Hnd H. apply List.NoDup_cons_iff in Hnd. destruct Hnd as [Hk Hnd].
  destruct H as [H|H].
  - inversion H; subst. rewrite String.eqb_refl. reflexivity.
  - destruct (String.eqb_spec k' k) as [E|E]; [|auto].
    subst k'. exfalso. apply Hk. apply (List.in_map fst) in H. exact H.
Qed.

(** One round of the loop of [hasAllParamsSet] on a parameter of a known
    widget: the loop goes on exactly when the parameter is set. *)
Lemma hasAllParamsSet_loop_known (p : PluginInstance) (l : list (string * ParamDescriptor)) :
  (forall kd, In kd l -> assoc (fst kd) (params p) = Some (snd kd)) ->
  Forall known_widget l ->
  hasAllParamsSet_loop p (map fst l)
  = Ret (forallb (param_is_set (paramsResultInternal p)) l).
Proof.
  induction l as [|[k d] l IH]; intros Hassoc Hknown; [reflexivity|].
  apply Forall_cons in Hknown. destruct Hknown as [Hk Hknown].
  assert (IH' := IH (fun kd H => Hassoc kd (or_intror H)) Hknown).
  clear IH. cbn [map fst hasAllParamsSet_loop forallb].
  unfold param_is_set at 1. cbn [fst snd].
  destruct (is_nullish (paramResultOf (paramsResultInternal p) k)); [reflexivity|].
  pose proof (Hassoc (k, d) (or_introl eq_refl)) as Hkd. cbn [fst snd] in Hkd.
  rewrite Hkd. cbn [negb andb].
  unfold known_widget in Hk. cbn [snd] in Hk.
  destruct (widgetType d) eqn:Hw; try exact IH'.
  - destruct (is_nullish (getProperty _ "track")); [reflexivity|].
    destruct (is_nullish (getProperty _ "pitch")); [reflexivity|]. exact IH'.
  - destruct (is_nullish (getProperty _ "program")); [reflexivity|].
    destruct (is_nullish (getProperty _ "isDrum")); [reflexivity|]. exact IH'.
  - exfalso. exact (Hk _ eq_refl).
Qed.

(** The loop passes over the parameters that are set. *)
Lemma hasAllParamsSet_loop_skip (p : PluginInstance)
    (l1 : list (string * ParamDescriptor)) (names : list string) :
  (forall kd, In kd l1 -> assoc (fst kd) (params p) = Some (snd kd)) ->
  Forall known_widget l1 ->
  forallb (param_is_set (paramsResultInternal p)) l1 = true ->
  hasAllParamsSet_loop p (map fst l1 ++ names) = hasAllParamsSet_loop p names.
Proof.
  induction l1 as [|[k d] l IH]; intros Hassoc Hknown Hset; [reflexivity|].
  apply Forall_cons in Hknown. destruct Hknown as [Hk Hknown].
  cbn [forallb] in Hset. apply andb_true_iff in Hset. destruct Hset as [Hkd Hset].
  assert (IH' := IH (fun kd H => Hassoc kd (or_intror H)) Hknown Hset).
  clear IH. cbn [map fst app hasAllParamsSet_loop].
  unfold param_is_set in Hkd. cbn [fst snd] in Hkd.
  apply andb_true_iff in Hkd. destruct Hkd as [Hnn Hparts].
  apply negb_true_iff in Hnn. rewrite Hnn.
  pose proof (Hassoc (k, d) (or_introl eq_refl)) as Hkd'. cbn [fst snd] in Hkd'.
  rewrite Hkd'.
  unfold known_widget in Hk. cbn [snd] in Hk.
  destruct (widgetType d) eqn:Hw; try exact IH'.
  - apply andb_true_iff in Hparts. destruct Hparts as [H1 H2].
    apply negb_true_iff in H1, H2. rewrite H1, H2. exact IH'.
  - apply andb_true_iff in Hparts. destruct Hparts as [H1 H2].
    apply negb_true_iff in H1, H2. rewrite H1, H2. exact IH'.
  - exfalso. exact (Hk _ eq_refl).
Qed.

(** What [maybeSyncEnabledWithParamsReadiness] does, case by case. *)
Lemma maybeSync_cases (p : PluginInstance) :
  maybeSyncEnabledWithParamsReadiness p
  = if shouldManualEnableInternal p then
      match hasAllParamsSet p with
      | Ret true => (Ret tt, p)
      | Ret false => (Ret tt, set_enabledInternal false p)
      | Throw e => (Throw e, p)
      end
    else (Ret tt, p).
Proof.
  unfold maybeSyncEnabledWithParamsReadiness, setEnabledInternal. unfold_monad.
  destruct (shouldManualEnableInternal p); [|reflexivity].
  destruct (hasAllParamsSet p) as [[|]|e]; reflexivity.
Qed.





(** Without any assumption on the keys: the loop returns and touches the
    parameter values only. *)
Lemma reset_loop_returns (ps : list (string * ParamDescriptor))
    (names : list string) (p0 : PluginInstance) :
  (forall k, In k names -> In k (map fst ps)) ->
  exists results,
    for_each names (fun key =>
      match assoc key ps with
      | None => throw TypeError
      | Some paramDescriptor =>
          modify (set_paramsResultInternal (insert key (defaultValue paramDescriptor)))
      end) p0
    = (Ret tt, mkPluginInstance (pluginOf p0) (params p0) (enabledInternal p0) results).
Proof.
  revert p0. induction names as [|k names IH]; intros p0 Hin.
  - exists (paramsResultInternal p0). destruct p0; reflexivity.
  - destruct (assoc_in_keys ps k (Hin k (or_introl eq_refl))) as [d Hd].
    cbn [for_each]. unfold bind at 1. rewrite Hd. unfold modify at 1.
    destruct (IH (set_paramsResultInternal (insert k (defaultValue d)) p0)
                (fun k' H => Hin k' (or_intror H))) as [results Hr].
    exists results. rewrite Hr. reflexivity.
Qed.

(** X21. When every parameter has one of the widgets the method knows,
    [hasAllParamsSet] returns, and it returns true exactly when every
    declared parameter reads as set on the parameter values: the read of
    its name gives neither undefined nor null, and for a track-and-pitch
    or an instrument selector a value with both of its parts. The read
    goes through the prototype: a parameter named like a property of
    [Object.prototype] ([constructor], [toString], ...) reads as set
    without having been given a value. *)
Theorem hasAllParamsSet_known_widgets (p : PluginInstance) :
  List.NoDup (paramNames p) ->
  Forall known_widget (params p) ->
  hasAllParamsSet p
  = Ret (forallb (param_is_set (paramsResultInternal p)) (params p)).
Proof.
  intros Hnd Hknown. unfold hasAllParamsSet, paramNames.
  apply hasAllParamsSet_loop_known; [|exact Hknown].
  intros [k d] H. apply assoc_NoDup; assumption.
Qed.

Lemma hasAllParamsSet_known_widgets_witness :
  hasAllParamsSet sample_instance = Ret false
  /\ hasAllParamsSet inherited_name_instance = Ret true.
Proof.
  split.
  - rewrite (hasAllParamsSet_known_widgets sample_instance).
    + reflexivity.
    + vm_compute. repeat constructor; simpl; intuition discriminate.
    + repeat constructor; intros shown; discriminate.
  - rewrite (hasAllParamsSet_known_widgets inherited_name_instance).
    + reflexivity.
    + vm_compute. repeat constructor; simpl; intuition discriminate.
    + repeat constructor; intros shown; discriminate.
Defined.

(** X22. At the first parameter whose widget the method does not know,
    the parameters before it reading as set: [hasAllParamsSet] returns
    false when the read of that parameter on the parameter values, own or
    inherited, gives undefined or null, and throws otherwise, so an unset
    parameter hides the error. *)
Theorem hasAllParamsSet_unknown_widget (p : PluginInstance)
    (l1 l2 : list (string * ParamDescriptor)) (name shown : string)
    (d : ParamDescriptor) :
  List.NoDup (paramNames p) ->
  params p = l1 ++ (name, d) :: l2 ->
  Forall known_widget l1 ->
  forallb (param_is_set (paramsResultInternal p)) l1 = true ->
  widgetType d = WidgetType.Other shown ->
  hasAllParamsSet p
  = if is_nullish (paramResultOf (paramsResultInternal p) name)
    then Ret false
    else Throw (Error (unknown_widget_message shown)).
Proof.
  intros Hnd Hps Hknown Hset Hw.
  assert (Hassoc : forall kd, In kd (params p) ->
                     assoc (fst kd) (params p) = Some (snd kd)).
  { intros [k x] H. apply assoc_NoDup; assumption. }
  unfold hasAllParamsSet, paramNames. rewrite Hps at 1.
  rewrite map_app. rewrite hasAllParamsSet_loop_skip; [|..|exact Hknown|exact Hset].
  - cbn [map fst hasAllParamsSet_loop].
    destruct (is_nullish (paramResultOf (paramsResultInternal p) name)); [reflexivity|].
    assert (Hd : assoc name (params p) = Some d).
    { apply (Hassoc (name, d)). rewrite Hps. apply in_or_app. right. left. reflexivity. }
    rewrite Hd, Hw. reflexivity.
  - intros kd H. apply Hassoc. rewrite Hps. apply in_or_app. left. exact H.
Qed.

Lemma hasAllParamsSet_unknown_widget_witness :
  hasAllParamsSet sample_unknown_instance
  = Throw (Error (unknown_widget_message "9")).
Proof.
  rewrite (hasAllParamsSet_unknown_widget sample_unknown_instance
             [("pitch", mkParamDescriptor WidgetType.Pitch (JsPrimitive "60"))] []
             "notes" "9" (mkParamDescriptor (WidgetType.Other "9") JsNull)).
  - reflexivity.
  - vm_compute. repeat constructor; simpl; intuition discriminate.
  - reflexivity.
  - repeat constructor; intros shown; discriminate.
  - vm_compute. reflexivity.
  - reflexivity.
Defined.



(** X24. [resetInternal] on a plugin that declares neither [createTrack]
    nor [removeTrack] always returns and leaves [enabledInternal] as it
    was; on a plugin that declares one of them it leaves the plugin
    disabled whenever it returns, whatever the defaults of its parameters
    are. *)
Theorem resetInternal_disables (p : PluginInstance) :
  let r := resetInternal p in
  (shouldManualEnableInternal p = false ->
     fst r = Ret tt /\ enabledInternal (snd r) = enabledInternal p)
  /\ (shouldManualEnableInternal p = true ->
        fst r = Ret tt -> enabledInternal (snd r) = false).
Proof.
  cbv zeta.
  destruct (reset_loop_returns (params p) (paramNames p) p (fun k H => H))
    as [results Hloop].
  set (p1 := mkPluginInstance (pluginOf p) (params p) (enabledInternal p) results)
    in Hloop.
  assert (Heq : resetInternal p
                = match maybeSyncEnabledWithParamsReadiness p1 with
                  | (Ret _, p2) =>
                      if shouldManualEnableInternal p2
                      then (Ret tt, set_enabledInternal false p2)
                      else (Ret tt, p2)
                  | (Throw e, p2) => (Throw e, p2)
                  end).
  { unfold resetInternal, resetParamsInternal.
    unfold bind at 1. unfold bind at 1. unfold get at 1. cbv beta iota.
    unfold bind at 1. rewrite Hloop. cbv beta iota.
    destruct (maybeSyncEnabledWithParamsReadiness p1) as [[u|e] p2]; [|reflexivity].
    unfold bind, get, modify, ret.
    destruct (shouldManualEnableInternal p2); reflexivity. }
  rewrite Heq. clear Heq.
  rewrite maybeSync_cases.
  assert (Hman : shouldManualEnableInternal p1 = shouldManualEnableInternal p)
    by reflexivity.
  rewrite Hman. split; intros Hm; rewrite Hm.
  - rewrite Hman, Hm. split; reflexivity.
  - destruct (hasAllParamsSet p1) as [[|]|e].
    + rewrite Hman, Hm. reflexivity.
    + change (shouldManualEnableInternal (set_enabledInternal false p1))
        with (shouldManualEnableInternal p). rewrite Hm. reflexivity.
    + discriminate.
Qed.

Lemma resetInternal_disables_witness :
  enabledInternal (snd (resetInternal sample_instance)) = false.
Proof.
  apply (proj2 (resetInternal_disables sample_instance)).
  - reflexivity.
  - vm_compute. reflexivity.
Defined.



(** * Properties of the assertions on notes *)

Lemma assertNotes_loop_spec {Note : Type} (equals : Note -> Note -> bool)
    (stringify : Note -> string) (notes1 notes2 : list Note) (i : nat) :
  length notes1 = length notes2 ->
  (assertNotes_loop equals stringify i notes1 notes2 = Ret tt
   <-> Forall2 (fun x y => equals x y = true) notes1 notes2)
  /\ (forall k x y,
        notes1 !! k = Some x -> notes2 !! k = Some y ->
        equals x y = false ->
        (forall j a b, (j < k)%nat -> notes1 !! j = Some a -> notes2 !! j = Some b ->
                       equals a b = true) ->
        assertNotes_loop equals stringify i notes1 notes2
        = Throw (Error (note_message stringify (i + k) x y))).
Proof.
  revert notes2 i. induction notes1 as [|x rest1 IH]; intros [|y rest2] i Hlen;
    try discriminate.
  - split; [split; [constructor|reflexivity]|]. intros k a b H. destruct k; discriminate.
  - injection Hlen as Hlen. destruct (IH rest2 (S i) Hlen) as [IHa IHb]. clear IH.
    cbn [assertNotes_loop]. split.
    + destruct (equals x y) eqn:E; cbn [negb].
      * rewrite IHa. split; [intros H; constructor; assumption|].
        intros H. apply Forall2_cons in H. tauto.
      * split; [discriminate|]. intros H. apply Forall2_cons in H.
        destruct H as [H _]. congruence.
    + intros [|k] a b Ha Hb Hne Hbefore.
      * injection Ha as <-. injection Hb as <-. rewrite Hne. cbn [negb].
        rewrite Nat.add_0_r. reflexivity.
      * rewrite (Hbefore 0%nat x y (Nat.lt_0_succ k) eq_refl eq_refl). cbn [negb].
        rewrite (IHb k a b Ha Hb Hne).
        -- rewrite Nat.add_succ_r. reflexivity.
        -- intros j a' b' Hj. apply (Hbefore (S j)). lia.
Qed.

(** X26. [assertNotesAreEqual] returns exactly when the two arrays have
    the same length and [equals] holds at every index; with different
    lengths it throws the message on the lengths, and with equal lengths
    it throws the message for the first index at which [equals] fails. *)
Theorem assertNotesAreEqual_first_difference {Note : Type}
    (equals : Note -> Note -> bool) (stringify : Note -> string)
    (notes1 notes2 : list Note) :
  (assertNotesAreEqual equals stringify notes1 notes2 = Ret tt
   <-> Forall2 (fun x y => equals x y = true) notes1 notes2)
  /\ (length notes1 <> length notes2 ->
      assertNotesAreEqual equals stringify notes1 notes2
      = Throw (Error (length_message (length notes1) (length notes2))))
  /\ (forall i x y,
        length notes1 = length notes2 ->
        notes1 !! i = Some x -> notes2 !! i = Some y ->
        equals x y = false ->
        (forall j a b, (j < i)%nat -> notes1 !! j = Some a -> notes2 !! j = Some b ->
                       equals a b = true) ->
        assertNotesAreEqual equals stringify notes1 notes2
        = Throw (Error (note_message stringify i x y))).
Proof.
  unfold assertNotesAreEqual.
  destruct (Nat.eqb_spec (length notes1) (length notes2)) as [Hlen|Hlen]; cbn [negb].
  - destruct (assertNotes_loop_spec equals stringify notes1 notes2 0 Hlen) as [Ha Hb].
    split; [exact Ha|]. split; [intros H; contradiction|].
    intros i x y _ Hx Hy Hne Hbefore. exact (Hb i x y Hx Hy Hne Hbefore).
  - split; [|split].
    + split; [discriminate|]. intros H. apply Forall2_length in H. contradiction.
    + reflexivity.
    + intros i x y H. contradiction.
Qed.

Lemma assertNotesAreEqual_first_difference_witness :
  assertNotesAreEqual Z.eqb pretty [60; 62; 64] [60; 63; 65]
  = Throw (Error (note_message pretty 1 62 63)).
Proof.
  apply (proj2 (proj2 (assertNotesAreEqual_first_difference
                         Z.eqb pretty [60; 62; 64] [60; 63; 65])) 1%nat 62 63).
  - reflexivity.
  - reflexivity.
  - reflexivity.
  - reflexivity.
  - intros [|j] a b Hj Ha Hb; [|lia].
    injection Ha as <-. injection Hb as <-. reflexivity.
Defined.
